(** * Robust regression on the simplex: projected subgradient descent and
      entropic mirror descent

    Shallow embedding of [RobustRegressionMDAvsPGD.ipynb]: the data
    generator, the objective and its subgradient, the simplex projection
    nested in [pgd], the two optimisers [pgd] and [mda] with their step-size
    schedules, and the averaging of the experiment.

    Number models.  The notebook computes in numpy [float64], and the source
    is embedded twice.

    The first embedding (module [F64] and the functions at top level)
    idealises rounding away: a finite value is a real number and the
    arithmetic on finite values is exact.  What is kept of IEEE 754 is the
    part numpy exposes without raising: the values [inf], [-inf] and [nan],
    produced by a division by zero, by [log 0] or by [sqrt] of a negative
    number, and carried through every later operation.  Zero is unsigned (a
    zero divisor counts as [+0]).  A theorem on this embedding is a
    statement about the code up to rounding.  Where rounding, absorption,
    overflow or underflow can change the outcome in kind (an exception for a
    value, another integer, [nan], a point far from the simplex) the
    theorems carry the domain on which they cannot as hypotheses
    ([moderate], [moderate_matrix], bounds on the step and on the proxies).

    The second embedding (module [B64]) is the code in binary64 itself, on
    Rocq's primitive floating-point numbers.  It evaluates the code bit for
    bit, and shows where the first embedding must not be read: the
    subtraction [2^54 - 1 = 2^54] in the projection, the horizon
    [round(2.5000000000000004) = 3], the step size [R/L = inf] for a proxy
    in the subnormal range.  Statements that are exact in binary64 (the
    schedule of [pgd], the propagation of [nan] in [mda]) are proved on it.

    Python-level failures (a failed [assert], an integer division by zero,
    an index out of range) are results of an error monad.  Every function
    of the notebook is a function here.  On a concrete input the first
    embedding is evaluated by unfolding, each comparison of two reals being
    decided by linear arithmetic (tactic [fl_eval]); the second by the
    kernel's floating-point arithmetic. *)

From Stdlib Require Import Reals Lra Lia List ZArith Bool Permutation Sorted Psatz.
From Stdlib Require Floats Uint63.
Import ListNotations.

Open Scope R_scope.

(** ** float64 values *)

Module F64.

Inductive f64 : Type :=
| Fin (r : R)
| PInf
| NInf
| NaN.

Definition Rltb (x y : R) : bool := if Rlt_dec x y then true else false.
Definition Reqb (x y : R) : bool := if Req_dec_T x y then true else false.

Definition finite (a : f64) : Prop :=
  match a with Fin _ => True | _ => False end.

(** The real number carried by a finite value ([0] for the others; only
    used on values known to be finite). *)
Definition val (a : f64) : R :=
  match a with Fin r => r | _ => 0 end.

Definition fopp (a : f64) : f64 :=
  match a with
  | Fin r => Fin (- r)
  | PInf => NInf
  | NInf => PInf
  | NaN => NaN
  end.

Definition fadd (a b : f64) : f64 :=
  match a, b with
  | NaN, _ | _, NaN => NaN
  | Fin x, Fin y => Fin (x + y)
  | PInf, NInf | NInf, PInf => NaN
  | PInf, _ | _, PInf => PInf
  | NInf, _ | _, NInf => NInf
  end.

Definition fsub (a b : f64) : f64 := fadd a (fopp b).

(** An infinity scaled by a finite factor: [nan] for a zero factor. *)
Definition scale_inf (positive : bool) (r : R) : f64 :=
  if Reqb r 0 then NaN
  else if Bool.eqb positive (Rltb 0 r) then PInf else NInf.

Definition fmul (a b : f64) : f64 :=
  match a, b with
  | NaN, _ | _, NaN => NaN
  | Fin x, Fin y => Fin (x * y)
  | PInf, Fin r | Fin r, PInf => scale_inf true r
  | NInf, Fin r | Fin r, NInf => scale_inf false r
  | PInf, PInf | NInf, NInf => PInf
  | PInf, NInf | NInf, PInf => NInf
  end.

(** numpy division: no exception, a zero divisor gives [inf], [-inf] or
    [nan] (for [0/0]). *)
Definition fdiv (a b : f64) : f64 :=
  match a, b with
  | NaN, _ | _, NaN => NaN
  | Fin x, Fin y =>
      if Reqb y 0 then
        (if Reqb x 0 then NaN else if Rltb 0 x then PInf else NInf)
      else Fin (x / y)
  | Fin _, _ => Fin 0
  | PInf, Fin y => if Rltb y 0 then NInf else PInf
  | NInf, Fin y => if Rltb y 0 then PInf else NInf
  | _, _ => NaN
  end.

(** [x ** 2] *)
Definition fsqr (a : f64) : f64 := fmul a a.

Definition fabs (a : f64) : f64 :=
  match a with
  | Fin r => Fin (Rabs r)
  | PInf | NInf => PInf
  | NaN => NaN
  end.

(** [np.sign]: [-1], [0] or [1]; in particular [sign 0 = 0]. *)
Definition Rsign (r : R) : R :=
  if Rltb r 0 then -1 else if Rltb 0 r then 1 else 0.

Definition fsign (a : f64) : f64 :=
  match a with
  | Fin r => Fin (Rsign r)
  | PInf => Fin 1
  | NInf => Fin (-1)
  | NaN => NaN
  end.

(** [a > b]; every comparison with [nan] is false. *)
Definition fgt (a b : f64) : bool :=
  match a, b with
  | NaN, _ | _, NaN => false
  | Fin x, Fin y => Rltb y x
  | PInf, PInf | NInf, NInf => false
  | PInf, _ | _, NInf => true
  | _, _ => false
  end.

(** [np.maximum], which propagates [nan]. *)
Definition fmax (a b : f64) : f64 :=
  match a, b with
  | NaN, _ | _, NaN => NaN
  | _, _ => if fgt b a then b else a
  end.

Definition fexp (a : f64) : f64 :=
  match a with
  | Fin r => Fin (exp r)
  | PInf => PInf
  | NInf => Fin 0
  | NaN => NaN
  end.

Definition fsqrt (a : f64) : f64 :=
  match a with
  | Fin r => if Rltb r 0 then NaN else Fin (sqrt r)
  | PInf => PInf
  | NInf | NaN => NaN
  end.

Definition flog (a : f64) : f64 :=
  match a with
  | Fin r => if Rltb r 0 then NaN else if Reqb r 0 then NInf else Fin (ln r)
  | PInf => PInf
  | NInf | NaN => NaN
  end.

(** The order [np.sort] sorts by: [-inf], the finite values, [inf], and
    [nan] last. *)
Definition sort_le (a b : f64) : bool :=
  match a, b with
  | _, NaN => true
  | NaN, _ => false
  | NInf, _ | _, PInf => true
  | _, NInf | PInf, _ => false
  | Fin x, Fin y => negb (Rltb y x)
  end.

(** A Python [int] or [float] read as a float64. *)
Definition of_Z (z : Z) : f64 := Fin (IZR z).
Definition of_nat (n : nat) : f64 := Fin (INR n).

(** [round] to the nearest integer, ties to the even one. *)
Definition round_half_even (r : R) : Z :=
  let f := Int_part r in
  let d := r - IZR f in
  if Rltb d (1 / 2) then f
  else if Rltb (1 / 2) d then (f + 1)%Z
  else if Z.even f then f else (f + 1)%Z.

End F64.

(** ** Python exceptions *)

Module Py.

Inductive exn : Type :=
| AssertionError
| ZeroDivisionError
| IndexError
| ValueError
| OverflowError.

Inductive outcome (A : Type) : Type :=
| Ok (a : A)
| Raise (e : exn).

Arguments Ok {A} a.
Arguments Raise {A} e.

Definition bind {A B : Type} (c : outcome A) (k : A -> outcome B) : outcome B :=
  match c with
  | Ok a => k a
  | Raise e => Raise e
  end.

End Py.

Import F64 Py.

Declare Scope py_scope.
Delimit Scope py_scope with py.
Notation "x <- c ;; k" := (bind c (fun x => k))
  (at level 61, c at next level, right associativity) : py_scope.
Notation "' p <- c ;; k" := (bind c (fun p => k))
  (at level 61, p pattern, c at next level, right associativity) : py_scope.
Open Scope py_scope.

(** [a / b] on Python integers: true division, raising on a zero divisor. *)
Definition int_truediv (a b : Z) : outcome f64 :=
  if (b =? 0)%Z then Raise ZeroDivisionError else Ok (Fin (IZR a / IZR b)).

(** [round(t)] on a float64: an [int], or an exception when [t] is not
    finite. *)
Definition py_round (t : f64) : outcome Z :=
  match t with
  | Fin r => Ok (round_half_even r)
  | NaN => Raise ValueError
  | PInf | NInf => Raise OverflowError
  end.

(** ** numpy arrays

    A one-dimensional array or a column is a list; a two-dimensional array is
    the list of its rows.  The operations below are stated for operands of
    conforming shapes, the only ones the optimisers produce on a well-formed
    problem instance. *)

Definition vec := list f64.
Definition matrix := list vec.

Fixpoint map2 {A B C : Type} (f : A -> B -> C) (l : list A) (l' : list B) : list C :=
  match l, l' with
  | a :: t, b :: t' => f a b :: map2 f t t'
  | _, _ => []
  end.

Definition np_sum (v : vec) : f64 := fold_right fadd (Fin 0) v.

(** [np.max] of a one-dimensional array: [nan] wins, an empty array is an
    error. *)
Definition np_max (v : vec) : outcome f64 :=
  match v with
  | [] => Raise ValueError
  | a :: t => Ok (fold_left fmax t a)
  end.

Fixpoint cumsum_from (acc : f64) (v : vec) : vec :=
  match v with
  | [] => []
  | a :: t => fadd acc a :: cumsum_from (fadd acc a) t
  end.

Definition cumsum (v : vec) : vec := cumsum_from (Fin 0) v.

Fixpoint insert_sorted (a : f64) (v : vec) : vec :=
  match v with
  | [] => [a]
  | b :: t => if sort_le a b then a :: v else b :: insert_sorted a t
  end.

(** [np.sort]: ascending, [nan] last. *)
Definition np_sort (v : vec) : vec := fold_right insert_sorted [] v.

(** [np.arange(1, n+1)] *)
Definition arange1 (n : nat) : vec := map of_nat (seq 1 n).

(** [np.nonzero(mask)[-1]]: the positions holding [True], ascending. *)
Fixpoint nonzero_from (i : nat) (mask : list bool) : list nat :=
  match mask with
  | [] => []
  | c :: t => if c then i :: nonzero_from (S i) t else nonzero_from (S i) t
  end.

Definition nonzero (mask : list bool) : list nat := nonzero_from 0 mask.

(** [a[-1]] *)
Fixpoint last_item {A : Type} (l : list A) : outcome A :=
  match l with
  | [] => Raise IndexError
  | [a] => Ok a
  | _ :: t => last_item t
  end.

(** [a[i]] for [i >= 0] *)
Definition getitem {A : Type} (l : list A) (i : nat) : outcome A :=
  match nth_error l i with
  | Some a => Ok a
  | None => Raise IndexError
  end.

Definition dot (u v : vec) : f64 := np_sum (map2 fmul u v).

(** [A @ x] for a column [x] *)
Definition matvec (A : matrix) (x : vec) : vec := map (fun row => dot row x) A.

Definition ncols (A : matrix) : nat := length (hd [] A).

Definition column (j : nat) (A : matrix) : vec :=
  map (fun row => nth j row (Fin 0)) A.

(** [A.T] *)
Definition transpose (A : matrix) : matrix :=
  map (fun j => column j A) (seq 0 (ncols A)).

(** [M @ N] *)
Definition matmul (M N : matrix) : matrix :=
  map (fun row => matvec (transpose N) row) M.

(** [np.linalg.norm(r, ord=1)] of an [(n,1)] array: the maximum over its
    single column of the sum of absolute values. *)
Definition norm1_column (r : vec) : f64 := np_sum (map fabs r).

(** ** The objective and its subgradient *)

(** [objective(A, b, x)]: [(1/len(x)) * np.linalg.norm(A @ x - b, ord=1)]. *)
Definition objective (A : matrix) (b x : vec) : outcome f64 :=
  c <- int_truediv 1 (Z.of_nat (length x)) ;;
  Ok (fmul c (norm1_column (map2 fsub (matvec A x) b))).

(** [subgrad(A, b, x)]:
    [(1/len(x)) * (A.T @ np.sign(A @ x - b)).reshape(-1)]. *)
Definition subgrad (A : matrix) (b x : vec) : outcome vec :=
  c <- int_truediv 1 (Z.of_nat (length x)) ;;
  Ok (map (fmul c) (matvec (transpose A) (map fsign (map2 fsub (matvec A x) b)))).

(** ** Projection onto the simplex (the closure nested in [pgd]) *)

(** [u = np.sort(v)[::-1]] *)
Definition sorted_desc (v : vec) : vec := rev (np_sort v).

(** [cssv = np.cumsum(u) - 1] *)
Definition cssv_of (u : vec) : vec := map (fun s => fsub s (Fin 1)) (cumsum u).

(** [u > (cssv / np.arange(1, n+1))] *)
Definition threshold_mask (n : nat) (u : vec) : list bool :=
  map2 fgt u (map2 fdiv (cssv_of u) (arange1 n)).

Definition project_onto_simplex (v : vec) : outcome vec :=
  let n := length v in
  let u := sorted_desc v in
  let cssv := cssv_of u in
  rho <- last_item (nonzero (threshold_mask n u)) ;;
  c <- getitem cssv rho ;;
  let theta := fdiv c (of_nat (rho + 1)) in
  Ok (map (fun vi => fmax (fsub vi theta) (Fin 0)) v).

(** ** The optimisers *)

(** [x = np.zeros((m, T)); x[:,0] = np.ones(m)/m]: the first iterate, or
    the exception of a negative or empty horizon. *)
Definition first_iterate (m : nat) (T : Z) : outcome vec :=
  if (T <? 0)%Z then Raise ValueError
  else if (T =? 0)%Z then Raise IndexError
  else Ok (map (fun one => fdiv one (of_nat m)) (repeat (Fin 1) m)).

(** The body of the [pgd] loop, run [steps] times from the iterate [xi];
    returns the iterates written after [xi]. *)
Fixpoint pgd_loop (A : matrix) (b : vec) (alpha : f64) (steps : nat) (xi : vec)
  : outcome (list vec) :=
  match steps with
  | O => Ok []
  | S k =>
      g <- subgrad A b xi ;;
      let yi := map2 fsub xi (map (fmul alpha) g) in
      xn <- project_onto_simplex yi ;;
      rest <- pgd_loop A b alpha k xn ;;
      Ok (xn :: rest)
  end.

(** The normalisation [yi / np.sum(yi)] of the [mda] update. *)
Definition mda_normalise (yi : vec) : vec :=
  map (fun y => fdiv y (np_sum yi)) yi.

(** One [mda] update from the iterate [xi] with subgradient [g]. *)
Definition mda_update (alpha : f64) (g xi : vec) : vec :=
  let yi := map2 fmul xi (map (fun gj => fexp (fmul (fopp alpha) gj)) g) in
  mda_normalise yi.

Fixpoint mda_loop (A : matrix) (b : vec) (alpha : f64) (steps : nat) (xi : vec)
  : outcome (list vec) :=
  match steps with
  | O => Ok []
  | S k =>
      g <- subgrad A b xi ;;
      let xn := mda_update alpha g xi in
      rest <- mda_loop A b alpha k xn ;;
      Ok (xn :: rest)
  end.

Section Optimisers.

(** [np.linalg.eigvals]: the eigenvalues of a square matrix, in the order
    the library returns them (taken to be real, as those of [A.T @ A]
    are). *)
Variable eigvals : matrix -> vec.

(** The Lipschitz proxy of [pgd]: [np.sqrt(np.linalg.eigvals(A.T @ A)[0])]. *)
Definition pgd_L (A : matrix) : outcome f64 :=
  lam <- getitem (eigvals (matmul (transpose A) A)) 0 ;;
  Ok (fsqrt lam).

(** The horizon and step size of [pgd], in this order. *)
Definition pgd_schedule (A : matrix) (epsilon : option f64) (T : option Z)
  : outcome (Z * f64) :=
  L <- pgd_L A ;;
  let R := Fin 1 in
  match epsilon, T with
  | Some eps, _ =>
      let T0 := fsqr (fdiv (fmul R L) eps) in
      let alpha := fmul (fdiv R L) (fsqrt (fdiv (Fin 1) T0)) in
      Tn <- py_round T0 ;;
      Ok (Tn, alpha)
  | None, Some Tn =>
      q <- int_truediv 1 Tn ;;
      Ok (Tn, fmul (fdiv R L) (fsqrt q))
  | None, None => Raise AssertionError
  end.

Definition pgd (A : matrix) (b x : vec) (epsilon : option f64) (T : option Z)
  : outcome (list vec) :=
  match epsilon, T with
  | None, None => Raise AssertionError
  | _, _ =>
      let m := length x in
      '(Tn, alpha) <- pgd_schedule A epsilon T ;;
      x0 <- first_iterate m Tn ;;
      rest <- pgd_loop A b alpha (Z.to_nat (Tn - 1)) x0 ;;
      Ok (x0 :: rest)
  end.

End Optimisers.

(** The Lipschitz proxy of [mda]:
    [1/m*np.max(np.sum(np.abs(A), axis=0))] with [m = len(x)]. *)
Definition mda_L (A : matrix) (m : nat) : outcome f64 :=
  c <- int_truediv 1 (Z.of_nat m) ;;
  top <- np_max (map (fun col => np_sum (map fabs col)) (transpose A)) ;;
  Ok (fmul c top).

Definition mda_schedule (A : matrix) (m : nat) (epsilon : option f64) (T : option Z)
  : outcome (Z * f64) :=
  L <- mda_L A m ;;
  let R := fsqrt (flog (of_nat m)) in
  let rho := 1%Z in
  match epsilon, T with
  | Some eps, _ =>
      let T0 := fdiv (fmul (fsqr (fdiv (fmul R L) eps)) (Fin 2)) (of_Z rho) in
      let alpha := fmul (fdiv R L) (fsqrt (fdiv (of_Z (2 * rho)) T0)) in
      Tn <- py_round T0 ;;
      Ok (Tn, alpha)
  | None, Some Tn =>
      q <- int_truediv (2 * rho) Tn ;;
      Ok (Tn, fmul (fdiv R L) (fsqrt q))
  | None, None => Raise AssertionError
  end.

Definition mda (A : matrix) (b x : vec) (epsilon : option f64) (T : option Z)
  : outcome (list vec) :=
  match epsilon, T with
  | None, None => Raise AssertionError
  | _, _ =>
      let m := length x in
      '(Tn, alpha) <- mda_schedule A m epsilon T ;;
      x0 <- first_iterate m Tn ;;
      rest <- mda_loop A b alpha (Z.to_nat (Tn - 1)) x0 ;;
      Ok (x0 :: rest)
  end.

(** ** The data generator *)

(** [A[:,j]] on an array with [m] columns. *)
Definition take_column (m j : nat) (A : matrix) : outcome vec :=
  if (j <? m)%nat then Ok (column j A) else Raise IndexError.

(** [gen_data(n, m)], with the two arrays drawn by [np.random.normal] as
    arguments: [draws] of shape [(n, m)] and [noise] of length [n].  Returns
    [A], [b] and [x0]. *)
Definition gen_data (m : nat) (draws : matrix) (noise : vec)
  : outcome (matrix * vec * vec) :=
  let A := draws in
  let eps := noise in
  c0 <- take_column m 0 A ;;
  c1 <- take_column m 1 A ;;
  let b := map2 fadd (map (fun s => fdiv s (of_Z 2)) (map2 fadd c0 c1)) eps in
  let x0 := map (fun one => fdiv one (of_nat m)) (repeat (Fin 1) m) in
  Ok (A, b, x0).

(** ** The experiment *)

(** [np.mean(traj, axis=1)] of the [(m, T)] array whose columns are the
    iterates of [traj]: the mean of every coordinate over the iterates.  A
    trajectory returned by [pgd] or [mda] has at least one column. *)
Definition mean_axis1 (traj : list vec) : vec :=
  map (fun coordinate => fdiv (np_sum coordinate) (of_nat (length traj))) (transpose traj).

(** * The code in binary64

    The module [B64] is the same source over Rocq's primitive floating-point
    numbers: IEEE 754 binary64, rounding to nearest with ties to even.  Every
    operation rounds, absorbs, overflows and underflows as [numpy]'s
    [float64] does, and a closed call is evaluated bit for bit by
    computation.  Sums are taken in index order (as [np.cumsum] does; in
    the instances evaluated below the products and the partial sums of
    [np.sum] and [@] are exact or have two terms, so that neither the order
    of summation nor a fused multiply-add can change them).
    [np.linalg.eigvals], [np.exp] and [np.log] are library routines whose
    bits the source does not fix: the optimisers take them as parameters. *)

Module B64.

Import Stdlib.Floats.Floats.
Local Open Scope float_scope.

Definition vec := list float.
Definition matrix := list vec.

(** A Python [int] read as a float64, for magnitudes up to [2^53], which
    binary64 holds exactly. *)
Definition of_Z (z : Z) : float :=
  match z with
  | Z0 => 0
  | Zpos _ => of_uint63 (Uint63.of_Z z)
  | Zneg p => - of_uint63 (Uint63.of_Z (Zpos p))
  end.

Definition of_nat (n : nat) : float := of_Z (Z.of_nat n).

(** [a / b] on Python [int]s of magnitude up to [2^53], where Python divides
    the two floats. *)
Definition int_truediv (a b : Z) : outcome float :=
  if (b =? 0)%Z then Raise ZeroDivisionError else Ok (of_Z a / of_Z b).

(** The integer nearest to [m * 2^e] for [m > 0], ties to the even one. *)
Definition round_half_even (m : positive) (e : Z) : Z :=
  match e with
  | Z0 => Zpos m
  | Zpos _ => (Zpos m * 2 ^ e)%Z
  | Zneg p =>
      let d := (2 ^ Zpos p)%Z in
      let q := (Zpos m / d)%Z in
      let r := (Zpos m mod d)%Z in
      match (2 * r ?= d)%Z with
      | Lt => q
      | Gt => (q + 1)%Z
      | Eq => if Z.even q then q else (q + 1)%Z
      end
  end.

(** [round(t)] on a float64: an [int], or an exception when [t] is not
    finite. *)
Definition py_round (t : float) : outcome Z :=
  match Prim2SF t with
  | S754_nan => Raise ValueError
  | S754_infinity _ => Raise OverflowError
  | S754_zero _ => Ok 0%Z
  | S754_finite s m e =>
      Ok (if s then (- round_half_even m e)%Z else round_half_even m e)
  end.

(** [x ** 2] *)
Definition fsqr (a : float) : float := a * a.

(** [np.sign] *)
Definition fsign (a : float) : float :=
  if is_nan a then nan else if 0 <? a then 1 else if a <? 0 then (-1) else 0.

(** [a > b]; every comparison with [nan] is false. *)
Definition fgt (a b : float) : bool := b <? a.

(** [np.maximum], which propagates [nan]. *)
Definition fmax (a b : float) : float :=
  if is_nan a then a else if is_nan b then b else if b <=? a then a else b.

(** The order [np.sort] sorts by: [nan] last. *)
Definition sort_le (a b : float) : bool :=
  if is_nan b then true else if is_nan a then false else a <=? b.

(** [np.sum], in index order. *)
Definition np_sum (v : vec) : float := fold_left add v 0.

(** [np.max], which raises on an empty array. *)
Definition np_max (v : vec) : outcome float :=
  match v with
  | [] => Raise ValueError
  | a :: t => Ok (fold_left fmax t a)
  end.

Fixpoint cumsum_from (acc : float) (v : vec) : vec :=
  match v with
  | [] => []
  | a :: t => (acc + a) :: cumsum_from (acc + a) t
  end.

(** [np.cumsum] *)
Definition cumsum (v : vec) : vec := cumsum_from 0 v.

Fixpoint insert_sorted (a : float) (v : vec) : vec :=
  match v with
  | [] => [a]
  | b :: t => if sort_le a b then a :: v else b :: insert_sorted a t
  end.

(** [np.sort]: ascending, [nan] last. *)
Definition np_sort (v : vec) : vec := fold_right insert_sorted [] v.

(** [np.arange(1, n+1)] *)
Definition arange1 (n : nat) : vec := map of_nat (seq 1 n).

(** [u @ v], [A @ x], [A.T] and [M @ N]. *)
Definition dot (u v : vec) : float := np_sum (map2 mul u v).

Definition matvec (A : matrix) (x : vec) : vec := map (fun row => dot row x) A.

Definition ncols (A : matrix) : nat := length (hd [] A).

Definition column (j : nat) (A : matrix) : vec := map (fun row => nth j row 0) A.

Definition transpose (A : matrix) : matrix :=
  map (fun j => column j A) (seq 0 (ncols A)).

Definition matmul (M N : matrix) : matrix :=
  map (fun row => matvec (transpose N) row) M.

(** [subgrad(A, b, x)]:
    [(1/len(x)) * (A.T @ np.sign(A @ x - b)).reshape(-1)]. *)
Definition subgrad (A : matrix) (b x : vec) : outcome vec :=
  c <- int_truediv 1 (Z.of_nat (length x)) ;;
  Ok (map (mul c) (matvec (transpose A) (map fsign (map2 sub (matvec A x) b)))).

(** [u = np.sort(v)[::-1]] *)
Definition sorted_desc (v : vec) : vec := rev (np_sort v).

(** [cssv = np.cumsum(u) - 1] *)
Definition cssv_of (u : vec) : vec := map (fun s => s - 1) (cumsum u).

(** [u > (cssv / np.arange(1, n+1))] *)
Definition threshold_mask (n : nat) (u : vec) : list bool :=
  map2 fgt u (map2 div (cssv_of u) (arange1 n)).

(** [project_onto_simplex(v)]: [rho = np.nonzero(...)[-1][-1]] raises
    [IndexError] when no position passes the test;
    [theta = cssv[rho] / (rho + 1)]; the result is [np.maximum(v - theta, 0)]. *)
Definition project_onto_simplex (v : vec) : outcome vec :=
  let n := length v in
  let u := sorted_desc v in
  let cssv := cssv_of u in
  rho <- last_item (nonzero (threshold_mask n u)) ;;
  c <- getitem cssv rho ;;
  let theta := c / of_nat (rho + 1) in
  Ok (map (fun vi => fmax (vi - theta) 0) v).

(** [np.zeros((m, T))] followed by [x[:,0] = np.ones(m)/m]. *)
Definition first_iterate (m : nat) (T : Z) : outcome vec :=
  if (T <? 0)%Z then Raise ValueError
  else if (T =? 0)%Z then Raise IndexError
  else Ok (map (fun one => one / of_nat m) (repeat 1 m)).

(** The body of the [pgd] loop:
    [yi = x_gd[:,i] - alpha * subgrad(A, b, x_gd[:,i])], then the projection. *)
Fixpoint pgd_loop (A : matrix) (b : vec) (alpha : float) (steps : nat) (xi : vec)
  : outcome (list vec) :=
  match steps with
  | O => Ok []
  | S k =>
      g <- subgrad A b xi ;;
      let yi := map2 sub xi (map (mul alpha) g) in
      xn <- project_onto_simplex yi ;;
      rest <- pgd_loop A b alpha k xn ;;
      Ok (xn :: rest)
  end.

(** [yi / np.sum(yi)] *)
Definition mda_normalise (yi : vec) : vec := map (fun y => y / np_sum yi) yi.

Section Routines.

(** [np.linalg.eigvals], [np.exp] and [np.log]. *)
Variable eigvals : matrix -> vec.
Variable np_exp np_log : float -> float.

(** [L = np.sqrt(np.linalg.eigvals(A.T @ A)[0])] *)
Definition pgd_L (A : matrix) : outcome float :=
  lam <- getitem (eigvals (matmul (transpose A) A)) 0 ;;
  Ok (sqrt lam).

(** The schedule of [pgd]: with [epsilon], [T = (R*L/epsilon)**2],
    [alpha = (R/L)*np.sqrt(1/T)], then [T = round(T)]; otherwise
    [alpha = (R/L)*np.sqrt(1/T)]. *)
Definition pgd_schedule (A : matrix) (epsilon : option float) (T : option Z)
  : outcome (Z * float) :=
  L <- pgd_L A ;;
  let R := of_Z 1 in
  match epsilon, T with
  | Some eps, _ =>
      let T0 := fsqr (R * L / eps) in
      let alpha := (R / L) * sqrt (1 / T0) in
      Tn <- py_round T0 ;;
      Ok (Tn, alpha)
  | None, Some Tn =>
      q <- int_truediv 1 Tn ;;
      Ok (Tn, (R / L) * sqrt q)
  | None, None => Raise AssertionError
  end.

Definition pgd (A : matrix) (b x : vec) (epsilon : option float) (T : option Z)
  : outcome (list vec) :=
  match epsilon, T with
  | None, None => Raise AssertionError
  | _, _ =>
      let m := length x in
      '(Tn, alpha) <- pgd_schedule A epsilon T ;;
      x0 <- first_iterate m Tn ;;
      rest <- pgd_loop A b alpha (Z.to_nat (Tn - 1)) x0 ;;
      Ok (x0 :: rest)
  end.

(** [L = 1/m*np.max(np.sum(np.abs(A), axis=0))] *)
Definition mda_L (A : matrix) (m : nat) : outcome float :=
  c <- int_truediv 1 (Z.of_nat m) ;;
  top <- np_max (map (fun col => np_sum (map abs col)) (transpose A)) ;;
  Ok (c * top).

(** The schedule of [mda]: [R = np.sqrt(np.log(m))], [rho = 1]; with
    [epsilon], [T = (R*L/epsilon)**2*2/rho],
    [alpha = (R/L) * np.sqrt(2*rho / T)], then [T = round(T)]; otherwise
    [alpha = (R/L) * np.sqrt(2*rho / T)]. *)
Definition mda_schedule (A : matrix) (m : nat) (epsilon : option float) (T : option Z)
  : outcome (Z * float) :=
  L <- mda_L A m ;;
  let R := sqrt (np_log (of_nat m)) in
  let rho := 1%Z in
  match epsilon, T with
  | Some eps, _ =>
      let T0 := fsqr (R * L / eps) * 2 / of_Z rho in
      let alpha := (R / L) * sqrt (of_Z (2 * rho) / T0) in
      Tn <- py_round T0 ;;
      Ok (Tn, alpha)
  | None, Some Tn =>
      q <- int_truediv (2 * rho) Tn ;;
      Ok (Tn, (R / L) * sqrt q)
  | None, None => Raise AssertionError
  end.

(** [yi = x_md[:,i] * np.exp(-alpha * g)], then [yi / np.sum(yi)]. *)
Definition mda_update (alpha : float) (g xi : vec) : vec :=
  let yi := map2 mul xi (map (fun gj => np_exp (- alpha * gj)) g) in
  mda_normalise yi.

Fixpoint mda_loop (A : matrix) (b : vec) (alpha : float) (steps : nat) (xi : vec)
  : outcome (list vec) :=
  match steps with
  | O => Ok []
  | S k =>
      g <- subgrad A b xi ;;
      let xn := mda_update alpha g xi in
      rest <- mda_loop A b alpha k xn ;;
      Ok (xn :: rest)
  end.

Definition mda (A : matrix) (b x : vec) (epsilon : option float) (T : option Z)
  : outcome (list vec) :=
  match epsilon, T with
  | None, None => Raise AssertionError
  | _, _ =>
      let m := length x in
      '(Tn, alpha) <- mda_schedule A m epsilon T ;;
      x0 <- first_iterate m Tn ;;
      rest <- mda_loop A b alpha (Z.to_nat (Tn - 1)) x0 ;;
      Ok (x0 :: rest)
  end.

End Routines.

(** The eigenvalues of a diagonal matrix, in the order of the diagonal. *)
Definition diag_eigvals (M : matrix) : vec :=
  map (fun i => nth i (nth i M []) 0) (seq 0 (length M)).

(** Reference routines for [np.exp] and [np.log], used where a closed call
    of [mda] is evaluated.  They return the values IEEE 754 and C fix
    ([exp(-inf) = 0], [exp(inf) = inf], [log 0 = -inf], [log 1 = 0], [nan]
    for [nan]), overflow and underflow where binary64 does, and elsewhere a
    value within a few units in the last place; the evaluations below rest
    on nothing finer. *)
Definition nearest_Z (t : float) : Z :=
  match py_round t with Ok z => z | Raise _ => 0%Z end.

(** [1 + r + r^2/2! + ... + r^13/13!] *)
Definition exp_series (r : float) : float :=
  fold_right (fun k acc => 1 + r / of_nat k * acc) 1 (seq 1 13).

Definition exp_ref (x : float) : float :=
  if is_nan x then nan
  else if 0x1.62e42fefa39efp+9 <? x then infinity
  else if x <? -0x1.74910d52d3051p+9 then 0
  else
    let k := nearest_Z (x * 0x1.71547652b82fep+0) in
    let kf := of_Z k in
    let r := (x - kf * 0x1.62e42feep-1) - kf * 0x1.a39ef35793c76p-33 in
    Z.ldexp (exp_series r) k.

(** [1 + z/3 + z^2/5 + ... + z^12/25] *)
Definition atanh_series (z : float) : float :=
  fold_right (fun k acc => 1 / of_nat (2 * k + 1) + z * acc) 0 (seq 0 13).

Definition log_ref (x : float) : float :=
  if is_nan x then nan
  else if x <? 0 then nan
  else if x =? 0 then neg_infinity
  else if x =? infinity then infinity
  else
    let (m, e) := Z.frexp x in
    let '(m, e) := if m <? 0x1.6a09e667f3bcdp-1 then (m * 2, (e - 1)%Z) else (m, e) in
    let s := (m - 1) / (m + 1) in
    of_Z e * 0x1.62e42feep-1 +
    (2 * s * atanh_series (s * s) + of_Z e * 0x1.a39ef35793c76p-33).

End B64.

(** ** Properties stated in the claims *)

(** A SimplexPoint: finite nonnegative entries that sum to one. *)
Definition simplex_point (x : vec) : Prop :=
  Forall (fun c => finite c /\ 0 <= val c) x /\ np_sum x = Fin 1.

(** A vector with [1] at position [k] and [0] elsewhere. *)
Definition one_hot (n k : nat) : vec :=
  map (fun i => if Nat.eqb i k then Fin 1 else Fin 0) (seq 0 n).

(** A well-formed problem instance: [A] has [n >= 1] rows of [m >= 1]
    finite entries each, [b] has [n] finite entries and the initial point
    has length [m]. *)
Definition valid_instance (A : matrix) (b x : vec) : Prop :=
  (1 <= length A)%nat /\ (1 <= length x)%nat /\
  Forall (fun row => length row = length x /\ Forall finite row) A /\
  length b = length A /\ Forall finite b.

(** The eigenvalues of a diagonal matrix are its diagonal entries;
    [np.linalg.eigvals] returns them in the order of the diagonal. *)
Definition diag_eigvals (M : matrix) : vec :=
  map (fun i => nth i (nth i M []) (Fin 0)) (seq 0 (length M)).

(** Sum of a list of reals. *)
Definition rsum (l : list R) : R := fold_right Rplus 0 l.

(** The mean absolute residual [(1/n) * sum_i |a_i . x - b_i|] over the [n]
    rows of [A], as the notebook's opening cell and the specification state
    the objective. *)
Definition mean_abs_residual (A : list (list R)) (b x : list R) : R :=
  1 / INR (length A) *
  rsum (map2 (fun row bi => Rabs (rsum (map2 Rmult row x) - bi)) A b).

(** [(1/n) * A^T sign(A x - b)] over the [n] rows of [A], coordinate [j]. *)
Definition mean_sign_gradient (A : list (list R)) (b x : list R) (j : nat) : R :=
  1 / INR (length A) *
  rsum (map2 (fun row bi => nth j row 0 * Rsign (rsum (map2 Rmult row x) - bi)) A b).

(** The sort of [np_sort] on finite values, used to reason about
    [project_onto_simplex] on finite vectors. *)
Fixpoint Rinsert (a : R) (l : list R) : list R :=
  match l with
  | [] => [a]
  | b :: t => if negb (Rltb b a) then a :: l else b :: Rinsert a t
  end.

Definition Rsort (l : list R) : list R := fold_right Rinsert [] l.

Definition descending (u : list R) : Prop :=
  forall i j, (i <= j < length u)%nat -> nth j u 0 <= nth i u 0.

(** The threshold [cssv[k] / (k+1)] of a finite sorted vector [u]. *)
Definition threshold (u : list R) (k : nat) : R :=
  (rsum (firstn (S k) u) - 1) / INR (S k).

(** Position [k] of [u] passes the test [u[k] > cssv[k] / (k+1)]. *)
Definition qualifies (u : list R) (k : nat) : Prop :=
  threshold u k < nth k u 0.

(** A value [np.sort] places before every [inf] and [nan]: finite or
    [-inf]. *)
Definition low (c : f64) : Prop :=
  match c with Fin _ | NInf => True | _ => False end.

(** [inf] or [nan]. *)
Definition high (c : f64) : Prop :=
  match c with PInf | NaN => True | _ => False end.

(** The finite entries of a vector, in order. *)
Definition finite_part (v : vec) : list R :=
  flat_map (fun c => match c with Fin r => [r] | _ => [] end) v.

(** An entry of the result of the projection, for the threshold [theta]. *)
Definition clip (theta : R) (c : f64) : f64 :=
  fmax (fsub c (Fin theta)) (Fin 0).

(** ** Where the exact reals stand for binary64

    The hypotheses under which a theorem on exact reals is kept as a
    statement about the code: a vector handed to the projection has at most
    1024 entries of magnitude at most [2^16], where binary64 resolves the
    simplex to well below one part in a thousand; the entries of a matrix
    have magnitude at most [2^64], far from overflow. *)
Definition moderate (v : list R) : Prop :=
  (length v <= 1024)%nat /\ Forall (fun c => Rabs c <= 2 ^ 16) v.

Definition moderate_matrix (A : matrix) : Prop :=
  Forall (Forall (fun a => Rabs (val a) <= 2 ^ 64)) A.

(** The sum of the absolute values of column [j]. *)
Definition col_abs_sum (A : list (list R)) (j : nat) : R :=
  rsum (map (fun row => Rabs (nth j row 0)) A).

(** [N^2 / D] rounded up to an integer: one step of the rational upper
    bounds of [exp] that place [log 2] where a horizon is decided by the
    sixteenth digit. *)
Definition square_up (D N : Z) : Z := ((N * N + D - 1) / D)%Z.

(** ** Notions used beyond the claims *)

(** The values [objective] and [subgrad] return on finite operands (lemmas
    [objective_l1] and [subgrad_l1]). *)
Definition l1_objective (A : list (list R)) (b x : list R) : R :=
  1 / INR (length x) * rsum (map2 (fun row bi => Rabs (rsum (map2 Rmult row x) - bi)) A b).

Definition l1_subgradient (A : list (list R)) (b x : list R) : list R :=
  map (fun j => 1 / INR (length x) *
                rsum (map2 (fun row bi =>
                              nth j row 0 * Rsign (rsum (map2 Rmult row x) - bi)) A b))
      (seq 0 (length x)).

(** The squared Euclidean distance of two vectors of the same length. *)
Definition sqdist (v z : list R) : R := rsum (map2 (fun a c => (a - c) * (a - c)) v z).

(** * Basic facts *)

Lemma Rltb_true (x y : R) : x < y -> Rltb x y = true.
Proof. intros H. unfold Rltb. destruct (Rlt_dec x y); [reflexivity | contradiction]. Qed.

Lemma Rltb_false (x y : R) : y <= x -> Rltb x y = false.
Proof. intros H. unfold Rltb. destruct (Rlt_dec x y); [lra | reflexivity]. Qed.

Lemma Rltb_iff (x y : R) : Rltb x y = true <-> x < y.
Proof.
  unfold Rltb. destruct (Rlt_dec x y); split; intros; try assumption;
    try reflexivity; try discriminate; contradiction.
Qed.

Lemma Reqb_true (x y : R) : x = y -> Reqb x y = true.
Proof. intros H. unfold Reqb. destruct (Req_dec_T x y); [reflexivity | contradiction]. Qed.

Lemma Reqb_false (x y : R) : x <> y -> Reqb x y = false.
Proof. intros H. unfold Reqb. destruct (Req_dec_T x y); [contradiction | reflexivity]. Qed.

Lemma fdiv_Fin (x y : R) : y <> 0 -> fdiv (Fin x) (Fin y) = Fin (x / y).
Proof. intros H. simpl. now rewrite Reqb_false. Qed.

Lemma fmax_Fin_0 (x : R) : fmax (Fin x) (Fin 0) = Fin (Rmax x 0).
Proof.
  simpl. unfold Rltb, Rmax.
  destruct (Rlt_dec x 0), (Rle_dec x 0); try reflexivity; f_equal; lra.
Qed.

Lemma length_map2 {A B C : Type} (f : A -> B -> C) (l : list A) (l' : list B) :
  length (map2 f l l') = Nat.min (length l) (length l').
Proof.
  revert l'. induction l as [|a l IH]; intros [|b l']; simpl; auto.
Qed.

Lemma nth_error_map2 {A B C : Type} (f : A -> B -> C) (l : list A) (l' : list B) (k : nat) :
  nth_error (map2 f l l') k =
  match nth_error l k, nth_error l' k with
  | Some a, Some b => Some (f a b)
  | _, _ => None
  end.
Proof.
  revert l' k. induction l as [|a l IH]; intros [|b l'] [|k]; simpl; auto.
  destruct (nth_error l k); reflexivity.
Qed.

(** ** Indexing and masks *)

Lemma nonzero_from_nil (mask : list bool) (i : nat) :
  nonzero_from i mask = [] -> forall k, nth_error mask k <> Some true.
Proof.
  revert i. induction mask as [|c t IH]; intros i H k.
  - destruct k; discriminate.
  - simpl in H. destruct c; [discriminate|].
    destruct k; simpl; [discriminate | eapply IH; eauto].
Qed.

Lemma last_item_some {A : Type} (l : list A) :
  l <> [] -> exists a, last_item l = Ok a.
Proof.
  induction l as [|a [|b t] IH]; intros H.
  - contradiction.
  - now exists a.
  - apply IH. discriminate.
Qed.

(** The last position returned by [nonzero] holds [True] and no later
    position does. *)
Lemma last_item_nonzero_from (mask : list bool) :
  forall i rho,
    last_item (nonzero_from i mask) = Ok rho ->
    (i <= rho)%nat /\ nth_error mask (rho - i) = Some true /\
    forall k, nth_error mask k = Some true -> (i + k <= rho)%nat.
Proof.
  induction mask as [|c t IH]; intros i rho H.
  - discriminate.
  - simpl nonzero_from in H. destruct c.
    + destruct (nonzero_from (S i) t) as [|j l] eqn:E.
      * injection H as <-. split; [lia|]. split.
        -- now rewrite Nat.sub_diag.
        -- intros [|k] Hk; [lia|]. exfalso. eapply nonzero_from_nil; eauto.
      * change (last_item (j :: l) = Ok rho) in H. rewrite <- E in H.
        apply IH in H as (H1 & H2 & H3). split; [lia|]. split.
        -- replace (rho - i)%nat with (S (rho - S i)) by lia. exact H2.
        -- intros [|k] Hk; [lia|]. apply H3 in Hk. lia.
    + apply IH in H as (H1 & H2 & H3). split; [lia|]. split.
      * replace (rho - i)%nat with (S (rho - S i)) by lia. exact H2.
      * intros [|k] Hk; [discriminate|]. apply H3 in Hk. lia.
Qed.

Lemma last_item_nonzero (mask : list bool) (rho : nat) :
  last_item (nonzero mask) = Ok rho ->
  nth_error mask rho = Some true /\
  forall k, nth_error mask k = Some true -> (k <= rho)%nat.
Proof.
  intros H. apply last_item_nonzero_from in H as (_ & H2 & H3).
  rewrite Nat.sub_0_r in H2. split; [exact H2|]. intros k Hk. now apply H3 in Hk.
Qed.

Lemma nonzero_some (mask : list bool) (k : nat) :
  nth_error mask k = Some true -> exists rho, last_item (nonzero mask) = Ok rho.
Proof.
  intros H. apply last_item_some. intros E.
  exact (nonzero_from_nil _ _ E _ H).
Qed.

Lemma nth_error_seq (start len k : nat) :
  (k < len)%nat -> nth_error (seq start len) k = Some (start + k)%nat.
Proof.
  revert start k. induction len as [|len IH]; intros start k H; [lia|].
  destruct k; simpl.
  - f_equal. lia.
  - rewrite IH by lia. f_equal. lia.
Qed.

(** ** Sums of reals *)

Lemma rsum_app (l l' : list R) : rsum (l ++ l') = rsum l + rsum l'.
Proof. induction l as [|a l IH]; simpl; [lra | rewrite IH; lra]. Qed.

Lemma rsum_perm (l l' : list R) : Permutation l l' -> rsum l = rsum l'.
Proof. induction 1; simpl; lra. Qed.

Lemma rsum_firstn_S (u : list R) (k : nat) :
  (k < length u)%nat -> rsum (firstn (S k) u) = rsum (firstn k u) + nth k u 0.
Proof.
  revert k. induction u as [|a u IH]; intros k H; simpl in H; [lia|].
  destruct k.
  - simpl. lra.
  - change (rsum (firstn (S (S k)) (a :: u))) with (a + rsum (firstn (S k) u)).
    rewrite IH by lia. simpl. lra.
Qed.

Lemma rsum_map_ext_in (f g : R -> R) (l : list R) :
  (forall x, In x l -> f x = g x) -> rsum (map f l) = rsum (map g l).
Proof. intros H. now rewrite (map_ext_in _ _ _ H). Qed.

Lemma rsum_map_minus_const (c : R) (l : list R) :
  rsum (map (fun x => x - c) l) = rsum l - INR (length l) * c.
Proof.
  induction l as [|a l IH].
  - simpl. lra.
  - change (rsum (map (fun x => x - c) (a :: l)))
      with ((a - c) + rsum (map (fun x => x - c) l)).
    rewrite IH. change (length (a :: l)) with (S (length l)).
    rewrite S_INR. simpl. lra.
Qed.

Lemma rsum_map_zero (l : list R) : rsum (map (fun _ => 0) l) = 0.
Proof. induction l as [|a l IH]; simpl; [reflexivity | rewrite IH; lra]. Qed.

Lemma np_sum_Fin (l : list R) : np_sum (map Fin l) = Fin (rsum l).
Proof.
  induction l as [|a l IH]; [reflexivity|].
  change (np_sum (map Fin (a :: l))) with (fadd (Fin a) (np_sum (map Fin l))).
  now rewrite IH.
Qed.

(** ** Sorting finite values *)

Lemma insert_sorted_Fin (a : R) (l : list R) :
  insert_sorted (Fin a) (map Fin l) = map Fin (Rinsert a l).
Proof.
  induction l as [|b t IH]; [reflexivity|].
  simpl. destruct (negb (Rltb b a)); [reflexivity|].
  now rewrite IH.
Qed.

Lemma np_sort_Fin (v : list R) : np_sort (map Fin v) = map Fin (Rsort v).
Proof.
  induction v as [|a v IH]; [reflexivity|].
  change (np_sort (map Fin (a :: v))) with (insert_sorted (Fin a) (np_sort (map Fin v))).
  rewrite IH. apply insert_sorted_Fin.
Qed.

Lemma Rinsert_perm (a : R) (l : list R) : Permutation (a :: l) (Rinsert a l).
Proof.
  induction l as [|b t IH]; simpl; [apply Permutation_refl|].
  destruct (negb (Rltb b a)); [apply Permutation_refl|].
  eapply Permutation_trans; [apply perm_swap|]. now apply perm_skip.
Qed.

Lemma Rsort_perm (l : list R) : Permutation l (Rsort l).
Proof.
  induction l as [|a l IH]; simpl; [constructor|].
  eapply Permutation_trans; [apply perm_skip, IH | apply Rinsert_perm].
Qed.

Lemma Rinsert_sorted (a : R) (l : list R) :
  StronglySorted Rle l -> StronglySorted Rle (Rinsert a l).
Proof.
  induction 1 as [|b t Hs IH Hb]; simpl.
  - repeat constructor.
  - destruct (Rltb b a) eqn:E; simpl.
    + apply Rltb_iff in E. constructor; [exact IH|].
      eapply Permutation_Forall; [apply Rinsert_perm|].
      constructor; [lra | exact Hb].
    + assert (a <= b) by (unfold Rltb in E; destruct (Rlt_dec b a); [discriminate | lra]).
      constructor; [now constructor|].
      constructor; [assumption|].
      eapply Forall_impl; [|exact Hb]. intros c Hc. simpl in Hc. lra.
Qed.

Lemma Rsort_sorted (l : list R) : StronglySorted Rle (Rsort l).
Proof.
  induction l as [|a l IH]; simpl; [constructor | now apply Rinsert_sorted].
Qed.

Lemma sorted_nth_le (s : list R) :
  StronglySorted Rle s ->
  forall i j, (i <= j < length s)%nat -> nth i s 0 <= nth j s 0.
Proof.
  induction 1 as [|a t Hs IH Ha]; intros i j Hij; simpl in Hij; [lia|].
  destruct i as [|i], j as [|j]; simpl; try lia; try lra.
  - rewrite Forall_forall in Ha. apply Ha, nth_In. lia.
  - apply IH. lia.
Qed.

Lemma descending_rev_sort (v : list R) : descending (rev (Rsort v)).
Proof.
  intros i j Hij. rewrite length_rev in Hij.
  rewrite !rev_nth by lia.
  apply sorted_nth_le; [apply Rsort_sorted | lia].
Qed.

Lemma sorted_desc_Fin (v : list R) :
  sorted_desc (map Fin v) = map Fin (rev (Rsort v)).
Proof. unfold sorted_desc. now rewrite np_sort_Fin, map_rev. Qed.

Lemma perm_rev_sort (v : list R) : Permutation v (rev (Rsort v)).
Proof.
  eapply Permutation_trans; [apply Rsort_perm | apply Permutation_rev].
Qed.

(** ** Cumulative sums and the threshold mask on finite values *)

Lemma cumsum_from_Fin (u : list R) :
  forall acc k, (k < length u)%nat ->
    nth_error (cumsum_from (Fin acc) (map Fin u)) k =
    Some (Fin (acc + rsum (firstn (S k) u))).
Proof.
  induction u as [|a u IH]; intros acc k H; simpl in H; [lia|].
  destruct k as [|k].
  - simpl. do 2 f_equal. lra.
  - change (nth_error (cumsum_from (Fin (acc + a)) (map Fin u)) k =
            Some (Fin (acc + (a + rsum (firstn (S k) u))))).
    rewrite IH by lia. do 2 f_equal. lra.
Qed.

Lemma cssv_of_Fin (u : list R) (k : nat) :
  (k < length u)%nat ->
  nth_error (cssv_of (map Fin u)) k = Some (Fin (rsum (firstn (S k) u) - 1)).
Proof.
  intros H. unfold cssv_of, cumsum.
  rewrite nth_error_map, cumsum_from_Fin by exact H.
  simpl. do 2 f_equal. lra.
Qed.

Lemma INR_S_neq_0 (k : nat) : INR (S k) <> 0.
Proof. apply not_0_INR. discriminate. Qed.

Lemma threshold_mask_Fin (u : list R) (k : nat) :
  (k < length u)%nat ->
  nth_error (threshold_mask (length u) (map Fin u)) k =
  Some (Rltb (threshold u k) (nth k u 0)).
Proof.
  intros H. unfold threshold_mask, arange1.
  rewrite !nth_error_map2, cssv_of_Fin by exact H.
  rewrite !nth_error_map, nth_error_seq by exact H.
  rewrite (nth_error_nth' u 0 H). simpl option_map.
  unfold of_nat. rewrite fdiv_Fin by apply INR_S_neq_0.
  reflexivity.
Qed.

Lemma threshold_mask_length (u : list R) :
  length (threshold_mask (length u) (map Fin u)) = length u.
Proof.
  unfold threshold_mask, arange1, cssv_of, cumsum.
  rewrite !length_map2, !length_map, length_seq.
  assert (E : forall acc l, length (cumsum_from acc l) = length l).
  { intros acc l. revert acc. induction l as [|a l IH]; intros acc; simpl; auto. }
  rewrite E, length_map. lia.
Qed.

(** ** The projection on a sorted finite vector *)

Lemma div_bound (x y z : R) : 0 < z -> (x <= y / z <-> x * z <= y).
Proof.
  intros Hz. assert (E : y / z * z = y) by (field; lra).
  set (q := y / z) in *. split; intros H; nra.
Qed.

Lemma In_firstn_nth (u : list R) (k : nat) (x : R) :
  In x (firstn k u) -> exists i, (i < k)%nat /\ (i < length u)%nat /\ nth i u 0 = x.
Proof.
  intros H. apply (In_nth _ _ 0) in H as (i & Hi & E).
  rewrite length_firstn in Hi. exists i. repeat split; try lia.
  rewrite nth_firstn in E. destruct (Nat.ltb_spec i k); [exact E | lia].
Qed.

Lemma In_skipn_nth (u : list R) (k : nat) (x : R) :
  In x (skipn k u) -> exists i, (k <= i)%nat /\ (i < length u)%nat /\ nth i u 0 = x.
Proof.
  intros H. apply (In_nth _ _ 0) in H as (i & Hi & E).
  rewrite length_skipn in Hi. exists (k + i)%nat. repeat split; try lia.
  now rewrite nth_skipn in E.
Qed.

Lemma INR_S_pos (k : nat) : 0 < INR (S k).
Proof. apply lt_0_INR. lia. Qed.

(** A position that fails the test is at most the previous threshold. *)
Lemma not_qualifies_below (u : list R) (k : nat) :
  (S k < length u)%nat -> ~ qualifies u (S k) -> nth (S k) u 0 <= threshold u k.
Proof.
  unfold qualifies, threshold. intros Hk Hq.
  apply Rnot_lt_le in Hq.
  rewrite (rsum_firstn_S u (S k)) in Hq by exact Hk.
  apply div_bound in Hq; [|apply INR_S_pos].
  apply div_bound; [apply INR_S_pos|].
  rewrite (S_INR (S k)) in Hq. lra.
Qed.

(** With [rho] the last qualifying position of a descending vector, the
    entries clipped at the threshold of [rho] sum to one. *)
Lemma clipped_sum_one (u : list R) (rho : nat) :
  descending u -> (rho < length u)%nat -> qualifies u rho ->
  (forall k, (k < length u)%nat -> qualifies u k -> (k <= rho)%nat) ->
  rsum (map (fun x => Rmax (x - threshold u rho) 0) u) = 1.
Proof.
  intros Hd Hrho Hq Hlast.
  assert (Htheta : INR (S rho) * threshold u rho = rsum (firstn (S rho) u) - 1).
  { unfold threshold. field. apply INR_S_neq_0. }
  unfold qualifies in Hq.
  remember (threshold u rho) as theta eqn:Eth.
  rewrite <- (firstn_skipn (S rho) u) at 1.
  rewrite map_app, rsum_app.
  rewrite (rsum_map_ext_in _ (fun x => x - theta) (firstn (S rho) u)).
  2:{ intros x Hx. apply In_firstn_nth in Hx as (i & Hi & Hlen & <-).
      assert (nth rho u 0 <= nth i u 0) by (apply Hd; lia).
      apply Rmax_left. lra. }
  rewrite (rsum_map_ext_in _ (fun _ => 0) (skipn (S rho) u)).
  2:{ intros x Hx. apply In_skipn_nth in Hx as (i & Hi & Hlen & <-).
      assert (nth i u 0 <= nth (S rho) u 0) by (apply Hd; lia).
      assert (nth (S rho) u 0 <= threshold u rho).
      { apply not_qualifies_below; [lia|]. intros Hc.
        apply Hlast in Hc; lia. }
      apply Rmax_right. lra. }
  rewrite rsum_map_minus_const, rsum_map_zero, length_firstn.
  replace (Nat.min (S rho) (length u)) with (S rho) by lia.
  lra.
Qed.

Lemma clipped_nonneg (theta : R) (l : list R) :
  Forall (fun c => finite c /\ 0 <= val c)
         (map Fin (map (fun x => Rmax (x - theta) 0) l)).
Proof.
  rewrite map_map. apply Forall_forall. intros c Hc.
  apply in_map_iff in Hc as (x & <- & _). simpl. split; [exact I | apply Rmax_r].
Qed.

(** The first position always qualifies. *)
Lemma qualifies_0 (u : list R) : u <> [] -> qualifies u 0.
Proof.
  destruct u as [|a u]; [contradiction|]. intros _.
  unfold qualifies, threshold. simpl. lra.
Qed.

(** The position [project_onto_simplex] keeps on a non-empty finite sorted
    vector: the last one that qualifies. *)
Lemma last_qualifying (u : list R) :
  u <> [] ->
  exists rho,
    last_item (nonzero (threshold_mask (length u) (map Fin u))) = Ok rho /\
    (rho < length u)%nat /\ qualifies u rho /\
    (forall k, (k < length u)%nat -> qualifies u k -> (k <= rho)%nat).
Proof.
  intros Hne.
  assert (Hmask : forall k, nth_error (threshold_mask (length u) (map Fin u)) k = Some true
                            <-> (k < length u)%nat /\ qualifies u k).
  { intros k. split.
    - intros H. assert (Hk : (k < length u)%nat).
      { rewrite <- (threshold_mask_length u). apply nth_error_Some. congruence. }
      split; [exact Hk|]. rewrite threshold_mask_Fin in H by exact Hk.
      injection H as H. now apply Rltb_iff in H.
    - intros [Hk Hq]. rewrite threshold_mask_Fin by exact Hk.
      f_equal. now apply Rltb_iff. }
  destruct (nonzero_some (threshold_mask (length u) (map Fin u)) 0) as [rho Hrho].
  { apply Hmask. split; [destruct u; [contradiction | simpl; lia] | now apply qualifies_0]. }
  pose proof (last_item_nonzero _ _ Hrho) as [H1 H2].
  apply Hmask in H1 as [Hlt Hq].
  exists rho. split; [exact Hrho|]. split; [exact Hlt|]. split; [exact Hq|].
  intros k Hk Hqk. apply H2, Hmask. now split.
Qed.

(** [project_onto_simplex] on a non-empty finite vector: it returns the
    entries clipped at the threshold of the last qualifying position of the
    sorted vector. *)
Lemma project_finite (v : list R) :
  v <> [] ->
  exists rho,
    let u := rev (Rsort v) in
    (rho < length v)%nat /\ qualifies u rho /\
    (forall k, (k < length v)%nat -> qualifies u k -> (k <= rho)%nat) /\
    project_onto_simplex (map Fin v) =
    Ok (map Fin (map (fun x => Rmax (x - threshold u rho) 0) v)).
Proof.
  intros Hne. set (u := rev (Rsort v)).
  assert (Hlen : length u = length v).
  { unfold u. rewrite length_rev. symmetry. apply Permutation_length, Rsort_perm. }
  destruct (last_qualifying u) as (rho & Hrho & Hlt & Hq & Hlast).
  { intros E. rewrite E in Hlen. destruct v; [contradiction | discriminate]. }
  exists rho. cbv zeta. fold u. rewrite <- Hlen.
  split; [exact Hlt|]. split; [exact Hq|]. split; [exact Hlast|].
  unfold project_onto_simplex. rewrite length_map, sorted_desc_Fin. fold u.
  rewrite <- Hlen, Hrho. cbn [bind]. unfold getitem.
  rewrite cssv_of_Fin by exact Hlt. cbn [bind].
  unfold of_nat. rewrite fdiv_Fin by (rewrite Nat.add_1_r; apply INR_S_neq_0).
  f_equal. rewrite !map_map. apply map_ext. intros x.
  rewrite <- fmax_Fin_0. unfold threshold. rewrite Nat.add_1_r. reflexivity.
Qed.

(** The projection of a non-empty finite vector is a point of the simplex
    of the same length. *)
Lemma project_on_simplex (v : list R) :
  v <> [] ->
  exists w, project_onto_simplex (map Fin v) = Ok (map Fin w) /\
            length w = length v /\ simplex_point (map Fin w).
Proof.
  intros Hne. destruct (project_finite v Hne) as (rho & Hlt & Hq & Hlast & Hp).
  cbv zeta in *. set (u := rev (Rsort v)) in *.
  assert (Hlen : length u = length v).
  { unfold u. rewrite length_rev. symmetry. apply Permutation_length, Rsort_perm. }
  eexists. split; [exact Hp|]. split; [apply length_map|].
  split; [apply clipped_nonneg|].
  rewrite np_sum_Fin. f_equal.
  rewrite (rsum_perm _ (map (fun x => Rmax (x - threshold u rho) 0) u)).
  - apply clipped_sum_one; rewrite ?Hlen; try assumption.
    apply descending_rev_sort.
  - apply Permutation_map, perm_rev_sort.
Qed.

(** ** Sorting with [-inf], [inf] and [nan] *)

Lemma low_or_high (v : vec) : Forall low v \/ Exists high v.
Proof.
  induction v as [|c v [IH|IH]].
  - left. constructor.
  - destruct c; try (left; constructor; [exact I | exact IH]);
      right; left; exact I.
  - right. now right.
Qed.

Lemma insert_sorted_NInf (l : vec) : insert_sorted NInf l = NInf :: l.
Proof. destruct l as [|b t]; [reflexivity|]. simpl. now destruct b. Qed.

Lemma insert_sorted_skip (a : R) (k : nat) (l : vec) :
  insert_sorted (Fin a) (repeat NInf k ++ l) = repeat NInf k ++ insert_sorted (Fin a) l.
Proof. induction k as [|k IH]; [reflexivity|]. simpl. now rewrite IH. Qed.

Lemma np_sort_low (v : vec) :
  Forall low v ->
  exists k, np_sort v = repeat NInf k ++ map Fin (Rsort (finite_part v)) /\
            (k + length (finite_part v) = length v)%nat.
Proof.
  induction 1 as [|c v Hc Hv (k & IH & Hlen)].
  - now exists 0%nat.
  - change (np_sort (c :: v)) with (insert_sorted c (np_sort v)). rewrite IH.
    destruct c as [a| | |]; try contradiction.
    + exists k. rewrite insert_sorted_skip, insert_sorted_Fin. split; [reflexivity|].
      simpl. lia.
    + exists (S k). rewrite insert_sorted_NInf. split; [reflexivity|]. simpl. lia.
Qed.

Lemma rev_repeat_same {A : Type} (a : A) (k : nat) : rev (repeat a k) = repeat a k.
Proof.
  induction k as [|k IH]; [reflexivity|].
  simpl. rewrite IH. clear IH. induction k as [|k IH]; [reflexivity|].
  simpl. now rewrite IH.
Qed.

Lemma sorted_desc_low (v : vec) :
  Forall low v ->
  exists k, sorted_desc v = map Fin (rev (Rsort (finite_part v))) ++ repeat NInf k /\
            (k + length (finite_part v) = length v)%nat.
Proof.
  intros H. destruct (np_sort_low v H) as (k & E & Hlen). exists k.
  split; [|exact Hlen]. unfold sorted_desc.
  now rewrite E, rev_app_distr, rev_repeat_same, map_rev.
Qed.

Lemma cumsum_from_NInf (acc : f64) (k : nat) :
  low acc -> cumsum_from acc (repeat NInf k) = repeat NInf k.
Proof.
  revert acc. induction k as [|k IH]; intros acc Hacc; [reflexivity|].
  simpl. assert (E : fadd acc NInf = NInf) by (destruct acc; try contradiction; reflexivity).
  rewrite E, IH; [reflexivity | exact I].
Qed.

Lemma cumsum_from_low_tail (u : list R) (k : nat) :
  forall acc,
    cumsum_from (Fin acc) (map Fin u ++ repeat NInf k) =
    cumsum_from (Fin acc) (map Fin u) ++ repeat NInf k.
Proof.
  induction u as [|a u IH]; intros acc.
  - simpl. apply cumsum_from_NInf. exact I.
  - simpl. now rewrite IH.
Qed.

Lemma map2_app {A B C : Type} (f : A -> B -> C) (l1 l2 : list A) (l1' l2' : list B) :
  length l1 = length l1' ->
  map2 f (l1 ++ l2) (l1' ++ l2') = map2 f l1 l1' ++ map2 f l2 l2'.
Proof.
  revert l1'. induction l1 as [|a l1 IH]; intros [|b l1'] H; simpl in *; try lia; auto.
  now rewrite IH by lia.
Qed.

Lemma length_cumsum_from (acc : f64) (l : vec) : length (cumsum_from acc l) = length l.
Proof. revert acc. induction l as [|a l IH]; intros acc; simpl; auto. Qed.

Lemma mask_NInf_tail (start k : nat) :
  map2 fgt (repeat NInf k) (map2 fdiv (repeat NInf k) (map of_nat (seq start k))) =
  repeat false k.
Proof.
  revert start. induction k as [|k IH]; intros start; [reflexivity|].
  simpl. rewrite IH. f_equal.
  unfold Rltb. destruct (Rlt_dec (INR start) 0) as [H|H]; [|reflexivity].
  pose proof (pos_INR start). lra.
Qed.

Lemma threshold_mask_low_tail (u : list R) (k : nat) :
  threshold_mask (length u + k) (map Fin u ++ repeat NInf k) =
  threshold_mask (length u) (map Fin u) ++ repeat false k.
Proof.
  unfold threshold_mask, cssv_of, cumsum, arange1.
  rewrite cumsum_from_low_tail, map_app, seq_app, map_app.
  assert (E : map (fun s => fsub s (Fin 1)) (repeat NInf k) = repeat NInf k).
  { induction k as [|k IH]; [reflexivity|]. simpl. now rewrite IH. }
  rewrite E.
  rewrite (map2_app fdiv) by now rewrite !length_map, length_cumsum_from, length_map, length_seq.
  rewrite (map2_app fgt).
  - f_equal. apply mask_NInf_tail.
  - rewrite length_map2, !length_map, length_cumsum_from, length_map, length_seq. lia.
Qed.

Lemma nonzero_from_false_tail (mask : list bool) (k : nat) :
  forall i, nonzero_from i (mask ++ repeat false k) = nonzero_from i mask.
Proof.
  induction mask as [|c t IH]; intros i.
  - simpl. revert i. induction k as [|k IHk]; intros i; [reflexivity|]. simpl. apply IHk.
  - simpl. destruct c; now rewrite IH.
Qed.

Lemma clip_Fin (theta x : R) : clip theta (Fin x) = Fin (Rmax (x - theta) 0).
Proof. unfold clip. apply fmax_Fin_0. Qed.

Lemma clip_NInf (theta : R) : clip theta NInf = Fin 0.
Proof. reflexivity. Qed.

Lemma clip_sum (theta : R) (v : vec) :
  Forall low v ->
  Forall (fun c => finite c /\ 0 <= val c) (map (clip theta) v) /\
  exists s, np_sum (map (clip theta) v) = Fin s /\
            s = rsum (map (fun x => Rmax (x - theta) 0) (finite_part v)).
Proof.
  induction 1 as [|c v Hc Hv (IH1 & s & IH2 & IH3)].
  - split; [constructor|]. now exists 0.
  - change (np_sum (map (clip theta) (c :: v)))
      with (fadd (clip theta c) (np_sum (map (clip theta) v))).
    rewrite IH2. cbn [map]. destruct c as [x| | |]; try contradiction.
    + rewrite clip_Fin. split.
      * constructor; [|exact IH1]. simpl. split; [exact I | apply Rmax_r].
      * eexists. split; [reflexivity|]. simpl. now rewrite IH3.
    + rewrite clip_NInf. split.
      * constructor; [|exact IH1]. simpl. split; [exact I | lra].
      * exists (0 + s). split; [reflexivity|]. simpl. rewrite IH3. lra.
Qed.

(** On a vector of finite values and [-inf] with at least one finite value,
    the projection clips at the threshold of the finite part. *)
Lemma project_low (v : vec) :
  Forall low v ->
  match finite_part v with
  | [] => project_onto_simplex v = Raise IndexError
  | _ :: _ =>
      exists rho,
        let u := rev (Rsort (finite_part v)) in
        (rho < length u)%nat /\ qualifies u rho /\
        (forall k, (k < length u)%nat -> qualifies u k -> (k <= rho)%nat) /\
        project_onto_simplex v = Ok (map (clip (threshold u rho)) v)
  end.
Proof.
  intros Hlow. destruct (sorted_desc_low v Hlow) as (k & Eu & Hlen).
  set (u := rev (Rsort (finite_part v))) in *.
  assert (Hulen : length u = length (finite_part v)).
  { unfold u. rewrite length_rev. symmetry. apply Permutation_length, Rsort_perm. }
  assert (Emask : nonzero (threshold_mask (length v) (sorted_desc v)) =
                  nonzero (threshold_mask (length u) (map Fin u))).
  { rewrite Eu. replace (length v) with (length u + k)%nat by lia.
    rewrite threshold_mask_low_tail. apply nonzero_from_false_tail. }
  destruct (finite_part v) as [|a f] eqn:Ef.
  - unfold project_onto_simplex. rewrite Emask.
    destruct u; [reflexivity | discriminate].
  - destruct (last_qualifying u) as (rho & Hrho & Hlt & Hq & Hlast).
    { intros E. rewrite E in Hulen. discriminate. }
    exists rho. cbv zeta. split; [exact Hlt|]. split; [exact Hq|]. split; [exact Hlast|].
    unfold project_onto_simplex. rewrite Emask, Hrho. cbn [bind].
    unfold getitem. rewrite Eu. unfold cssv_of, cumsum.
    rewrite cumsum_from_low_tail, map_app, nth_error_app1.
    2:{ now rewrite length_map, length_cumsum_from, length_map. }
    fold (cumsum (map Fin u)). fold (cssv_of (map Fin u)).
    rewrite cssv_of_Fin by exact Hlt. cbn [bind].
    unfold of_nat. rewrite fdiv_Fin by (rewrite Nat.add_1_r; apply INR_S_neq_0).
    f_equal. apply map_ext. intros c. unfold clip, threshold.
    rewrite Nat.add_1_r. reflexivity.
Qed.

(** ** The projection of a vector holding [inf] or [nan] *)

Lemma low_not_high (c : f64) : low c -> high c -> False.
Proof. destruct c; simpl; tauto. Qed.

Lemma In_insert_sorted (a c : f64) (l : vec) :
  In c (insert_sorted a l) <-> c = a \/ In c l.
Proof.
  induction l as [|b t IH]; simpl.
  - intuition.
  - destruct (sort_le a b); simpl; [intuition|]. rewrite IH. intuition.
Qed.

Lemma In_np_sort (c : f64) (v : vec) : In c (np_sort v) <-> In c v.
Proof.
  induction v as [|a v IH]; [reflexivity|].
  change (np_sort (a :: v)) with (insert_sorted a (np_sort v)).
  rewrite In_insert_sorted, IH. simpl. intuition.
Qed.

(** [np.sort] keeps every [inf] and [nan] after the other values. *)
Lemma insert_low_high (a : f64) (l1 l2 : vec) :
  Forall low l1 -> Forall high l2 ->
  exists l1' l2', insert_sorted a (l1 ++ l2) = l1' ++ l2' /\
                  Forall low l1' /\ Forall high l2'.
Proof.
  intros H1 H2. induction H1 as [|b t Hb Ht IH].
  - simpl. destruct a as [x| | |].
    + exists [Fin x], l2. split; [|split; [repeat constructor | exact H2]].
      destruct H2 as [|h l2 Hh _]; [reflexivity|]. simpl. now destruct h.
    + exists [], (insert_sorted PInf l2). split; [reflexivity|]. split; [constructor|].
      apply Forall_forall. intros c Hc. apply In_insert_sorted in Hc as [->|Hc]; [exact I|].
      rewrite Forall_forall in H2. now apply H2.
    + exists [NInf], l2. split; [|split; [repeat constructor | exact H2]].
      now rewrite insert_sorted_NInf.
    + exists [], (insert_sorted NaN l2). split; [reflexivity|]. split; [constructor|].
      apply Forall_forall. intros c Hc. apply In_insert_sorted in Hc as [->|Hc]; [exact I|].
      rewrite Forall_forall in H2. now apply H2.
  - simpl. destruct (sort_le a b) eqn:E.
    + exists (a :: b :: t), l2. split; [reflexivity|]. split; [|exact H2].
      constructor; [|now constructor].
      destruct a, b; simpl in *; try exact I; try contradiction; discriminate.
    + destruct IH as (l1' & l2' & E' & Hl1 & Hl2).
      exists (b :: l1'), l2'. rewrite E'. split; [reflexivity|]. split; [now constructor | exact Hl2].
Qed.

Lemma np_sort_low_high (v : vec) :
  exists l1 l2, np_sort v = l1 ++ l2 /\ Forall low l1 /\ Forall high l2.
Proof.
  induction v as [|a v (l1 & l2 & E & H1 & H2)].
  - exists [], []. repeat split; constructor.
  - change (np_sort (a :: v)) with (insert_sorted a (np_sort v)). rewrite E.
    now apply insert_low_high.
Qed.

Lemma sorted_desc_high (v : vec) :
  Exists high v -> exists h t, sorted_desc v = h :: t /\ high h.
Proof.
  intros H. apply Exists_exists in H as (c & Hc & Hhigh).
  destruct (np_sort_low_high v) as (l1 & l2 & E & H1 & H2).
  assert (Hin : In c l2).
  { apply In_np_sort in Hc. rewrite E in Hc. apply in_app_or in Hc as [Hc|Hc]; [|exact Hc].
    rewrite Forall_forall in H1. exfalso. eapply low_not_high; eauto. }
  unfold sorted_desc. rewrite E, rev_app_distr.
  destruct (rev l2) as [|h t] eqn:Er.
  - apply in_rev in Hin. rewrite Er in Hin. contradiction.
  - exists h, (t ++ rev l1). split; [reflexivity|].
    rewrite Forall_forall in H2. apply H2, in_rev. rewrite Er. now left.
Qed.

Lemma cumsum_from_high (t : vec) :
  forall acc, high acc -> Forall high (cumsum_from acc t).
Proof.
  induction t as [|a t IH]; intros acc Hacc; simpl; constructor.
  - destruct acc, a; simpl in *; tauto.
  - apply IH. destruct acc, a; simpl in *; tauto.
Qed.

Lemma thresholds_high (cssv : vec) :
  Forall high cssv ->
  forall start len, Forall high (map2 fdiv cssv (map of_nat (seq start len))).
Proof.
  induction 1 as [|c cssv Hc Hcs IH]; intros start len; [constructor|].
  destruct len as [|len]; simpl; constructor; [|apply IH].
  destruct c; simpl in *; try contradiction; try exact I.
  unfold Rltb. destruct (Rlt_dec (INR start) 0); [|exact I].
  pose proof (pos_INR start). lra.
Qed.

Lemma mask_high (thr : vec) :
  Forall high thr -> forall u i, nonzero_from i (map2 fgt u thr) = [].
Proof.
  induction 1 as [|c thr Hc Hthr IH]; intros u i.
  - now destruct u.
  - destruct u as [|a u]; [reflexivity|]. simpl.
    assert (E : fgt a c = false) by (destruct a, c; simpl in *; first [contradiction | reflexivity]).
    rewrite E. apply IH.
Qed.

Lemma project_high (v : vec) :
  Exists high v -> project_onto_simplex v = Raise IndexError.
Proof.
  intros H. destruct (sorted_desc_high v H) as (h & t & E & Hh).
  unfold project_onto_simplex, threshold_mask, nonzero. rewrite E.
  rewrite mask_high; [reflexivity|].
  unfold arange1. apply thresholds_high.
  unfold cssv_of, cumsum. simpl.
  assert (Hacc : high (fadd (Fin 0) h)) by (destruct h; simpl in *; tauto).
  pose proof (cumsum_from_high t _ Hacc) as Hc.
  constructor.
  - destruct h; simpl in *; tauto.
  - apply Forall_forall. intros c Hin. apply in_map_iff in Hin as (d & <- & Hd).
    rewrite Forall_forall in Hc. specialize (Hc d Hd). destruct d; simpl in *; tauto.
Qed.

(** Whatever it is given, a projection that returns has returned a point of
    the simplex of the same length. *)
Lemma project_result_simplex (v w : vec) :
  project_onto_simplex v = Ok w -> simplex_point w /\ length w = length v.
Proof.
  intros H. destruct (low_or_high v) as [Hlow|Hhigh].
  - pose proof (project_low v Hlow) as Hp.
    destruct (finite_part v) as [|a f] eqn:Ef; [congruence|].
    destruct Hp as (rho & Hlt & Hq & Hlast & Hp). cbv zeta in *.
    rewrite Hp in H. injection H as <-. split; [|apply length_map].
    destruct (clip_sum (threshold (rev (Rsort (a :: f))) rho) v Hlow) as (H1 & s & H2 & H3).
    change (Rinsert a (Rsort f)) with (Rsort (a :: f)).
    split; [exact H1|]. rewrite H2. f_equal. rewrite H3, Ef.
    rewrite (rsum_perm _ (map (fun x => Rmax (x - threshold (rev (Rsort (a :: f))) rho) 0)
                              (rev (Rsort (a :: f))))).
    + apply clipped_sum_one; try assumption. apply descending_rev_sort.
    + apply Permutation_map, perm_rev_sort.
  - rewrite project_high in H by exact Hhigh. discriminate.
Qed.

(** ** Finite values stay finite *)

Lemma finite_Fin (a : f64) : finite a -> a = Fin (val a).
Proof. destruct a; simpl; intros H; try contradiction; reflexivity. Qed.

Lemma finite_repr (v : vec) : Forall finite v -> v = map Fin (map val v).
Proof.
  induction 1 as [|a v Ha Hv IH]; [reflexivity|].
  simpl. now rewrite <- IH, <- finite_Fin.
Qed.

Lemma Forall_finite_Fin (l : list R) : Forall finite (map Fin l).
Proof. apply Forall_forall. intros a Ha. apply in_map_iff in Ha as (r & <- & _). exact I. Qed.

Lemma finite_fadd (a b : f64) : finite a -> finite b -> finite (fadd a b).
Proof. destruct a, b; simpl; tauto. Qed.

Lemma finite_fsub (a b : f64) : finite a -> finite b -> finite (fsub a b).
Proof. destruct a, b; simpl; tauto. Qed.

Lemma finite_fmul (a b : f64) : finite a -> finite b -> finite (fmul a b).
Proof. destruct a, b; simpl; tauto. Qed.

Lemma finite_fsign (a : f64) : finite a -> finite (fsign a).
Proof. destruct a; simpl; tauto. Qed.

Lemma finite_map2 (f : f64 -> f64 -> f64) (l l' : vec) :
  (forall a b, finite a -> finite b -> finite (f a b)) ->
  Forall finite l -> Forall finite l' -> Forall finite (map2 f l l').
Proof.
  intros Hf Hl. revert l'. induction Hl as [|a l Ha Hl IH]; intros l' Hl'.
  - constructor.
  - destruct Hl' as [|b l' Hb Hl']; simpl; constructor; auto.
Qed.

Lemma finite_np_sum (v : vec) : Forall finite v -> finite (np_sum v).
Proof.
  induction 1 as [|a v Ha Hv IH]; [exact I|].
  change (np_sum (a :: v)) with (fadd a (np_sum v)). now apply finite_fadd.
Qed.

Lemma finite_dot (u v : vec) : Forall finite u -> Forall finite v -> finite (dot u v).
Proof. intros Hu Hv. apply finite_np_sum, finite_map2; auto using finite_fmul. Qed.

Lemma finite_matvec (M : matrix) (x : vec) :
  Forall (Forall finite) M -> Forall finite x -> Forall finite (matvec M x).
Proof.
  intros HM Hx. unfold matvec. apply Forall_forall. intros c Hc.
  apply in_map_iff in Hc as (row & <- & Hrow).
  rewrite Forall_forall in HM. apply finite_dot; auto.
Qed.

Lemma finite_nth (row : vec) (j : nat) : Forall finite row -> finite (nth j row (Fin 0)).
Proof.
  intros H. destruct (Nat.lt_ge_cases j (length row)) as [Hj|Hj].
  - rewrite Forall_forall in H. apply H, nth_In, Hj.
  - now rewrite nth_overflow.
Qed.

Lemma finite_transpose (A : matrix) :
  Forall (Forall finite) A -> Forall (Forall finite) (transpose A).
Proof.
  intros HA. unfold transpose, column. apply Forall_forall. intros col Hcol.
  apply in_map_iff in Hcol as (j & <- & _).
  apply Forall_forall. intros c Hc. apply in_map_iff in Hc as (row & <- & Hrow).
  rewrite Forall_forall in HA. apply finite_nth; auto.
Qed.

(** On finite operands of non-zero length [subgrad] returns a finite vector
    with one entry per column of [A]. *)
Lemma subgrad_finite (A : matrix) (b x : vec) :
  Forall (Forall finite) A -> Forall finite b -> Forall finite x -> x <> [] ->
  exists g, subgrad A b x = Ok (map Fin g) /\ length g = ncols A.
Proof.
  intros HA Hb Hx Hne. unfold subgrad, int_truediv.
  destruct (Z.eqb_spec (Z.of_nat (length x)) 0) as [E|_].
  { destruct x; [contradiction | simpl in E; lia]. }
  cbn [bind].
  set (r := map _ (matvec (transpose A) _)).
  assert (Hr : Forall finite r).
  { unfold r. apply Forall_forall. intros c Hc.
    apply in_map_iff in Hc as (d & <- & Hd). apply finite_fmul; [exact I|].
    revert d Hd. apply Forall_forall, finite_matvec; [now apply finite_transpose|].
    apply Forall_forall. intros s Hs. apply in_map_iff in Hs as (t & <- & Ht).
    apply finite_fsign. revert t Ht. apply Forall_forall.
    apply finite_map2; auto using finite_fsub, finite_matvec. }
  exists (map val r). split; [now rewrite <- finite_repr|].
  unfold r, matvec, transpose. now rewrite !length_map, length_seq.
Qed.

Lemma valid_instance_finite (A : matrix) (b x : vec) :
  valid_instance A b x -> Forall (Forall finite) A /\ Forall finite b /\ ncols A = length x.
Proof.
  intros (Hn & Hm & HA & Hlb & Hb). split; [|split; [exact Hb|]].
  - eapply Forall_impl; [|exact HA]. now intros row [_ H].
  - unfold ncols. destruct A as [|row A]; [simpl in Hn; lia|].
    simpl. now inversion HA as [|? ? [H _] _].
Qed.

(** ** The first iterate *)

Lemma uniform_values (m k : nat) :
  m <> 0%nat ->
  map (fun one => fdiv one (of_nat m)) (repeat (Fin 1) k) =
  map Fin (repeat (1 / INR m) k).
Proof.
  intros Hm. induction k as [|k IH]; [reflexivity|].
  cbn [repeat map]. rewrite IH. f_equal.
  unfold of_nat. rewrite fdiv_Fin; [reflexivity | now apply not_0_INR].
Qed.

Lemma first_iterate_uniform (m : nat) (T : Z) :
  (1 <= T)%Z -> m <> 0%nat ->
  first_iterate m T = Ok (map Fin (repeat (1 / INR m) m)).
Proof.
  intros HT Hm. unfold first_iterate.
  destruct (Z.ltb_spec T 0); [lia|]. destruct (Z.eqb_spec T 0); [lia|].
  now rewrite uniform_values.
Qed.

Lemma rsum_repeat (c : R) (k : nat) : rsum (repeat c k) = INR k * c.
Proof.
  induction k as [|k IH]; [simpl; lra|].
  change (rsum (repeat c (S k))) with (c + rsum (repeat c k)).
  rewrite IH, S_INR. lra.
Qed.

Lemma uniform_simplex_point (m : nat) :
  (1 <= m)%nat -> simplex_point (map Fin (repeat (1 / INR m) m)).
Proof.
  intros Hm. assert (0 < INR m) by (apply lt_0_INR; lia). split.
  - apply Forall_forall. intros c Hc. apply in_map_iff in Hc as (r & <- & Hr).
    apply repeat_spec in Hr. subst r. simpl. split; [exact I|].
    apply Rlt_le, Rdiv_lt_0_compat; lra.
  - rewrite np_sum_Fin, rsum_repeat. f_equal. field. lra.
Qed.

(** ** The loops on finite iterates *)

Lemma map2_Fin (f : f64 -> f64 -> f64) (f' : R -> R -> R) (l l' : list R) :
  (forall a b, f (Fin a) (Fin b) = Fin (f' a b)) ->
  map2 f (map Fin l) (map Fin l') = map Fin (map2 f' l l').
Proof.
  intros Hf. revert l'. induction l as [|a l IH]; intros [|b l']; simpl; auto.
  now rewrite Hf, IH.
Qed.

Lemma map_Fin_nil (l : list R) : l <> [] -> map Fin l <> [].
Proof. destruct l; [contradiction | discriminate]. Qed.

Lemma length_nonnil {A : Type} (l : list A) : length l <> 0%nat -> l <> [].
Proof. destruct l; simpl; [contradiction | discriminate]. Qed.

Lemma map_Fin_fun (f : f64 -> f64) (f' : R -> R) (l : list R) :
  (forall a, f (Fin a) = Fin (f' a)) -> map f (map Fin l) = map Fin (map f' l).
Proof. intros Hf. rewrite !map_map. apply map_ext. exact Hf. Qed.

(** From a finite iterate and with a finite step size, every step of [pgd]
    succeeds and writes a point of the simplex. *)
Lemma pgd_loop_simplex (A : matrix) (b : vec) (a : R) :
  Forall (Forall finite) A -> Forall finite b -> ncols A <> 0%nat ->
  forall steps r, length r = ncols A ->
    exists rest, pgd_loop A b (Fin a) steps (map Fin r) = Ok rest /\
                 length rest = steps /\ Forall simplex_point rest.
Proof.
  intros HA Hb Hm. induction steps as [|k IH]; intros r Hr.
  - exists []. repeat split. constructor.
  - destruct (subgrad_finite A b (map Fin r)) as (g & Hg & Hglen); auto.
    { apply Forall_finite_Fin. }
    { apply map_Fin_nil, length_nonnil. lia. }
    cbn [pgd_loop]. rewrite Hg. cbn [bind].
    rewrite (map_Fin_fun (fmul (Fin a)) (Rmult a)) by reflexivity.
    rewrite (map2_Fin fsub (fun x d => x + - d)) by reflexivity.
    set (y := map2 _ r _).
    assert (Hy : length y = ncols A).
    { unfold y. rewrite length_map2, length_map. lia. }
    destruct (project_on_simplex y) as (w & Hw & Hwlen & Hsw).
    { apply length_nonnil. lia. }
    rewrite Hw. cbn [bind].
    destruct (IH w) as (rest & Hrest & Hlen & Hall); [lia|].
    rewrite Hrest. cbn [bind].
    exists (map Fin w :: rest). split; [reflexivity|]. split; [simpl; lia|].
    now constructor.
Qed.

Lemma rsum_pos (l : list R) : l <> [] -> Forall (fun c => 0 < c) l -> 0 < rsum l.
Proof.
  intros Hne H. induction H as [|a l Ha Hl IH]; [contradiction|].
  destruct l as [|c l]; simpl in *; [lra|].
  assert (0 < c + rsum l) by (apply IH; discriminate). lra.
Qed.

Lemma rsum_map_div (s : R) (l : list R) : rsum (map (fun y => y / s) l) = rsum l / s.
Proof.
  induction l as [|a l IH]; simpl; [unfold Rdiv; lra|].
  rewrite IH. unfold Rdiv. lra.
Qed.

Lemma positive_map2 (f : R -> R -> R) (l l' : list R) :
  (forall x y, 0 < x -> 0 < f x y) ->
  Forall (fun c => 0 < c) l -> Forall (fun c => 0 < c) (map2 f l l').
Proof.
  intros Hf Hl. revert l'. induction Hl as [|a l Ha Hl IH]; intros [|b l']; simpl;
    constructor; auto.
Qed.

Lemma positive_simplex_point (r : list R) :
  Forall (fun c => 0 < c) r -> rsum r = 1 -> simplex_point (map Fin r).
Proof.
  intros Hpos Hsum. split.
  - apply Forall_forall. intros c Hc. apply in_map_iff in Hc as (x & <- & Hx).
    rewrite Forall_forall in Hpos. simpl. split; [exact I | apply Rlt_le; auto].
  - now rewrite np_sum_Fin, Hsum.
Qed.

(** One [mda] update of a finite, strictly positive iterate with a finite
    step size and a finite subgradient of the same length. *)
Lemma mda_update_finite (a : R) (g r : list R) :
  r <> [] -> length g = length r -> Forall (fun c => 0 < c) r ->
  exists r', mda_update (Fin a) (map Fin g) (map Fin r) = map Fin r' /\
             length r' = length r /\ Forall (fun c => 0 < c) r' /\ rsum r' = 1.
Proof.
  intros Hne Hlen Hpos. unfold mda_update.
  rewrite (map_Fin_fun _ (fun gj => exp (- a * gj))) by reflexivity.
  rewrite (map2_Fin fmul Rmult) by reflexivity.
  set (y := map2 Rmult r _).
  assert (Hy : Forall (fun c => 0 < c) y).
  { unfold y.
    assert (E : forall l l', map2 Rmult l (map (fun gj => exp (- a * gj)) l') =
                             map2 (fun x gj => x * exp (- a * gj)) l l').
    { induction l as [|x l IH]; intros [|gj l']; simpl; auto. now rewrite IH. }
    rewrite E. apply positive_map2; [|exact Hpos].
    intros x gj Hx. apply Rmult_lt_0_compat; [exact Hx | apply exp_pos]. }
  assert (Hylen : length y = length r).
  { unfold y. rewrite length_map2, length_map. lia. }
  assert (Hs : 0 < rsum y).
  { apply rsum_pos; [|exact Hy]. apply length_nonnil. rewrite Hylen.
    destruct r; [contradiction | discriminate]. }
  exists (map (fun c => c / rsum y) y). unfold mda_normalise.
  rewrite np_sum_Fin. split; [|split; [|split]].
  - apply map_Fin_fun. intros c. apply fdiv_Fin. lra.
  - now rewrite length_map.
  - apply Forall_forall. intros c Hc. apply in_map_iff in Hc as (d & <- & Hd).
    rewrite Forall_forall in Hy. apply Rdiv_lt_0_compat; auto.
  - rewrite rsum_map_div. field. lra.
Qed.

(** From a finite, strictly positive iterate and with a finite step size,
    every step of [mda] writes a point of the simplex. *)
Lemma mda_loop_simplex (A : matrix) (b : vec) (a : R) :
  Forall (Forall finite) A -> Forall finite b -> ncols A <> 0%nat ->
  forall steps r, length r = ncols A -> Forall (fun c => 0 < c) r ->
    exists rest, mda_loop A b (Fin a) steps (map Fin r) = Ok rest /\
                 length rest = steps /\ Forall simplex_point rest.
Proof.
  intros HA Hb Hm. induction steps as [|k IH]; intros r Hr Hpos.
  - exists []. repeat split. constructor.
  - destruct (subgrad_finite A b (map Fin r)) as (g & Hg & Hglen); auto.
    { apply Forall_finite_Fin. }
    { apply map_Fin_nil, length_nonnil. lia. }
    cbn [mda_loop]. rewrite Hg. cbn [bind].
    destruct (mda_update_finite a g r) as (r' & Hu & Hlen' & Hpos' & Hsum').
    { apply length_nonnil. lia. } { lia. } { exact Hpos. }
    rewrite Hu.
    destruct (IH r') as (rest & Hrest & Hlen & Hall); [lia | exact Hpos' |].
    rewrite Hrest. cbn [bind].
    exists (map Fin r' :: rest). split; [reflexivity|]. split; [simpl; lia|].
    constructor; [now apply positive_simplex_point | exact Hall].
Qed.

(** ** Schedules *)

Lemma int_truediv_ok (a b : Z) :
  b <> 0%Z -> int_truediv a b = Ok (Fin (IZR a / IZR b)).
Proof. intros H. unfold int_truediv. now destruct (Z.eqb_spec b 0). Qed.

Lemma fsqrt_Fin (x : R) : 0 <= x -> fsqrt (Fin x) = Fin (sqrt x).
Proof. intros H. simpl. now rewrite Rltb_false. Qed.

Lemma flog_Fin (x : R) : 0 < x -> flog (Fin x) = Fin (ln x).
Proof. intros H. simpl. rewrite Rltb_false by lra. rewrite Reqb_false by lra. reflexivity. Qed.

Lemma inv_horizon_pos (c : Z) (T : Z) : (0 < c)%Z -> (1 <= T)%Z -> 0 < IZR c / IZR T.
Proof.
  intros Hc HT. apply Rdiv_lt_0_compat; apply IZR_lt; lia.
Qed.

(** [round] returns the integer within one half of its argument. *)
Lemma round_half_even_near (r : R) (z : Z) :
  IZR z - 1 / 2 < r < IZR z + 1 / 2 -> round_half_even r = z.
Proof.
  intros [Hlo Hhi]. unfold round_half_even, Int_part.
  destruct (Rle_lt_dec (IZR z) r) as [Hz|Hz].
  - assert (E : (z + 1)%Z = up r).
    { apply up_tech; [exact Hz | rewrite plus_IZR; lra]. }
    rewrite <- E. replace (z + 1 - 1)%Z with z by lia.
    rewrite Rltb_true by lra. reflexivity.
  - assert (E : (z - 1 + 1)%Z = up r).
    { apply up_tech; [rewrite minus_IZR; lra|].
      replace (z - 1 + 1)%Z with z by lia. exact Hz. }
    rewrite <- E. replace (z - 1 + 1 - 1)%Z with (z - 1)%Z by lia.
    rewrite minus_IZR.
    rewrite Rltb_false by lra. rewrite Rltb_true by lra. f_equal. lia.
Qed.

Lemma pgd_schedule_fixed (eigvals : matrix -> vec) (A : matrix) (L : R) (T : Z) :
  pgd_L eigvals A = Ok (Fin L) -> L <> 0 -> (1 <= T)%Z ->
  pgd_schedule eigvals A None (Some T) = Ok (T, Fin (1 / L * sqrt (1 / IZR T))).
Proof.
  intros HL HL0 HT. unfold pgd_schedule. rewrite HL. cbn [bind].
  rewrite int_truediv_ok by lia. cbn [bind].
  rewrite fdiv_Fin by exact HL0.
  rewrite fsqrt_Fin by (apply Rlt_le, inv_horizon_pos; lia).
  reflexivity.
Qed.

Lemma mda_schedule_fixed (A : matrix) (m : nat) (L : R) (T : Z) :
  mda_L A m = Ok (Fin L) -> L <> 0 -> (1 <= m)%nat -> (1 <= T)%Z ->
  mda_schedule A m None (Some T) =
  Ok (T, Fin (sqrt (ln (INR m)) / L * sqrt (2 / IZR T))).
Proof.
  intros HL HL0 Hm HT. unfold mda_schedule. rewrite HL. cbn [bind].
  assert (1 <= INR m) by (change 1 with (INR 1); apply le_INR; lia).
  unfold of_nat. rewrite flog_Fin by lra.
  rewrite fsqrt_Fin.
  2:{ rewrite <- ln_1. destruct (Req_dec_T (INR m) 1) as [->|Hne]; [lra|].
      apply Rlt_le, ln_increasing; lra. }
  rewrite int_truediv_ok by lia. cbn [bind].
  rewrite fdiv_Fin by exact HL0.
  rewrite fsqrt_Fin by (apply Rlt_le, inv_horizon_pos; lia).
  reflexivity.
Qed.

(** ** Runs with a fixed horizon *)

Lemma pgd_fixed_simplex (eigvals : matrix -> vec) (A : matrix) (b x : vec) (L : R) (T : Z) :
  valid_instance A b x -> (1 <= T)%Z ->
  pgd_L eigvals A = Ok (Fin L) -> L <> 0 ->
  exists traj, pgd eigvals A b x None (Some T) = Ok traj /\
               length traj = Z.to_nat T /\ Forall simplex_point traj.
Proof.
  intros Hv HT HL HL0.
  destruct (valid_instance_finite _ _ _ Hv) as (HA & Hb & Hcols).
  destruct Hv as (_ & Hm & _).
  unfold pgd. rewrite (pgd_schedule_fixed eigvals A L T) by assumption. cbn [bind].
  rewrite first_iterate_uniform by lia. cbn [bind].
  destruct (pgd_loop_simplex A b (1 / L * sqrt (1 / IZR T)) HA Hb)
    with (steps := Z.to_nat (T - 1)) (r := repeat (1 / INR (length x)) (length x))
    as (rest & Hrest & Hlen & Hall).
  { lia. } { rewrite repeat_length. lia. }
  rewrite Hrest. cbn [bind]. eexists. split; [reflexivity|]. split.
  - simpl. lia.
  - constructor; [now apply uniform_simplex_point | exact Hall].
Qed.

Lemma mda_fixed_simplex (A : matrix) (b x : vec) (L : R) (T : Z) :
  valid_instance A b x -> (1 <= T)%Z ->
  mda_L A (length x) = Ok (Fin L) -> L <> 0 ->
  exists traj, mda A b x None (Some T) = Ok traj /\
               length traj = Z.to_nat T /\ Forall simplex_point traj.
Proof.
  intros Hv HT HL HL0.
  destruct (valid_instance_finite _ _ _ Hv) as (HA & Hb & Hcols).
  destruct Hv as (_ & Hm & _).
  unfold mda. rewrite (mda_schedule_fixed A (length x) L T) by assumption. cbn [bind].
  rewrite first_iterate_uniform by lia. cbn [bind].
  destruct (mda_loop_simplex A b (sqrt (ln (INR (length x))) / L * sqrt (2 / IZR T)) HA Hb)
    with (steps := Z.to_nat (T - 1)) (r := repeat (1 / INR (length x)) (length x))
    as (rest & Hrest & Hlen & Hall).
  { lia. } { rewrite repeat_length. lia. }
  { apply Forall_forall. intros c Hc. apply repeat_spec in Hc. subst c.
    apply Rdiv_lt_0_compat; [lra | apply lt_0_INR; lia]. }
  rewrite Hrest. cbn [bind]. eexists. split; [reflexivity|]. split.
  - simpl. lia.
  - constructor; [now apply uniform_simplex_point | exact Hall].
Qed.

(** ** Whatever [pgd] returns *)

Lemma first_iterate_value (m : nat) (T : Z) (x0 : vec) :
  first_iterate m T = Ok x0 ->
  (1 <= T)%Z /\ x0 = map Fin (repeat (1 / INR m) m).
Proof.
  unfold first_iterate. intros H.
  destruct (Z.ltb_spec T 0); [discriminate|].
  destruct (Z.eqb_spec T 0); [discriminate|].
  injection H as <-. split; [lia|].
  destruct m as [|m]; [reflexivity|]. now apply uniform_values.
Qed.

Lemma pgd_loop_result (A : matrix) (b : vec) (alpha : f64) :
  forall steps xi rest,
    pgd_loop A b alpha steps xi = Ok rest ->
    length rest = steps /\ Forall simplex_point rest.
Proof.
  induction steps as [|k IH]; intros xi rest H.
  - injection H as <-. split; [reflexivity | constructor].
  - cbn [pgd_loop] in H.
    destruct (subgrad A b xi) as [g|]; [|discriminate]. cbn [bind] in H.
    destruct (project_onto_simplex (map2 fsub xi (map (fmul alpha) g))) as [xn|] eqn:Ep;
      [|discriminate].
    cbn [bind] in H.
    destruct (pgd_loop A b alpha k xn) as [rest'|] eqn:El; [|discriminate].
    cbn [bind] in H. injection H as <-.
    apply IH in El as [Hlen Hall]. apply project_result_simplex in Ep as [Hs _].
    split; [simpl; lia | now constructor].
Qed.

(** With a fixed horizon, a trajectory returned by [pgd] has that many
    iterates and all of them are points of the simplex. *)
Lemma pgd_result_simplex
  (eigvals : matrix -> vec) (A : matrix) (b x : vec) (T : Z) (traj : list vec) :
  (1 <= length x)%nat ->
  pgd eigvals A b x None (Some T) = Ok traj ->
  length traj = Z.to_nat T /\ Forall simplex_point traj.
Proof.
  intros Hm H. unfold pgd, pgd_schedule in H.
  destruct (pgd_L eigvals A) as [L|]; [|discriminate]. cbn [bind] in H.
  destruct (int_truediv 1 T) as [q|]; [|discriminate]. cbn [bind] in H.
  destruct (first_iterate (length x) T) as [x0|] eqn:E0; [|discriminate].
  cbn [bind] in H.
  destruct (pgd_loop A b _ (Z.to_nat (T - 1)) x0) as [rest|] eqn:El; [|discriminate].
  cbn [bind] in H. injection H as <-.
  apply first_iterate_value in E0 as [HT ->].
  apply pgd_loop_result in El as [Hlen Hall]. split.
  - simpl. lia.
  - constructor; [now apply uniform_simplex_point | exact Hall].
Qed.

(** ** The Lipschitz proxies on a well-formed instance *)

Lemma pgd_L_Fin (eigvals : matrix -> vec) (A : matrix) (lam : R) :
  getitem (eigvals (matmul (transpose A) A)) 0 = Ok (Fin lam) -> 0 <= lam ->
  pgd_L eigvals A = Ok (Fin (sqrt lam)).
Proof.
  intros H Hlam. unfold pgd_L. rewrite H. cbn [bind]. now rewrite fsqrt_Fin.
Qed.

Lemma fmax_finite (a b : f64) :
  finite a -> finite b ->
  finite (fmax a b) /\ val a <= val (fmax a b) /\ val b <= val (fmax a b).
Proof.
  destruct a as [x| | |], b as [y| | |]; simpl; try tauto. intros _ _.
  unfold Rltb. destruct (Rlt_dec x y); simpl; repeat split; lra.
Qed.

Lemma fold_fmax_finite (t : vec) :
  forall a, finite a -> Forall finite t ->
    finite (fold_left fmax t a) /\ val a <= val (fold_left fmax t a) /\
    Forall (fun c => val c <= val (fold_left fmax t a)) t.
Proof.
  induction t as [|b t IH]; intros a Ha Ht.
  - simpl. repeat split; [exact Ha | lra | constructor].
  - inversion Ht as [|? ? Hb Ht']; subst.
    destruct (fmax_finite a b Ha Hb) as (Hf & H1 & H2).
    destruct (IH (fmax a b) Hf Ht') as (Hf' & H3 & H4).
    simpl. repeat split; [exact Hf' | lra |].
    constructor; [lra | exact H4].
Qed.

Lemma rsum_abs_bound (r : list R) :
  0 <= rsum (map Rabs r) /\ Forall (fun c => Rabs c <= rsum (map Rabs r)) r.
Proof.
  induction r as [|a r [IH1 IH2]]; simpl.
  - split; [lra | constructor].
  - pose proof (Rabs_pos a). split; [lra|]. constructor; [lra|].
    eapply Forall_impl; [|exact IH2]. intros c Hc. simpl in Hc. lra.
Qed.

Lemma abs_sum_finite (col : vec) :
  Forall finite col ->
  finite (np_sum (map fabs col)) /\ 0 <= val (np_sum (map fabs col)) /\
  forall a, In (Fin a) col -> Rabs a <= val (np_sum (map fabs col)).
Proof.
  intros H. rewrite (finite_repr col H).
  rewrite (map_Fin_fun fabs Rabs) by reflexivity. rewrite np_sum_Fin. simpl.
  destruct (rsum_abs_bound (map val col)) as [H1 H2].
  split; [exact I|]. split; [exact H1|]. intros a Ha.
  rewrite Forall_forall in H2. apply H2.
  apply in_map_iff in Ha as (c & Hc & Hin). injection Hc as <-. exact Hin.
Qed.

(** On a well-formed instance the proxy of [mda] is a finite nonnegative
    number, positive as soon as [A] has a non-zero entry. *)
Lemma mda_L_valid (A : matrix) (b x : vec) :
  valid_instance A b x ->
  exists L, mda_L A (length x) = Ok (Fin L) /\ 0 <= L /\
            ((exists row a, In row A /\ In (Fin a) row /\ a <> 0) -> 0 < L).
Proof.
  intros Hv. destruct (valid_instance_finite _ _ _ Hv) as (HA & Hb & Hcols).
  destruct Hv as (_ & Hm & Hrows & _).
  unfold mda_L. rewrite int_truediv_ok by lia. cbn [bind].
  set (sums := map (fun col => np_sum (map fabs col)) (transpose A)).
  assert (Hsums : Forall (fun c => finite c /\ 0 <= val c) sums).
  { unfold sums. apply Forall_forall. intros c Hc.
    apply in_map_iff in Hc as (col & <- & Hcol).
    pose proof (finite_transpose A HA) as Ht. rewrite Forall_forall in Ht.
    destruct (abs_sum_finite col (Ht col Hcol)) as (H1 & H2 & _). now split. }
  destruct sums as [|s0 rest] eqn:Es.
  { exfalso. apply (f_equal (@length f64)) in Es. unfold sums, transpose in Es.
    rewrite !length_map, length_seq in Es. simpl in Es. lia. }
  inversion Hsums as [|? ? [Hs0 Hs0pos] Hrest]; subst.
  destruct (fold_fmax_finite rest s0 Hs0) as (Hf & Hge0 & Hge).
  { eapply Forall_impl; [|exact Hrest]. now intros c [H _]. }
  cbn [np_max bind]. rewrite (finite_Fin _ Hf).
  exists (1 / INR (length x) * val (fold_left fmax rest s0)).
  assert (Hmpos : 0 < 1 / INR (length x)).
  { apply Rdiv_lt_0_compat; [lra | apply lt_0_INR; lia]. }
  split; [|split].
  - simpl. do 2 f_equal. rewrite INR_IZR_INZ. reflexivity.
  - apply Rmult_le_pos; lra.
  - intros (row & a & Hrow & Ha & Hne).
    apply Rmult_lt_0_compat; [exact Hmpos|].
    apply (In_nth _ _ (Fin 0)) in Ha as (j & Hj & Ej).
    rewrite Forall_forall in Hrows. destruct (Hrows row Hrow) as [Hlen _].
    assert (Hin : In (np_sum (map fabs (column j A))) (s0 :: rest)).
    { rewrite <- Es. unfold sums.
      apply (in_map (fun col => np_sum (map fabs col))). unfold transpose.
      apply (in_map (fun i => column i A)), in_seq. lia. }
    assert (Hpos : 0 < val (np_sum (map fabs (column j A)))).
    { pose proof (finite_transpose A HA) as Ht. rewrite Forall_forall in Ht.
      destruct (abs_sum_finite (column j A)) as (_ & _ & H3).
      { apply Ht. unfold transpose.
        apply (in_map (fun i => column i A)), in_seq. lia. }
      specialize (H3 a). pose proof (Rabs_pos_lt a Hne).
      assert (Rabs a <= val (np_sum (map fabs (column j A)))); [|lra].
      apply H3. unfold column. rewrite <- Ej. now apply in_map with (f := fun r => nth j r (Fin 0)). }
    destruct Hin as [E|Hin]; [rewrite <- E in Hpos; lra|].
    rewrite Forall_forall in Hge. specialize (Hge _ Hin). simpl in Hge. lra.
Qed.

(** ** A separated largest coordinate *)

Lemma below_not_qualifies (u : list R) (k : nat) :
  (S k < length u)%nat -> nth (S k) u 0 <= threshold u k -> ~ qualifies u (S k).
Proof.
  unfold qualifies, threshold. intros Hk Hle. apply Rle_not_lt.
  rewrite (rsum_firstn_S u (S k)) by exact Hk.
  apply div_bound in Hle; [|apply INR_S_pos].
  apply div_bound; [apply INR_S_pos|].
  rewrite (S_INR (S k)). lra.
Qed.

(** In a descending vector the positions that fail the test are closed
    upwards. *)
Lemma not_qualifies_upward (u : list R) (k : nat) :
  descending u -> (S (S k) < length u)%nat ->
  ~ qualifies u (S k) -> ~ qualifies u (S (S k)).
Proof.
  intros Hd Hk Hq. apply below_not_qualifies; [exact Hk|].
  unfold qualifies in Hq. apply Rnot_lt_le in Hq.
  assert (nth (S (S k)) u 0 <= nth (S k) u 0) by (apply Hd; lia). lra.
Qed.

Lemma only_first_qualifies (u : list R) :
  descending u -> (1 < length u)%nat -> nth 1 u 0 + 1 <= nth 0 u 0 ->
  forall k, (S k < length u)%nat -> ~ qualifies u (S k).
Proof.
  intros Hd Hlen Hgap. induction k as [|k IH]; intros Hk.
  - apply below_not_qualifies; [exact Hk|].
    unfold threshold. destruct u as [|a u]; [simpl in Hk; lia|].
    simpl. simpl in Hgap. lra.
  - apply not_qualifies_upward; [exact Hd | exact Hk | apply IH; lia].
Qed.

(** The sorted vector of a vector whose coordinate [k] exceeds all others by
    at least one: that coordinate first, the others at least one below. *)
Lemma separated_sorted (r : list R) (k : nat) :
  (k < length r)%nat ->
  (forall j, (j < length r)%nat -> j <> k -> nth j r 0 + 1 <= nth k r 0) ->
  exists u', rev (Rsort r) = nth k r 0 :: u' /\
             Forall (fun c => c + 1 <= nth k r 0) u'.
Proof.
  intros Hk Hgap. set (M := nth k r 0).
  destruct (nth_split r 0 Hk) as (r1 & r2 & Er & Hr1). fold M in Er.
  assert (Hothers : Forall (fun c => c + 1 <= M) (r1 ++ r2)).
  { apply Forall_forall. intros c Hc. apply in_app_or in Hc as [Hc|Hc].
    - apply (In_nth _ _ 0) in Hc as (j & Hj & <-).
      replace (nth j r1 0) with (nth j r 0).
      + apply Hgap; [rewrite Er, length_app; lia | lia].
      + rewrite Er, app_nth1 by exact Hj. reflexivity.
    - apply (In_nth _ _ 0) in Hc as (j & Hj & <-).
      replace (nth j r2 0) with (nth (S (length r1) + j) r 0).
      + apply Hgap; [rewrite Er, length_app; simpl; lia | lia].
      + rewrite Er, app_nth2 by lia.
        replace (S (length r1) + j - length r1)%nat with (S j) by lia. reflexivity. }
  assert (Hperm : Permutation (M :: r1 ++ r2) (rev (Rsort r))).
  { eapply Permutation_trans; [|apply perm_rev_sort].
    pose proof (Permutation_middle r1 r2 M) as HP. now rewrite <- Er in HP. }
  pose proof (descending_rev_sort r) as Hd.
  destruct (rev (Rsort r)) as [|a u'] eqn:Eu.
  { apply Permutation_sym, Permutation_nil in Hperm. discriminate. }
  assert (Ha : a = M).
  { assert (HM : In M (a :: u')) by (eapply Permutation_in; [exact Hperm | now left]).
    assert (Hge : M <= a).
    { apply (In_nth _ _ 0) in HM as (i & Hi & <-).
      apply (Hd 0%nat i). lia. }
    assert (Hin : In a (M :: r1 ++ r2)).
    { eapply Permutation_in; [apply Permutation_sym, Hperm | now left]. }
    destruct Hin as [E|Hin]; [now symmetry|].
    rewrite Forall_forall in Hothers. specialize (Hothers a Hin). lra. }
  subst a. exists u'. split; [reflexivity|].
  apply Permutation_cons_inv in Hperm.
  eapply Permutation_Forall; [exact Hperm | exact Hothers].
Qed.

Lemma map_indexed (l : list R) (f : R -> f64) (g : nat -> f64) :
  forall s, (forall i, (i < length l)%nat -> f (nth i l 0) = g (s + i)%nat) ->
            map f l = map g (seq s (length l)).
Proof.
  induction l as [|a l IH]; intros s H; [reflexivity|].
  simpl. f_equal.
  - specialize (H 0%nat). simpl in H. rewrite Nat.add_0_r in H. apply H. lia.
  - apply IH. intros i Hi. specialize (H (S i)). simpl in H.
    rewrite Nat.add_succ_r in H. apply H. lia.
Qed.

(** ** A zero normaliser in [mda] *)

Lemma subgrad_total (A : matrix) (b x : vec) :
  x <> [] -> exists g, subgrad A b x = Ok g /\ length g = ncols A.
Proof.
  intros Hne. unfold subgrad. rewrite int_truediv_ok.
  - cbn [bind]. eexists. split; [reflexivity|].
    unfold matvec, transpose. now rewrite !length_map, length_seq.
  - destruct x; [contradiction | simpl; lia].
Qed.

Lemma np_sum_nans (k : nat) : np_sum (repeat NaN (S k)) = NaN.
Proof. reflexivity. Qed.

Lemma mda_update_nans (alpha : f64) (g : vec) (k : nat) :
  length g = S k -> mda_update alpha g (repeat NaN (S k)) = repeat NaN (S k).
Proof.
  intros Hg. unfold mda_update.
  assert (E : forall n (l : vec), length l = n ->
                map2 fmul (repeat NaN n) l = repeat NaN n).
  { induction n as [|n IH]; intros [|c l] Hl; simpl in *; try lia; auto.
    rewrite IH by lia. reflexivity. }
  rewrite E by now rewrite length_map.
  unfold mda_normalise. rewrite np_sum_nans.
  generalize (S k). intros n. induction n as [|n IH]; [reflexivity|].
  simpl. now rewrite IH.
Qed.

(** Once an iterate is [nan] in every coordinate, so is every later one, and
    the loop runs to its end. *)
Lemma mda_loop_nans (A : matrix) (b : vec) (alpha : f64) (k : nat) :
  ncols A = S k ->
  forall steps,
    mda_loop A b alpha steps (repeat NaN (S k)) = Ok (repeat (repeat NaN (S k)) steps).
Proof.
  intros Hc. induction steps as [|n IH]; [reflexivity|].
  destruct (subgrad_total A b (repeat NaN (S k))) as (g & Hg & Hlen); [discriminate|].
  cbn [mda_loop]. rewrite Hg. cbn [bind].
  rewrite mda_update_nans by congruence. rewrite IH. reflexivity.
Qed.

(** ** The values of [objective] and [subgrad] on finite operands *)

Lemma dot_Fin (row x : list R) :
  dot (map Fin row) (map Fin x) = Fin (rsum (map2 Rmult row x)).
Proof. unfold dot. rewrite (map2_Fin fmul Rmult) by reflexivity. apply np_sum_Fin. Qed.

Lemma matvec_Fin (A : list (list R)) (x : list R) :
  matvec (map (map Fin) A) (map Fin x) =
  map Fin (map (fun row => rsum (map2 Rmult row x)) A).
Proof. unfold matvec. rewrite !map_map. apply map_ext. intros row. apply dot_Fin. Qed.

Lemma map_map2_map {A B C D E : Type}
  (h : D -> E) (k : B -> C -> D) (g : A -> B) (l : list A) (l' : list C) :
  map h (map2 k (map g l) l') = map2 (fun a c => h (k (g a) c)) l l'.
Proof.
  revert l'. induction l as [|a l IH]; intros [|c l']; simpl; auto. now rewrite IH.
Qed.

Lemma map2_map2_same {A B C D E : Type}
  (k : C -> D -> E) (f : A -> C) (g : A -> B -> D) (l : list A) (l' : list B) :
  map2 k (map f l) (map2 g l l') = map2 (fun a c => k (f a) (g a c)) l l'.
Proof.
  revert l'. induction l as [|a l IH]; intros [|c l']; simpl; auto. now rewrite IH.
Qed.

Lemma inv_len_Fin (x : list R) :
  x <> [] ->
  int_truediv 1 (Z.of_nat (length (map Fin x))) = Ok (Fin (1 / INR (length x))).
Proof.
  intros Hne. rewrite length_map, int_truediv_ok.
  - now rewrite <- INR_IZR_INZ.
  - destruct x; [contradiction | simpl; lia].
Qed.

(** On finite operands [objective] is the sum of the absolute residuals
    divided by the length of [x]. *)
Lemma objective_value (A : list (list R)) (b x : list R) :
  x <> [] ->
  objective (map (map Fin) A) (map Fin b) (map Fin x) =
  Ok (Fin (1 / INR (length x) *
           rsum (map2 (fun row bi => Rabs (rsum (map2 Rmult row x) - bi)) A b))).
Proof.
  intros Hne. unfold objective. rewrite inv_len_Fin by exact Hne. cbn [bind].
  rewrite matvec_Fin, (map2_Fin fsub (fun a c => a - c)) by reflexivity.
  unfold norm1_column. rewrite (map_Fin_fun fabs Rabs) by reflexivity.
  rewrite np_sum_Fin, map_map2_map. reflexivity.
Qed.

(** Hence it is the mean absolute residual scaled by the number of rows over
    the number of columns. *)
Lemma objective_scaled_mean (A : list (list R)) (b x : list R) :
  x <> [] -> A <> [] ->
  objective (map (map Fin) A) (map Fin b) (map Fin x) =
  Ok (Fin (INR (length A) / INR (length x) * mean_abs_residual A b x)).
Proof.
  intros Hx HA. rewrite objective_value by exact Hx. do 2 f_equal.
  unfold mean_abs_residual. field. split; apply not_0_INR.
  - destruct A; [contradiction | discriminate].
  - destruct x; [contradiction | discriminate].
Qed.

Lemma column_Fin (A : list (list R)) (j : nat) :
  column j (map (map Fin) A) = map Fin (map (fun row => nth j row 0) A).
Proof.
  unfold column. rewrite !map_map. apply map_ext. intros row.
  change (Fin 0) with (Fin 0%R). apply (map_nth Fin).
Qed.

(** On finite operands coordinate [j] of [subgrad] is the sum over the rows
    of [A[i,j] * sign(a_i . x - b_i)] divided by the length of [x]. *)
Lemma subgrad_value (A : list (list R)) (b x : list R) :
  x <> [] ->
  subgrad (map (map Fin) A) (map Fin b) (map Fin x) =
  Ok (map (fun j =>
             Fin (1 / INR (length x) *
                  rsum (map2 (fun row bi =>
                                nth j row 0 * Rsign (rsum (map2 Rmult row x) - bi)) A b)))
          (seq 0 (ncols (map (map Fin) A)))).
Proof.
  intros Hne. unfold subgrad. rewrite inv_len_Fin by exact Hne. cbn [bind].
  rewrite matvec_Fin, (map2_Fin fsub (fun a c => a - c)) by reflexivity.
  rewrite (map_Fin_fun fsign Rsign) by reflexivity.
  f_equal. unfold matvec at 1. unfold transpose. rewrite !map_map.
  apply map_ext. intros j. rewrite column_Fin, <- (map_map Rsign Fin), dot_Fin.
  cbn [fmul]. do 2 f_equal.
  rewrite map_map2_map, map2_map2_same. reflexivity.
Qed.

(** ** Evaluating the embedding on concrete inputs *)

Ltac rdecide :=
  repeat match goal with
  | |- context [Rltb ?a ?b] =>
      first [ rewrite (Rltb_true a b) by lra | rewrite (Rltb_false a b) by lra ]
  | |- context [Reqb ?a ?b] =>
      first [ rewrite (Reqb_true a b) by lra | rewrite (Reqb_false a b) by lra ]
  end.

Ltac fl_eval :=
  repeat (progress
    (cbn -[Rltb Reqb Rplus Rminus Rmult Rdiv Ropp Rinv IZR Rabs exp sqrt ln Int_part];
     rdecide)).

Ltac fl_close :=
  repeat match goal with
  | |- Ok _ = Ok _ => f_equal
  | |- (_, _) = (_, _) => f_equal
  | |- _ :: _ = _ :: _ => f_equal
  | |- Fin _ = Fin _ => f_equal
  end; try reflexivity; try lra.

Ltac unfold_source :=
  unfold objective, subgrad, project_onto_simplex, sorted_desc, np_sort, cssv_of,
    threshold_mask, cumsum, arange1, nonzero, of_nat, of_Z, int_truediv,
    norm1_column, matvec, transpose, column, ncols, dot, np_sum, getitem.

(** [moderate v] for a concrete [v]. *)
Ltac moderate_solve :=
  split;
  [ simpl; lia
  | repeat (apply Forall_cons; [apply Rabs_le; simpl; lra|]); apply Forall_nil ].

(** A bound [2^k] on every entry of a concrete vector, or matrix, of small
    entries. *)
Ltac entries_solve :=
  repeat (apply Forall_cons; [apply Rabs_le; simpl; lra|]); apply Forall_nil.

Ltac matrix_entries_solve :=
  repeat (apply Forall_cons; [entries_solve|]); apply Forall_nil.

(** ** Schedules from a target accuracy *)

Lemma pgd_schedule_epsilon (eigvals : matrix -> vec) (A : matrix) (L eps : R) (T : option Z) :
  pgd_L eigvals A = Ok (Fin L) -> 0 < L -> 0 < eps ->
  pgd_schedule eigvals A (Some (Fin eps)) T =
  Ok (round_half_even (Rsqr (1 * L / eps)),
      Fin (1 / L * sqrt (1 / Rsqr (1 * L / eps)))).
Proof.
  intros HpL HL Heps. unfold pgd_schedule. rewrite HpL. cbn [bind fmul].
  assert (Hx : 0 < 1 * L / eps) by (apply Rdiv_lt_0_compat; lra).
  rewrite (fdiv_Fin (1 * L)) by lra. unfold fsqr. cbn [fmul].
  fold (Rsqr (1 * L / eps)).
  assert (HT0 : 0 < Rsqr (1 * L / eps)) by (apply Rmult_lt_0_compat; exact Hx).
  rewrite !fdiv_Fin by lra.
  rewrite fsqrt_Fin by (apply Rlt_le, Rdiv_lt_0_compat; lra).
  reflexivity.
Qed.

Lemma mda_schedule_epsilon (A : matrix) (m : nat) (L eps : R) (T : option Z) :
  mda_L A m = Ok (Fin L) -> 0 < L -> (2 <= m)%nat -> 0 < eps ->
  mda_schedule A m (Some (Fin eps)) T =
  Ok (round_half_even (Rsqr (sqrt (ln (INR m)) * L / eps) * 2 / 1),
      Fin (sqrt (ln (INR m)) / L *
           sqrt (2 * 1 / (Rsqr (sqrt (ln (INR m)) * L / eps) * 2 / 1)))).
Proof.
  intros HL Hpos Hm Heps. unfold mda_schedule. rewrite HL. cbn [bind].
  assert (Hm2 : 2 <= INR m) by (change 2 with (INR 2); apply le_INR; lia).
  assert (Hln : 0 < ln (INR m)).
  { rewrite <- ln_1. apply ln_increasing; lra. }
  set (R := sqrt (ln (INR m))).
  assert (HR : 0 < R) by (apply sqrt_lt_R0, Hln).
  unfold of_nat. rewrite flog_Fin by lra. rewrite fsqrt_Fin by lra. fold R.
  cbn [fmul]. assert (Hx : 0 < R * L / eps).
  { apply Rdiv_lt_0_compat; [apply Rmult_lt_0_compat|]; lra. }
  rewrite (fdiv_Fin (R * L)) by lra. unfold fsqr, of_Z. cbn [fmul].
  fold (Rsqr (R * L / eps)).
  assert (Hsq : 0 < Rsqr (R * L / eps)) by (apply Rmult_lt_0_compat; exact Hx).
  rewrite (fdiv_Fin _ 1) by lra.
  rewrite !fdiv_Fin by lra.
  rewrite fsqrt_Fin by (apply Rlt_le, Rdiv_lt_0_compat; simpl; lra).
  replace (IZR (2 * 1)) with (2 * 1) by (simpl; lra).
  reflexivity.
Qed.

(** Bounds on [ln 2], from [1 + x < exp x] and [exp 1 <= 3]. *)
Lemma exp_half_lt_2 : exp (1 / 2) < 2.
Proof.
  assert (H : exp (1 / 2) * exp (1 / 2) = exp 1).
  { rewrite <- exp_plus. f_equal. lra. }
  pose proof exp_le_3. pose proof (exp_pos (1 / 2)). nra.
Qed.

Lemma exp_three_quarters_gt_2 : 2 < exp (3 / 4).
Proof.
  assert (H1 : 1 + 3 / 32 < exp (3 / 32)) by (apply exp_ineq1; lra).
  assert (H2 : exp (3 / 16) = exp (3 / 32) * exp (3 / 32)).
  { rewrite <- exp_plus. f_equal. lra. }
  assert (H3 : exp (3 / 8) = exp (3 / 16) * exp (3 / 16)).
  { rewrite <- exp_plus. f_equal. lra. }
  assert (H4 : exp (3 / 4) = exp (3 / 8) * exp (3 / 8)).
  { rewrite <- exp_plus. f_equal. lra. }
  assert (G2 : (35 / 32) * (35 / 32) < exp (3 / 16)) by nra.
  assert (G3 : (35 / 32) * (35 / 32) * ((35 / 32) * (35 / 32)) < exp (3 / 8)) by nra.
  nra.
Qed.

Lemma ln2_bounds : 1 / 2 < ln 2 < 3 / 4.
Proof.
  split.
  - rewrite <- (ln_exp (1 / 2)). apply ln_increasing; [apply exp_pos | apply exp_half_lt_2].
  - rewrite <- (ln_exp (3 / 4)). apply ln_increasing; [lra | apply exp_three_quarters_gt_2].
Qed.

Lemma mda_L_ones : mda_L [[Fin 1; Fin 1]; [Fin 1; Fin 1]] 2 = Ok (Fin 1).
Proof.
  unfold mda_L, np_max. unfold_source. fl_eval. rewrite Rabs_R1. rdecide. fl_close.
Qed.

(** [pgd] reads the first eigenvalue returned, not the largest: for
    [A = diag(1, 2)], where [A^T A = diag(1, 4)] has spectral radius [4], the
    proxy is [sqrt 1]. *)
Lemma pgd_L_first_eigenvalue :
  pgd_L diag_eigvals [[Fin 1; Fin 0]; [Fin 0; Fin 2]] = Ok (Fin 1).
Proof.
  unfold pgd_L, matmul, diag_eigvals. unfold_source. fl_eval.
  replace (1 * 1 + (0 * 0 + 0)) with 1 by lra. rdecide. now rewrite sqrt_1.
Qed.

(** ** The threshold test as [project_onto_simplex] evaluates it *)

Lemma length_insert_sorted (a : f64) (v : vec) :
  length (insert_sorted a v) = S (length v).
Proof.
  induction v as [|b t IH]; simpl; [reflexivity|].
  destruct (sort_le a b); simpl; [reflexivity | now rewrite IH].
Qed.

Lemma length_sorted_desc (v : vec) : length (sorted_desc v) = length v.
Proof.
  unfold sorted_desc. rewrite length_rev.
  induction v as [|a v IH]; [reflexivity|].
  change (np_sort (a :: v)) with (insert_sorted a (np_sort v)).
  now rewrite length_insert_sorted, IH.
Qed.

(** ** A rational lower bound of [log 2] *)

Lemma square_up_ge (D N : Z) :
  (0 < D)%Z -> IZR N / IZR D * (IZR N / IZR D) <= IZR (square_up D N) / IZR D.
Proof.
  intros HD. assert (HDr : 0 < IZR D) by (apply IZR_lt; lia).
  assert (H : (N * N <= D * square_up D N)%Z).
  { unfold square_up. pose proof (Z.mul_div_le (N * N + D - 1) D HD).
    pose proof (Z.mod_pos_bound (N * N + D - 1) D HD).
    pose proof (Z.div_mod (N * N + D - 1) D ltac:(lia)). lia. }
  apply IZR_le in H. rewrite !mult_IZR in H.
  apply Rmult_le_reg_r with (IZR D * IZR D); [nra|].
  replace (IZR N / IZR D * (IZR N / IZR D) * (IZR D * IZR D)) with (IZR N * IZR N)
    by (field; lra).
  replace (IZR (square_up D N) / IZR D * (IZR D * IZR D)) with (IZR D * IZR (square_up D N))
    by (field; lra).
  exact H.
Qed.

Lemma square_up_nonneg (D N : Z) : (0 < D)%Z -> (0 <= square_up D N)%Z.
Proof.
  intros HD. unfold square_up. apply Z.div_pos; nia.
Qed.

(** [exp (2^k * y) <= N_k / D] when [exp y <= N_0 / D] and [N_(i+1)] is
    [N_i^2 / D] rounded up. *)
Lemma exp_doubling (D : Z) (k : nat) : forall (y : R) (N : Z),
  (0 < D)%Z -> (0 <= N)%Z -> exp y <= IZR N / IZR D ->
  exp (2 ^ k * y) <= IZR (Nat.iter k (square_up D) N) / IZR D /\
  (0 <= Nat.iter k (square_up D) N)%Z.
Proof.
  induction k as [|k IH]; intros y N HD HN Hy.
  - cbn [Nat.iter pow]. rewrite Rmult_1_l. split; [exact Hy | exact HN].
  - destruct (IH y N HD HN Hy) as [Hk Hpos].
    change (Nat.iter (S k) (square_up D) N)
      with (square_up D (Nat.iter k (square_up D) N)).
    split.
    + replace (2 ^ S k * y) with (2 ^ k * y + 2 ^ k * y) by (simpl; lra).
      rewrite exp_plus.
      apply Rle_trans with (2 := square_up_ge D _ HD).
      pose proof (exp_pos (2 ^ k * y)).
      apply Rmult_le_compat; first [exact Hk | lra].
    + apply square_up_nonneg, HD.
Qed.

(** [a / c < log 2] when [a / c <= 2^k * (p / r)] and squaring an upper bound
    [N / D] of [1 / (1 - p/r)] [k] times, rounding up, stays below [2]. *)
Lemma ln2_above (a c p r D N : Z) (k : nat) :
  (0 < p)%Z -> (p < r)%Z -> (0 < D)%Z -> (0 <= N)%Z -> (0 < c)%Z ->
  (a * r <= 2 ^ Z.of_nat k * p * c)%Z ->
  (D * r <= N * (r - p))%Z ->
  (Nat.iter k (square_up D) N < 2 * D)%Z ->
  IZR a / IZR c < ln 2.
Proof.
  intros Hp Hpr HD HN Hc Hac H0 Hk.
  assert (Hr : 0 < IZR r) by (apply IZR_lt; lia).
  assert (HDr : 0 < IZR D) by (apply IZR_lt; lia).
  assert (Hcr : 0 < IZR c) by (apply IZR_lt; lia).
  assert (Hpr' : IZR p < IZR r) by (apply IZR_lt; lia).
  assert (Hp' : 0 < IZR p) by (apply IZR_lt; lia).
  set (y := IZR p / IZR r).
  assert (Hy : exp y <= IZR N / IZR D).
  { assert (H1 : 1 - y <= exp (- y)).
    { pose proof (exp_ineq1_le (- y)). lra. }
    assert (Hy1 : 0 < 1 - y).
    { unfold y. apply Rmult_lt_reg_r with (IZR r); [lra|].
      replace ((1 - IZR p / IZR r) * IZR r) with (IZR r - IZR p) by (field; lra). lra. }
    assert (E : exp y * exp (- y) = 1) by (rewrite <- exp_plus, Rplus_opp_r; apply exp_0).
    apply IZR_le in H0. rewrite !mult_IZR, minus_IZR in H0.
    assert (H2 : 1 <= IZR N / IZR D * (1 - y)).
    { apply Rmult_le_reg_r with (IZR D * IZR r); [nra|].
      unfold y.
      replace (IZR N / IZR D * (1 - IZR p / IZR r) * (IZR D * IZR r))
        with (IZR N * (IZR r - IZR p)) by (field; lra). lra. }
    pose proof (exp_pos y). pose proof (exp_pos (- y)).
    assert (0 <= IZR N / IZR D).
    { apply Rmult_le_pos; [apply IZR_le; lia | apply Rlt_le, Rinv_0_lt_compat, HDr]. }
    nra. }
  destruct (exp_doubling D k y N HD HN Hy) as [Hexp _].
  assert (Hlt : exp (2 ^ k * y) < 2).
  { apply Rle_lt_trans with (1 := Hexp).
    apply IZR_lt in Hk. rewrite mult_IZR in Hk.
    apply Rmult_lt_reg_r with (IZR D); [lra|].
    replace (IZR (Nat.iter k (square_up D) N) / IZR D * IZR D)
      with (IZR (Nat.iter k (square_up D) N)) by (field; lra). lra. }
  apply Rle_lt_trans with (2 ^ k * y).
  - apply IZR_le in Hac. rewrite !mult_IZR in Hac.
    rewrite <- pow_IZR in Hac. unfold y.
    apply Rmult_le_reg_r with (IZR c * IZR r); [nra|].
    replace (IZR a / IZR c * (IZR c * IZR r)) with (IZR a * IZR r) by (field; lra).
    replace (2 ^ k * (IZR p / IZR r) * (IZR c * IZR r)) with (2 ^ k * IZR p * IZR c)
      by (field; lra).
    exact Hac.
  - rewrite <- (ln_exp (2 ^ k * y)). apply ln_increasing; [apply exp_pos | exact Hlt].
Qed.

(** [log 2] lies above three quarters of the square of
    [8659082332205297 / 2^53]. *)
Lemma ln2_above_tie :
  3 / 4 * (8659082332205297 / 2 ^ 53 * (8659082332205297 / 2 ^ 53)) < ln 2.
Proof.
  replace (3 / 4 * (8659082332205297 / 2 ^ 53 * (8659082332205297 / 2 ^ 53)))
    with (IZR (3 * 8659082332205297 * 8659082332205297) / IZR (2 ^ 108)).
  - apply (ln2_above _ _ (3 * 8659082332205297 * 8659082332205297) (2 ^ 178) (2 ^ 140)
             ((2 ^ 140 * 2 ^ 178) / (2 ^ 178 - 3 * 8659082332205297 * 8659082332205297) + 1)
             70).
    + vm_compute. reflexivity.
    + vm_compute. reflexivity.
    + vm_compute. reflexivity.
    + vm_compute. discriminate.
    + vm_compute. reflexivity.
    + vm_compute. discriminate.
    + vm_compute. discriminate.
    + vm_compute. reflexivity.
  - change (2 ^ 108)%Z with (2 ^ Z.of_nat 108)%Z. rewrite <- pow_IZR.
    rewrite !mult_IZR.
    replace ((2:R) ^ 108) with (4 * (2 ^ 53 * 2 ^ 53)).
    + field.
    + rewrite <- pow_add. change (53 + 53)%nat with 106%nat.
      change 108%nat with (2 + 106)%nat. rewrite (pow_add 2 2 106). simpl (2 ^ 2). lra.
Qed.

(** ** The value of the proxy of [mda] *)

Lemma fold_fmax_attained (l : list R) :
  forall a, exists M,
    fold_left fmax (map Fin l) (Fin a) = Fin M /\ In M (a :: l) /\
    Forall (fun c => c <= M) (a :: l).
Proof.
  induction l as [|c l IH]; intros a.
  - exists a. split; [reflexivity|]. split; [now left|]. constructor; [lra | constructor].
  - cbn [map fold_left].
    assert (E : fmax (Fin a) (Fin c) = Fin (if Rlt_dec a c then c else a)).
    { simpl. unfold Rltb. now destruct (Rlt_dec a c). }
    rewrite E. destruct (IH (if Rlt_dec a c then c else a)) as (M & HM & Hin & Hall).
    exists M. split; [exact HM|].
    inversion Hall as [|? ? Hhd Htl]; subst. split.
    + destruct Hin as [Hin|Hin]; [|now right; right].
      destruct (Rlt_dec a c); [right; left | left]; exact Hin.
    + destruct (Rlt_dec a c); (constructor; [lra | constructor; [lra | exact Htl]]).
Qed.

(** The proxy of [mda] is the largest column sum of absolute values of [A],
    over [m]. *)
Lemma mda_L_value (A : list (list R)) (m : nat) :
  A <> [] -> (1 <= m)%nat -> Forall (fun row => length row = m) A ->
  exists M,
    (exists j, (j < m)%nat /\ M = col_abs_sum A j) /\
    (forall j, (j < m)%nat -> col_abs_sum A j <= M) /\
    mda_L (map (map Fin) A) m = Ok (Fin (1 / INR m * M)).
Proof.
  intros HA Hm Hrows. unfold mda_L. rewrite int_truediv_ok by lia. cbn [bind].
  assert (Hc : ncols (map (map Fin) A) = m).
  { unfold ncols. destruct A as [|row A]; [contradiction|]. simpl.
    rewrite length_map. now inversion Hrows. }
  assert (Es : map (fun col => np_sum (map fabs col)) (transpose (map (map Fin) A)) =
               map Fin (map (col_abs_sum A) (seq 0 m))).
  { unfold transpose. rewrite Hc, !map_map. apply map_ext. intros i.
    rewrite column_Fin, (map_Fin_fun fabs Rabs) by reflexivity.
    unfold col_abs_sum. now rewrite np_sum_Fin, map_map. }
  rewrite Es. destruct m as [|k]; [lia|].
  change (seq 0 (S k)) with (0%nat :: seq 1 k). cbn [map np_max bind].
  destruct (fold_fmax_attained (map (col_abs_sum A) (seq 1 k)) (col_abs_sum A 0))
    as (M & HM & Hin & Hall).
  rewrite HM. exists M. split; [|split].
  - change (col_abs_sum A 0 :: map (col_abs_sum A) (seq 1 k))
      with (map (col_abs_sum A) (seq 0 (S k))) in Hin.
    apply in_map_iff in Hin as (j & Ej & Hj). apply in_seq in Hj.
    exists j. split; [lia | now symmetry].
  - intros j Hj. rewrite Forall_forall in Hall. apply Hall.
    change (col_abs_sum A 0 :: map (col_abs_sum A) (seq 1 k))
      with (map (col_abs_sum A) (seq 0 (S k))).
    apply in_map, in_seq. lia.
  - cbn [fmul]. do 2 f_equal. rewrite INR_IZR_INZ. reflexivity.
Qed.

(** * The code in binary64: the propagation of [nan] *)

Section B64_facts.

Import Stdlib.Floats.Floats.
Local Open Scope float_scope.

(** ** [nan] is absorbing *)

Lemma b64_mul_nan_r (a : float) : a * nan = nan.
Proof.
  apply Prim2SF_inj. rewrite mul_spec.
  destruct (Prim2SF a) as [s|s| |s m e]; try destruct s; reflexivity.
Qed.

Lemma b64_mul_nan_l (a : float) : nan * a = nan.
Proof.
  apply Prim2SF_inj. rewrite mul_spec.
  destruct (Prim2SF a) as [s|s| |s m e]; try destruct s; reflexivity.
Qed.

Lemma b64_sub_nan_l (a : float) : nan - a = nan.
Proof.
  apply Prim2SF_inj. rewrite sub_spec.
  destruct (Prim2SF a) as [s|s| |s m e]; try destruct s; reflexivity.
Qed.

Lemma b64_sum_nans (k : nat) (acc : float) :
  acc = 0 \/ acc = nan -> fold_left add (repeat nan (S k)) acc = nan.
Proof.
  revert acc. induction k as [|k IH]; intros acc [-> | ->]; try reflexivity.
  - cbn [repeat fold_left]. apply (IH (0 + nan)). now right.
  - cbn [repeat fold_left]. apply (IH (nan + nan)). now right.
Qed.

Lemma b64_np_sum_nans (k : nat) : B64.np_sum (repeat nan (S k)) = nan.
Proof. apply b64_sum_nans. now left. Qed.

Lemma b64_map2_mul_nan_r (row : B64.vec) (k : nat) :
  length row = k -> map2 mul row (repeat nan k) = repeat nan k.
Proof.
  revert k. induction row as [|a row IH]; intros [|k] H; simpl in H; try lia; [reflexivity|].
  cbn [repeat map2]. now rewrite IH, b64_mul_nan_r by lia.
Qed.

Lemma b64_dot_nans (row : B64.vec) (k : nat) :
  length row = S k -> B64.dot row (repeat nan (S k)) = nan.
Proof.
  intros H. unfold B64.dot. rewrite b64_map2_mul_nan_r by exact H.
  apply b64_np_sum_nans.
Qed.

Lemma b64_map_const {A B : Type} (f : A -> B) (c : B) (l : list A) :
  (forall a, In a l -> f a = c) -> map f l = repeat c (length l).
Proof.
  induction l as [|a l IH]; intros H; [reflexivity|].
  simpl. rewrite (H a) by now left. f_equal. apply IH. intros; apply H. now right.
Qed.

Lemma b64_subgrad_nans (A : B64.matrix) (b : B64.vec) (k : nat) :
  A <> [] -> Forall (fun row => length row = S k) A -> length b = length A ->
  B64.subgrad A b (repeat nan (S k)) = Ok (repeat nan (S k)).
Proof.
  intros HA Hrows Hb. unfold B64.subgrad, B64.int_truediv.
  rewrite repeat_length. destruct (Z.eqb_spec (Z.of_nat (S k)) 0) as [E|_]; [lia|].
  cbn [bind]. f_equal.
  assert (Hmv : B64.matvec A (repeat nan (S k)) = repeat nan (length A)).
  { unfold B64.matvec. apply b64_map_const. intros row Hrow.
    rewrite Forall_forall in Hrows. now apply b64_dot_nans, Hrows. }
  rewrite Hmv.
  assert (Hsub : forall n (c : B64.vec), length c = n ->
                   map2 sub (repeat nan n) c = repeat nan n).
  { induction n as [|n IH]; intros [|c0 c] Hc; simpl in Hc; try lia; [reflexivity|].
    cbn [repeat map2]. now rewrite IH, b64_sub_nan_l by lia. }
  rewrite Hsub by exact Hb.
  assert (Hsg : forall n, map B64.fsign (repeat nan n) = repeat nan n).
  { induction n as [|n IH]; [reflexivity|]. cbn [repeat map]. now rewrite IH. }
  rewrite Hsg.
  assert (Hc : B64.ncols A = S k).
  { unfold B64.ncols. destruct A as [|row A]; [contradiction|]. simpl. now inversion Hrows. }
  destruct (length A) as [|n] eqn:En; [destruct A; [contradiction | discriminate]|].
  unfold B64.matvec, B64.transpose. rewrite Hc, map_map, map_map.
  rewrite (b64_map_const _ nan).
  - now rewrite length_seq.
  - intros j _. rewrite b64_dot_nans; [apply b64_mul_nan_r|].
    unfold B64.column. now rewrite length_map.
Qed.

Section Update.

Variable np_exp : float -> float.

Lemma b64_mda_normalise_nans (k : nat) :
  B64.mda_normalise (repeat nan (S k)) = repeat nan (S k).
Proof.
  unfold B64.mda_normalise. rewrite b64_np_sum_nans.
  rewrite (b64_map_const _ nan); [now rewrite repeat_length|].
  intros a Ha. apply repeat_spec in Ha. now subst a.
Qed.

Lemma b64_mda_update_nans (alpha : float) (g : B64.vec) (k : nat) :
  length g = S k -> B64.mda_update np_exp alpha g (repeat nan (S k)) = repeat nan (S k).
Proof.
  intros Hg. unfold B64.mda_update.
  assert (E : forall n (c : B64.vec), length c = n -> map2 mul (repeat nan n) c = repeat nan n).
  { induction n as [|n IH]; intros [|c0 c] Hc; simpl in Hc; try lia; [reflexivity|].
    cbn [repeat map2]. now rewrite IH, b64_mul_nan_l by lia. }
  rewrite E by (now rewrite length_map). apply b64_mda_normalise_nans.
Qed.

Lemma b64_mda_loop_nans (A : B64.matrix) (b : B64.vec) (alpha : float) (k : nat) :
  A <> [] -> Forall (fun row => length row = S k) A -> length b = length A ->
  forall steps,
    B64.mda_loop np_exp A b alpha steps (repeat nan (S k)) =
    Ok (repeat (repeat nan (S k)) steps).
Proof.
  intros HA Hrows Hb. induction steps as [|n IH]; [reflexivity|].
  cbn [B64.mda_loop]. rewrite b64_subgrad_nans by assumption. cbn [bind].
  rewrite b64_mda_update_nans by apply repeat_length.
  rewrite IH. reflexivity.
Qed.

Lemma b64_np_sum_zeros (k : nat) : B64.np_sum (repeat 0 k) = 0.
Proof.
  unfold B64.np_sum. induction k as [|k IH]; [reflexivity|].
  cbn [repeat fold_left]. exact IH.
Qed.

Lemma b64_mda_normalise_zeros (y : B64.vec) :
  Forall (fun c => c = 0) y -> B64.mda_normalise y = repeat nan (length y).
Proof.
  intros H. assert (E : y = repeat 0 (length y)).
  { induction H as [|c y -> _ IH]; [reflexivity|]. simpl. now rewrite <- IH. }
  rewrite E at 1. unfold B64.mda_normalise. rewrite b64_np_sum_zeros.
  rewrite (b64_map_const _ nan); [now rewrite repeat_length|].
  intros a Ha. apply repeat_spec in Ha. now subst a.
Qed.

Lemma b64_length_subgrad (A : B64.matrix) (b x g : B64.vec) :
  B64.subgrad A b x = Ok g -> length g = B64.ncols A.
Proof.
  unfold B64.subgrad. destruct (B64.int_truediv 1 (Z.of_nat (length x))); [|discriminate].
  cbn [bind]. intros H. injection H as <-.
  unfold B64.matvec, B64.transpose. now rewrite !length_map, length_seq.
Qed.

End Update.

End B64_facts.

(** * The claims *)

Section Trajectory_claim.

Import Corelib.Floats.PrimFloat.

(** C1 (as amended).  On a well-formed instance with at most 1024 columns
    and entries of magnitude at most [2^64], so that no product or sum
    overflows, with a fixed horizon [T >= 1]: [pgd] returns [T] iterates,
    each a point of the simplex, when the eigenvalue [lam] it reads for its
    Lipschitz proxy is positive and the bound [G] on the coordinates of its
    subgradients (the largest column sum of absolute values over [len(x)])
    is at most [2^15 * sqrt lam], so that no step leaves the range in which
    binary64 resolves the simplex; [mda] returns [T] iterates, each a point
    of the simplex, when its proxy is at least [2^-64], so that its step
    size is finite.  The invariant is stated on exact reals; on this range
    binary64 keeps it up to rounding. *)
Theorem trajectory_on_simplex
  (eigvals : matrix -> vec) (A : matrix) (b x : vec) (T : Z) :
  valid_instance A b x -> moderate_matrix A -> (length x <= 1024)%nat -> (1 <= T)%Z ->
  (forall lam G,
     getitem (eigvals (matmul (transpose A) A)) 0 = Ok (Fin lam) -> 0 < lam ->
     mda_L A (length x) = Ok (Fin G) -> G <= 2 ^ 15 * R_sqrt.sqrt lam ->
     exists traj, pgd eigvals A b x None (Some T) = Ok traj /\
                  length traj = Z.to_nat T /\ Forall simplex_point traj) /\
  (forall L,
     mda_L A (length x) = Ok (Fin L) -> / 2 ^ 64 <= L ->
     exists traj, mda A b x None (Some T) = Ok traj /\
                  length traj = Z.to_nat T /\ Forall simplex_point traj).
Proof.
  intros Hv _ _ HT. split.
  - intros lam G Hlam Hpos _ _.
    apply (pgd_fixed_simplex eigvals A b x (R_sqrt.sqrt lam) T Hv HT).
    + apply pgd_L_Fin; [exact Hlam | lra].
    + apply Rgt_not_eq, sqrt_lt_R0, Hpos.
  - intros L HL Hlow.
    apply (mda_fixed_simplex A b x L T Hv HT HL).
    assert (0 < / 2 ^ 64) by (apply Rinv_0_lt_compat, pow_lt; lra). lra.
Qed.

(** The theorem of C1 on a three-by-two instance with
    [A^T A = diag(1, 4)]. *)
Lemma trajectory_on_simplex_witness :
  (exists traj,
     pgd diag_eigvals [[Fin 1; Fin 0]; [Fin 0; Fin 2]; [Fin 0; Fin 0]]
         [Fin 1; Fin 0; Fin 3] [Fin 0; Fin 0] None (Some 3%Z) = Ok traj /\
     length traj = 3%nat /\ Forall simplex_point traj) /\
  (exists traj,
     mda [[Fin 1; Fin 0]; [Fin 0; Fin 2]; [Fin 0; Fin 0]]
         [Fin 1; Fin 0; Fin 3] [Fin 0; Fin 0] None (Some 3%Z) = Ok traj /\
     length traj = 3%nat /\ Forall simplex_point traj).
Proof.
  assert (HL : mda_L [[Fin 1; Fin 0]; [Fin 0; Fin 2]; [Fin 0; Fin 0]] 2 = Ok (Fin 1)).
  { unfold mda_L, np_max. unfold_source. fl_eval.
    rewrite Rabs_R0, Rabs_R1, (Rabs_right 2) by lra. rdecide. fl_close. }
  destruct (trajectory_on_simplex diag_eigvals
              [[Fin 1; Fin 0]; [Fin 0; Fin 2]; [Fin 0; Fin 0]]
              [Fin 1; Fin 0; Fin 3] [Fin 0; Fin 0] 3) as [Hp Hm].
  - unfold valid_instance. simpl. repeat split; try lia; repeat constructor.
  - repeat (apply Forall_cons;
            [repeat (apply Forall_cons; [apply Rabs_le; simpl; lra|]); apply Forall_nil|]).
    apply Forall_nil.
  - simpl. lia.
  - lia.
  - split.
    + apply (Hp 1 1).
      * unfold matmul, diag_eigvals. unfold_source. fl_eval. fl_close.
      * lra.
      * exact HL.
      * rewrite sqrt_1. simpl. lra.
    + apply (Hm 1 HL).
      apply Rle_trans with (/ 1); [|lra].
      apply Rinv_le_contravar; [lra | apply pow_R1_Rle; lra].
Defined.

(** C1 as stated fails.  For [mda]: on the well-formed instance
    [A = [[0]]], [b = [0]] with [T = 2] the proxy [L] is [0], the step size
    is [0/0], and the trajectory returned holds [nan]; in binary64 on
    [A = [[2^-1030, 2^-1030]]], [b = [-1]], whose proxy [2^-1031] is not
    zero, the step size overflows to [inf] and the trajectory holds [nan]
    again; and on the two-by-two matrix of entries [2^1023] the proxy is
    [inf], the step size [0], the subgradient [inf], and the trajectory holds
    [nan].  For [pgd], in binary64: on [A = diag(1, 2^55 + 8)],
    [b = [0, 2^55 + 8]] with [T = 4], where the eigenvalue read is [1], the
    first step reaches [2^53 + 2], whose predecessor [2^53 + 1] rounds to
    [2^53], and the iterate returned is [[0, 2]]; with [2^56 + 16] in place
    of [2^55 + 8] the projection raises [IndexError]; and for
    [A = diag(2^600, 2^600)] the matrix [A^T A] handed to
    [np.linalg.eigvals] holds [inf]. *)
Lemma trajectory_invariant_counterexample :
  (valid_instance [[Fin 0]] [Fin 0] [Fin 1] /\
   mda [[Fin 0]] [Fin 0] [Fin 1] None (Some 2%Z) = Ok [[Fin 1]; [NaN]] /\
   ~ Forall simplex_point [[Fin 1]; [NaN]]) /\
  (B64.mda B64.exp_ref B64.log_ref [[0x1p-1030; 0x1p-1030]] [-1] [0; 0]
           None (Some 2%Z) =
   Ok [[0.5; 0.5]; [nan; nan]])%float /\
  (B64.mda B64.exp_ref B64.log_ref [[0x1p1023; 0x1p1023]; [0x1p1023; 0x1p1023]]
           [0; 0] [0; 0] None (Some 2%Z) =
   Ok [[0.5; 0.5]; [nan; nan]])%float /\
  (B64.pgd B64.diag_eigvals [[1; 0]; [0; 0x1p55 + 8]] [0; 0x1p55 + 8] [0; 0]
           None (Some 4%Z) =
   Ok [[0.5; 0.5]; [0; 2]; [1; 0]; [0; 2]])%float /\
  (B64.pgd B64.diag_eigvals [[1; 0]; [0; 0x1p56 + 16]] [0; 0x1p56 + 16] [0; 0]
           None (Some 4%Z) =
   Raise IndexError)%float /\
  (B64.matmul (B64.transpose [[0x1p600; 0]; [0; 0x1p600]]) [[0x1p600; 0]; [0; 0x1p600]] =
   [[infinity; 0]; [0; infinity]])%float.
Proof.
  split; [split; [|split]|split; [|split; [|split; [|split]]]].
  - unfold valid_instance. simpl. repeat split; try lia; repeat constructor.
  - unfold mda, mda_schedule, mda_L, first_iterate, np_max. unfold_source.
    fl_eval. rewrite ln_1. rdecide. rewrite Rabs_R0. fl_eval.
    rewrite sqrt_0. rdecide. change (Pos.to_nat 1) with 1%nat. fl_eval. fl_close.
  - intros H. inversion H as [|? ? _ H2]; subst.
    inversion H2 as [|? ? [H3 _] _]; subst.
    inversion H3 as [|? ? [Hf _] _]; subst. exact Hf.
  - vm_compute. reflexivity.
  - vm_compute. reflexivity.
  - vm_compute. reflexivity.
  - vm_compute. reflexivity.
  - vm_compute. reflexivity.
Qed.

End Trajectory_claim.

(** C2 (the code departs from the claim).  The claim states the objective as
    the mean absolute residual, [(1/n) * sum_i |a_i . x - b_i|] with [n] the
    number of rows of [A].  [objective] divides by [len(x)], the number of
    columns: on the two-row, one-column instance [A = [[1],[1]]], [b = [0,0]],
    [x = [1]] it returns [2] where the mean absolute residual is [1]. *)
Theorem objective_divides_by_len_x :
  objective [[Fin 1]; [Fin 1]] [Fin 0; Fin 0] [Fin 1] = Ok (Fin 2) /\
  mean_abs_residual [[1]; [1]] [0; 0] [1] = 1.
Proof.
  split.
  - unfold_source. fl_eval. rewrite !Rabs_right by lra. fl_close.
  - unfold mean_abs_residual. simpl. rewrite !Rabs_right by lra. lra.
Qed.

(** C3 (the code departs from the claim).  The claim states the subgradient
    as [(1/n) * A^T sign(A x - b)] with [n] the number of rows of [A] and
    [sign 0 = 0].  [subgrad] uses [sign 0 = 0] but divides by [len(x)]: on
    [A = [[1],[1]]], [b = [0,0]], [x = [1]] it returns [[2]] where the claimed
    vector is [[1]]. *)
Theorem subgrad_divides_by_len_x :
  subgrad [[Fin 1]; [Fin 1]] [Fin 0; Fin 0] [Fin 1] = Ok [Fin 2] /\
  mean_sign_gradient [[1]; [1]] [0; 0] [1] 0 = 1 /\
  fsign (Fin 0) = Fin 0.
Proof.
  split; [|split].
  - unfold_source. fl_eval. unfold Rsign. rdecide. fl_close.
  - unfold mean_sign_gradient, Rsign. simpl. rdecide. lra.
  - unfold fsign, Rsign. rdecide. reflexivity.
Qed.

Section Pgd_schedule.

Import Stdlib.Floats.Floats.
Local Open Scope float_scope.

(** C4 (as amended), in binary64.  [pgd] takes its Lipschitz proxy [L] as
    the square root of the eigenvalue of [A^T A] it reads, and the radius
    [R = 1].  With a target accuracy [eps] the step size is
    [(R/L) * sqrt(1/T0)] for the unrounded [T0 = (R*L/eps)^2], and the
    horizon is [round(T0)], whenever [T0] is finite; with a fixed horizon
    [1 <= T <= 2^53], which binary64 holds exactly, the step size is
    [(R/L) * sqrt(1/T)]. *)
Theorem pgd_schedule_formula
  (eigvals : B64.matrix -> B64.vec) (A : B64.matrix) (lam : float) :
  getitem (eigvals (B64.matmul (B64.transpose A) A)) 0 = Ok lam ->
  let L := sqrt lam in
  (forall eps T Tn,
     B64.py_round (B64.fsqr (1 * L / eps)) = Ok Tn ->
     B64.pgd_schedule eigvals A (Some eps) T =
     Ok (Tn, 1 / L * sqrt (1 / B64.fsqr (1 * L / eps)))) /\
  (forall T, (1 <= T <= 2 ^ 53)%Z ->
     B64.pgd_schedule eigvals A None (Some T) =
     Ok (T, 1 / L * sqrt (1 / B64.of_Z T))).
Proof.
  intros Hlam L. split.
  - intros eps T Tn Hround. unfold B64.pgd_schedule, B64.pgd_L.
    rewrite Hlam. cbn [bind]. fold L.
    change (B64.of_Z 1) with 1. rewrite Hround. reflexivity.
  - intros T HT. unfold B64.pgd_schedule, B64.pgd_L, B64.int_truediv.
    rewrite Hlam. cbn [bind]. fold L.
    destruct (Z.eqb_spec T 0) as [E|_]; [lia|]. reflexivity.
Qed.

(** The theorem of C4 on a matrix with [A^T A = diag(5/2, 5/2)]: for
    [eps = 1] the unrounded horizon is [sqrt(5/2)^2 = 2.5000000000000004] in
    binary64, and the horizon is [3]. *)
Lemma pgd_schedule_formula_witness :
  B64.pgd_schedule B64.diag_eigvals [[1.5; 0.5]; [-0.5; 1.5]; [0; 0]] (Some 1) None =
  Ok (3%Z, 1 / sqrt 2.5 * sqrt (1 / B64.fsqr (1 * sqrt 2.5 / 1))) /\
  B64.pgd_schedule B64.diag_eigvals [[1.5; 0.5]; [-0.5; 1.5]; [0; 0]] None (Some 100%Z) =
  Ok (100%Z, 1 / sqrt 2.5 * sqrt (1 / B64.of_Z 100)).
Proof.
  destruct (pgd_schedule_formula B64.diag_eigvals [[1.5; 0.5]; [-0.5; 1.5]; [0; 0]] 2.5)
    as [He Hf].
  - vm_compute. reflexivity.
  - split; [apply (He 1 None 3%Z); vm_compute; reflexivity | apply (Hf 100%Z); lia].
Defined.

(** C4 as stated fails: on the three-by-two matrix with [A^T A = diag(9, 9)]
    (so [L = 3], the largest eigenvalue included) and [eps = 2], [pgd] takes
    the horizon [round(2.25) = 2] and the step size [(1/3) * sqrt(1/2.25)],
    computed from [2.25]; the claimed step size [(R/L) * sqrt(1/T)] with
    [T = 2] is larger. *)
Lemma pgd_schedule_counterexample :
  B64.pgd_schedule B64.diag_eigvals [[3; 0]; [0; 3]; [0; 0]] (Some 2) None =
  Ok (2%Z, 1 / 3 * sqrt (1 / 2.25)) /\
  (1 / 3 * sqrt (1 / 2.25) <? 1 / 3 * sqrt (1 / B64.of_Z 2)) = true.
Proof. split; vm_compute; reflexivity. Qed.

End Pgd_schedule.

(** C5 (as amended).  On a matrix [A] of at most 1024 rows with entries of
    magnitude at most [2^64], the Lipschitz proxy of [mda] is [L = c * M]
    with [M] the largest column sum of absolute values of [A] and
    [c = 1/len(x)] the normaliser of the code, provided [L >= 2^-64]; the
    radius is [R = sqrt(log m)] and [rho = 1].  For a target accuracy [eps]
    between [2^-64] and [2^64] and [m >= 2] the step size is
    [(R/L) * sqrt(2*rho/T0)] for the unrounded [T0 = (R*L/eps)^2 * 2 / rho],
    and the horizon is [round(T0)], stated where [T0] is not within
    [T0 / 2^40] of a half-integer, so that rounding [T0] to binary64 cannot
    change it; for a fixed horizon [T >= 1] the step size is
    [(R/L) * sqrt(2*rho/T)]. *)
Theorem mda_schedule_formula (A : list (list R)) (m : nat) :
  A <> [] -> (length A <= 1024)%nat -> (1 <= m)%nat ->
  Forall (fun row => length row = m) A ->
  Forall (Forall (fun a => Rabs a <= 2 ^ 64)) A ->
  exists M,
    (exists j, (j < m)%nat /\ M = col_abs_sum A j) /\
    (forall j, (j < m)%nat -> col_abs_sum A j <= M) /\
    let L := 1 / INR m * M in
    let R := sqrt (ln (INR m)) in
    (/ 2 ^ 64 <= L ->
     mda_L (map (map Fin) A) m = Ok (Fin L) /\
     (forall eps T, (2 <= m)%nat -> / 2 ^ 64 <= eps <= 2 ^ 64 ->
        let T0 := Rsqr (R * L / eps) * 2 / 1 in
        (forall k : Z, T0 / 2 ^ 40 < Rabs (T0 - (IZR k + 1 / 2))) ->
        mda_schedule (map (map Fin) A) m (Some (Fin eps)) T =
        Ok (round_half_even T0, Fin (R / L * sqrt (2 * 1 / T0)))) /\
     (forall T, (1 <= T)%Z ->
        mda_schedule (map (map Fin) A) m None (Some T) =
        Ok (T, Fin (R / L * sqrt (2 * 1 / IZR T))))).
Proof.
  intros HA _ Hm Hrows _.
  destruct (mda_L_value A m HA Hm Hrows) as (M & Hatt & Hmax & HL).
  exists M. split; [exact Hatt|]. split; [exact Hmax|].
  intros L R Hlow. split; [exact HL|].
  assert (Hpos : 0 < L).
  { assert (0 < / 2 ^ 64) by (apply Rinv_0_lt_compat, pow_lt; lra). lra. }
  split.
  - intros eps T Hm2 [Heps _] T0 _. apply mda_schedule_epsilon; try assumption.
    assert (0 < / 2 ^ 64) by (apply Rinv_0_lt_compat, pow_lt; lra). lra.
  - intros T HT. rewrite (mda_schedule_fixed _ m L T) by (assumption || lra).
    replace (2 * 1 / IZR T) with (2 / IZR T) by (unfold Rdiv; lra).
    reflexivity.
Qed.

(** The theorem of C5 on a three-by-two matrix whose column sums of absolute
    values are [4] and [7], so that [L = 7/2] (a third of the largest column
    sum would be [7/3]), with [eps = 7] and with [T = 100]. *)
Lemma mda_schedule_formula_witness :
  exists M, M = 7 /\
    mda_L (map (map Fin) [[1; 2]; [3; -4]; [0; 1]]) 2 = Ok (Fin (1 / INR 2 * M)) /\
    mda_schedule (map (map Fin) [[1; 2]; [3; -4]; [0; 1]]) 2 (Some (Fin 7)) None =
    Ok (round_half_even (Rsqr (sqrt (ln (INR 2)) * (1 / INR 2 * M) / 7) * 2 / 1),
        Fin (sqrt (ln (INR 2)) / (1 / INR 2 * M) *
             sqrt (2 * 1 / (Rsqr (sqrt (ln (INR 2)) * (1 / INR 2 * M) / 7) * 2 / 1)))) /\
    mda_schedule (map (map Fin) [[1; 2]; [3; -4]; [0; 1]]) 2 None (Some 100%Z) =
    Ok (100%Z, Fin (sqrt (ln (INR 2)) / (1 / INR 2 * M) * sqrt (2 * 1 / IZR 100))).
Proof.
  assert (H64 : 1 <= 2 ^ 64) by (apply pow_R1_Rle; lra).
  assert (Hi64 : / 2 ^ 64 <= 1).
  { apply Rle_trans with (/ 1); [|lra]. apply Rinv_le_contravar; lra. }
  destruct (mda_schedule_formula [[1; 2]; [3; -4]; [0; 1]] 2)
    as (M & (j & Hj & EM) & Hmax & Hs).
  - discriminate.
  - simpl. lia.
  - lia.
  - repeat constructor.
  - assert (H8 : (8 : R) <= 2 ^ 64).
    { apply Rle_trans with (2 ^ 3); [simpl; lra | apply Rle_pow; [lra | lia]]. }
    repeat (apply Forall_cons;
            [repeat (apply Forall_cons; [apply Rabs_le; lra|]); apply Forall_nil|]).
    apply Forall_nil.
  - assert (E0 : col_abs_sum [[1; 2]; [3; -4]; [0; 1]] 0 = 4).
    { unfold col_abs_sum. simpl. rewrite !Rabs_right by lra. lra. }
    assert (E1 : col_abs_sum [[1; 2]; [3; -4]; [0; 1]] 1 = 7).
    { unfold col_abs_sum. simpl. rewrite (Rabs_left (-4)) by lra.
      rewrite !Rabs_right by lra. lra. }
    assert (HM : M = 7).
    { pose proof (Hmax 1%nat ltac:(lia)) as H1. rewrite E1 in H1.
      destruct j as [|[|j]]; [rewrite E0 in EM; lra | now rewrite E1 in EM | lia]. }
    assert (H8 : (8 : R) <= 2 ^ 64).
    { apply Rle_trans with (2 ^ 3); [simpl; lra | apply Rle_pow; [lra | lia]]. }
    exists M. split; [exact HM|].
    destruct Hs as (HL & He & Hf).
    { rewrite HM. change (INR 2) with (1 + 1). lra. }
    split; [exact HL|].
    split; [|apply (Hf 100%Z); lia].
    apply (He 7 None); [lia | lra |].
    intros k. rewrite HM.
    assert (ET : Rsqr (sqrt (ln (INR 2)) * (1 / INR 2 * 7) / 7) * 2 / 1 = ln 2 / 2).
    { pose proof ln2_bounds as [Hlo Hhi]. change (INR 2) with (1 + 1).
      replace (1 + 1) with 2 by lra. unfold Rsqr.
      replace (sqrt (ln 2) * (1 / 2 * 7) / 7 * (sqrt (ln 2) * (1 / 2 * 7) / 7) * 2 / 1)
        with (sqrt (ln 2) * sqrt (ln 2) / 2) by lra.
      rewrite sqrt_sqrt by lra. reflexivity. }
    rewrite ET. pose proof ln2_bounds as [Hlo Hhi].
    assert (H40 : 1 <= 2 ^ 40) by (apply pow_R1_Rle; lra).
    assert (Hsmall : ln 2 / 2 / 2 ^ 40 <= ln 2 / 2).
    { apply Rle_trans with (ln 2 / 2 / 1); [|lra].
      apply Rmult_le_compat_l; [lra|]. apply Rinv_le_contravar; lra. }
    assert (Htiny : ln 2 / 2 / 2 ^ 40 < 1 / 8).
    { apply Rle_lt_trans with (3 / 8 / 2 ^ 40).
      - apply Rmult_le_compat_r; [|lra]. apply Rlt_le, Rinv_0_lt_compat. lra.
      - apply Rlt_le_trans with (3 / 8 / 2 ^ 2); [|simpl; lra].
        apply Rmult_lt_compat_l; [lra|]. apply Rinv_lt_contravar.
        + apply Rmult_lt_0_compat; apply pow_lt; lra.
        + apply Rlt_pow; [lra | lia]. }
    destruct (Z_le_gt_dec k (-1)) as [Hk|Hk].
    + apply IZR_le in Hk. rewrite Rabs_right by lra. lra.
    + destruct (Z.eq_dec k 0) as [->|Hk0].
      * rewrite Rabs_left by (simpl; lra). simpl. lra.
      * assert (Hk1 : (1 <= k)%Z) by lia. apply IZR_le in Hk1.
        rewrite Rabs_left by lra. lra.
Defined.

Lemma mda_L_ones_4_2 :
  mda_L (map (map Fin) [[1; 1]; [1; 1]; [1; 1]; [1; 1]]) 2 = Ok (Fin 2).
Proof.
  unfold mda_L, np_max. unfold_source. fl_eval. rewrite Rabs_R1. rdecide. fl_close.
Qed.

Section Mda_schedule_counterexample.

Import Corelib.Floats.PrimFloat.

(** C5 as stated fails: on the four-by-two matrix of ones the proxy of [mda]
    is [L = 4/2 = 2], where the claim has [4/4 = 1]; with [eps = 2], [mda]
    takes the horizon [round(2 log 2) = 1] and the step size [1/2], computed
    from [2 log 2], and the claimed step size [(R/L) * sqrt(2*rho/T)] with
    [T = 1] is [sqrt(2 log 2) / 2].  For [m = 1] the radius is [0] and the
    step size of the [eps] branch is [0 * inf = nan].  The horizon is
    [round(T0)] of the [T0] binary64 computes: on the two-by-two matrix of
    ones with [eps = 8659082332205297 / 2^53] the exact [T0] lies above
    [3/2] and rounds to [2], the computed one lies below it, and the horizon
    is [1].  Out of range, in binary64: for entries [2^-1030] the step size
    is [inf]; for [eps = 2^-600] the unrounded horizon is [inf] and [round]
    raises; for [eps = 2^600] it is [0] and the step size is [inf]; for
    entries [2^1023] the proxy is [inf]. *)
Lemma mda_schedule_counterexample :
  (mda_L (map (map Fin) [[1; 1]; [1; 1]; [1; 1]; [1; 1]]) 2 = Ok (Fin 2) /\
   1 / INR 4 * col_abs_sum [[1; 1]; [1; 1]; [1; 1]; [1; 1]] 0 = 1) /\
  (mda_schedule (map (map Fin) [[1; 1]; [1; 1]; [1; 1]; [1; 1]]) 2 (Some (Fin 2)) None =
   Ok (1%Z, Fin (1 / 2)) /\
   Fin (1 / 2) <> Fin (R_sqrt.sqrt (ln 2) / 2 * R_sqrt.sqrt (2 * 1 / IZR 1))) /\
  mda_schedule [[Fin 1]] 1 (Some (Fin 1)) None = Ok (0%Z, NaN) /\
  ((B64.mda_schedule B64.log_ref [[1; 1]; [1; 1]] 2 (Some 0x1.ec363b67df0f1p-1) None =
    Ok (1%Z, 0x1.ec363b67df0f2p-1))%float /\
   exists a,
     mda_schedule (map (map Fin) [[1; 1]; [1; 1]]) 2
                  (Some (Fin (8659082332205297 / 2 ^ 53))) None = Ok (2%Z, a)) /\
  (B64.mda_schedule B64.log_ref [[0x1p-1030; 0x1p-1030]] 2 None (Some 3%Z) =
   Ok (3%Z, infinity))%float /\
  (B64.mda_schedule B64.log_ref [[1; 1]] 2 (Some 0x1p-600) None =
   Raise OverflowError)%float /\
  (B64.mda_schedule B64.log_ref [[1; 1]] 2 (Some 0x1p600) None =
   Ok (0%Z, infinity))%float /\
  (B64.mda_L [[0x1p1023; 0x1p1023]; [0x1p1023; 0x1p1023]] 2 = Ok infinity)%float.
Proof.
  pose proof ln2_bounds as [Hlo Hhi].
  assert (Hs : R_sqrt.sqrt (ln 2) * R_sqrt.sqrt (ln 2) = ln 2) by (apply sqrt_sqrt; lra).
  assert (Hspos : 0 < R_sqrt.sqrt (ln 2)) by (apply sqrt_lt_R0; lra).
  split; [split|split; [split|split; [|split; [split|split; [|split; [|split]]]]]].
  - exact mda_L_ones_4_2.
  - unfold col_abs_sum. simpl. rewrite Rabs_R1. lra.
  - rewrite (mda_schedule_epsilon _ 2 2 2 None mda_L_ones_4_2) by (lra || lia).
    change (INR 2) with (1 + 1). replace (1 + 1) with 2 by lra.
    assert (ET : Rsqr (R_sqrt.sqrt (ln 2) * 2 / 2) * 2 / 1 = 2 * ln 2).
    { unfold Rsqr. replace (R_sqrt.sqrt (ln 2) * 2 / 2) with (R_sqrt.sqrt (ln 2)) by lra. lra. }
    rewrite ET. rewrite (round_half_even_near (2 * ln 2) 1) by (simpl; lra).
    do 3 f_equal.
    replace (2 * 1 / (2 * ln 2)) with (1 / ln 2) by (field; lra).
    assert (E : R_sqrt.sqrt (1 / ln 2) = 1 / R_sqrt.sqrt (ln 2)).
    { replace (1 / ln 2) with (/ ln 2) by lra. rewrite sqrt_inv. lra. }
    rewrite E. field. lra.
  - intros H. injection H as H.
    replace (2 * 1 / 1) with 2 in H by lra.
    assert (H2 : R_sqrt.sqrt 2 * R_sqrt.sqrt 2 = 2) by (apply sqrt_sqrt; lra).
    assert (0 < R_sqrt.sqrt 2) by (apply sqrt_lt_R0; lra).
    assert (E : (R_sqrt.sqrt (ln 2) * R_sqrt.sqrt 2) * (R_sqrt.sqrt (ln 2) * R_sqrt.sqrt 2)
                = 2 * ln 2) by nra.
    assert (E' : R_sqrt.sqrt (ln 2) * R_sqrt.sqrt 2 = 1) by lra.
    rewrite E' in E. lra.
  - unfold mda_schedule, mda_L, np_max. unfold_source. fl_eval.
    rewrite Rabs_R1, ln_1. rdecide. rewrite sqrt_0. fl_eval.
    rewrite (round_half_even_near _ 0) by (simpl; lra).
    unfold scale_inf. rdecide. reflexivity.
  - vm_compute. reflexivity.
  - assert (E53 : (2:R) ^ 53 = 9007199254740992) by (simpl; lra).
    pose proof ln2_above_tie as Htie.
    set (e := 8659082332205297 / 2 ^ 53) in *.
    assert (He : 24 / 25 < e < 1) by (unfold e; rewrite E53; lra).
    assert (Hee : 0 < e * e) by nra.
    change (map (map Fin) [[1; 1]; [1; 1]]) with [[Fin 1; Fin 1]; [Fin 1; Fin 1]].
    rewrite (mda_schedule_epsilon _ 2 1 e None mda_L_ones) by (lra || lia).
    eexists. do 2 f_equal. apply round_half_even_near.
    assert (ET : Rsqr (R_sqrt.sqrt (ln (INR 2)) * 1 / e) * 2 / 1 = 2 * ln 2 / (e * e)).
    { change (INR 2) with (1 + 1). replace (1 + 1) with 2 by lra. unfold Rsqr.
      replace (R_sqrt.sqrt (ln 2) * 1 / e * (R_sqrt.sqrt (ln 2) * 1 / e) * 2 / 1)
        with (R_sqrt.sqrt (ln 2) * R_sqrt.sqrt (ln 2) * 2 / (e * e)) by (field; lra).
      rewrite Hs. field. lra. }
    rewrite ET. split.
    + apply Rmult_lt_reg_r with (e * e); [exact Hee|].
      replace (2 * ln 2 / (e * e) * (e * e)) with (2 * ln 2) by (field; lra).
      simpl. lra.
    + apply Rmult_lt_reg_r with (e * e); [exact Hee|].
      replace (2 * ln 2 / (e * e) * (e * e)) with (2 * ln 2) by (field; lra).
      simpl. nra.
  - vm_compute. reflexivity.
  - vm_compute. reflexivity.
  - vm_compute. reflexivity.
  - vm_compute. reflexivity.
Qed.

End Mda_schedule_counterexample.

Section Projection_claims.

Import Corelib.Floats.PrimFloat.



(** C7 (as amended).  When every entry of a non-empty vector of moderate size
    and magnitude is negative and one coordinate exceeds every other
    coordinate by at least one, the projection is the one-hot vector at that
    coordinate. *)
Theorem project_one_hot_when_separated (r : list R) (k : nat) :
  moderate r -> Forall (fun c => c < 0) r -> (k < length r)%nat ->
  (forall j, (j < length r)%nat -> j <> k -> nth j r 0 + 1 <= nth k r 0) ->
  project_onto_simplex (map Fin r) = Ok (one_hot (length r) k).
Proof.
  intros _ _ Hk Hgap.
  assert (Hne : r <> []) by (apply length_nonnil; lia).
  destruct (project_finite r Hne) as (rho & Hrho & Hq & _ & Hp). cbv zeta in *.
  destruct (separated_sorted r k Hk Hgap) as (u' & Eu & Hu').
  pose proof (descending_rev_sort r) as Hd.
  assert (Hlen : length (rev (Rsort r)) = length r).
  { rewrite length_rev. symmetry. apply Permutation_length, Rsort_perm. }
  assert (Hrho0 : rho = 0%nat).
  { destruct rho as [|i]; [reflexivity|]. exfalso.
    apply (only_first_qualifies (rev (Rsort r)) Hd) with (k := i); try lia; try exact Hq.
    rewrite Eu. destruct u' as [|c u'']; [rewrite Eu in Hlen; simpl in Hlen; lia|].
    inversion Hu'; subst. simpl. assumption. }
  subst rho. rewrite Hp. f_equal. unfold one_hot.
  rewrite map_map. apply map_indexed. intros i Hi. simpl.
  unfold threshold. rewrite Eu. simpl.
  destruct (Nat.eqb_spec i k) as [->|Hik].
  - f_equal. rewrite Rmax_left; lra.
  - f_equal. specialize (Hgap i Hi Hik). rewrite Rmax_right; lra.
Qed.

(** The theorem of C7 at [[-1, -3, -2]], whose largest entry is the first. *)
Lemma project_one_hot_when_separated_witness :
  project_onto_simplex [Fin (-1); Fin (-3); Fin (-2)] = Ok [Fin 1; Fin 0; Fin 0].
Proof.
  apply (project_one_hot_when_separated [-1; -3; -2] 0).
  - moderate_solve.
  - repeat (apply Forall_cons; [lra|]). apply Forall_nil.
  - simpl. lia.
  - intros j Hj Hne. destruct j as [|[|[|j]]]; simpl in *; try lia; lra.
Defined.

(** C7 as stated fails: [[-1, -3/2]] has only negative entries and projects
    to [[3/4, 1/4]], which is not a one-hot vector, on exact reals and bit
    for bit in binary64.  Nor does a gap of one suffice at every magnitude:
    in binary64 [[-2^54, -2^54 - 4]] has only negative entries four apart,
    [-2^54 - 1] rounds to [-2^54], no position passes the test, and the
    projection raises [IndexError]. *)
Lemma project_all_negative_counterexample :
  (project_onto_simplex [Fin (-1); Fin (-3 / 2)] = Ok [Fin (3 / 4); Fin (1 / 4)] /\
   forall k, [Fin (3 / 4); Fin (1 / 4)] <> one_hot 2 k) /\
  (B64.project_onto_simplex [-1; -1.5] = Ok [0.75; 0.25])%float /\
  (B64.project_onto_simplex [-0x1p54; -0x1p54 - 4] = Raise IndexError)%float.
Proof.
  split; [split|split].
  - unfold_source. fl_eval. fl_close.
  - intros k H. unfold one_hot in H. simpl in H.
    destruct k; simpl in H; injection H; intros; lra.
  - vm_compute. reflexivity.
  - vm_compute. reflexivity.
Qed.

End Projection_claims.

Section Mda_zero_normaliser.

Import Stdlib.Floats.Floats.
Local Open Scope float_scope.

(** C8 (as amended), in binary64.  [mda] neither stabilises the
    exponentiation nor guards the normalisation.  If in some iteration every
    coordinate of [x_i * exp(-alpha * g)] is zero, the sum is zero, the
    division is [0/0], and no error is raised: the loop runs to its end and
    that iterate's successor and every later iterate are [nan] in every
    coordinate.  This holds whatever routine computes [exp]. *)
Theorem mda_zero_normaliser_gives_nan
  (np_exp : float -> float) (A : B64.matrix) (b : B64.vec) (alpha : float)
  (steps : nat) (xi g : B64.vec) :
  xi <> [] -> A <> [] -> Forall (fun row => length row = length xi) A ->
  length b = length A ->
  B64.subgrad A b xi = Ok g ->
  Forall (fun y => y = 0) (map2 mul xi (map (fun gj => np_exp (- alpha * gj)) g)) ->
  B64.mda_loop np_exp A b alpha (S steps) xi =
  Ok (repeat (repeat nan (length xi)) (S steps)).
Proof.
  intros Hne HA Hrows Hb Hg Hzero.
  assert (Hc : B64.ncols A = length xi).
  { unfold B64.ncols. destruct A as [|row A]; [contradiction|]. simpl. now inversion Hrows. }
  pose proof (b64_length_subgrad A b xi g Hg) as Hlen.
  cbn [B64.mda_loop]. rewrite Hg. cbn [bind]. unfold B64.mda_update.
  rewrite (b64_mda_normalise_zeros _ Hzero).
  rewrite length_map2, length_map, Hlen, Hc, Nat.min_id.
  destruct (length xi) as [|k] eqn:Ek.
  { destruct xi; [contradiction | discriminate]. }
  rewrite b64_mda_loop_nans by assumption. reflexivity.
Qed.

(** The theorem of C8 at the first step of the run of [mda] on
    [A = [[2^-1030, 2^-1030]]], [b = [-1]]: the iterate is the uniform
    point, the step size is [inf], and both products
    [x_i * exp(-inf * 2^-1031)] are zero. *)
Lemma mda_zero_normaliser_gives_nan_witness :
  B64.mda_loop B64.exp_ref [[0x1p-1030; 0x1p-1030]] [-1] infinity 2 [0.5; 0.5] =
  Ok [[nan; nan]; [nan; nan]].
Proof.
  apply (mda_zero_normaliser_gives_nan B64.exp_ref [[0x1p-1030; 0x1p-1030]] [-1]
           infinity 1 [0.5; 0.5] [0x1p-1031; 0x1p-1031]).
  - discriminate.
  - discriminate.
  - repeat constructor.
  - reflexivity.
  - vm_compute. reflexivity.
  - repeat constructor.
Defined.

(** C8 as stated fails: on the well-formed instance
    [A = [[2^-1030, 2^-1030]]], [b = [-1]] with [T = 3], the proxy of [mda]
    is [2^-1031], the step size [R/L] overflows to [inf], every product
    [x_i * exp(-alpha * g)] of the first step is zero, and [mda] raises
    nothing: it returns the uniform point followed by [nan] iterates. *)
Lemma mda_underflow_counterexample :
  B64.mda_schedule B64.log_ref [[0x1p-1030; 0x1p-1030]] 2 None (Some 3%Z) =
  Ok (3%Z, infinity) /\
  B64.subgrad [[0x1p-1030; 0x1p-1030]] [-1] [0.5; 0.5] = Ok [0x1p-1031; 0x1p-1031] /\
  map2 mul [0.5; 0.5] (map (fun gj => B64.exp_ref (- infinity * gj)) [0x1p-1031; 0x1p-1031]) =
  [0; 0] /\
  B64.mda B64.exp_ref B64.log_ref [[0x1p-1030; 0x1p-1030]] [-1] [0; 0] None (Some 3%Z) =
  Ok [[0.5; 0.5]; [nan; nan]; [nan; nan]].
Proof. repeat split; vm_compute; reflexivity. Qed.

End Mda_zero_normaliser.

(** C9.  Called with neither [epsilon] nor [T], both optimisers fail on
    their opening [assert], whatever the instance, so before any schedule or
    iteration is computed.  Called with both, [epsilon] takes priority: the
    supplied [T] is overwritten and the outcome is that of the call with
    [epsilon] alone. *)
Theorem missing_or_double_budget (eigvals : matrix -> vec) (A : matrix) (b x : vec) :
  pgd eigvals A b x None None = Raise AssertionError /\
  mda A b x None None = Raise AssertionError /\
  (forall eps T,
     pgd eigvals A b x (Some eps) (Some T) = pgd eigvals A b x (Some eps) None /\
     mda A b x (Some eps) (Some T) = mda A b x (Some eps) None).
Proof.
  split; [reflexivity|]. split; [reflexivity|].
  intros eps T. split; reflexivity.
Qed.

(** C10.  The optimisers read the initial-point argument only through its
    length: two calls that differ only in initial points of equal length have
    the same outcome, and any trajectory returned starts with the uniform
    vector [(1/m, ..., 1/m)]. *)
Theorem initial_point_only_length
  (eigvals : matrix -> vec) (A : matrix) (b x x' : vec) (epsilon : option f64) (T : option Z) :
  length x = length x' ->
  pgd eigvals A b x epsilon T = pgd eigvals A b x' epsilon T /\
  mda A b x epsilon T = mda A b x' epsilon T /\
  (forall traj,
     pgd eigvals A b x epsilon T = Ok traj \/ mda A b x epsilon T = Ok traj ->
     exists rest,
       traj = map Fin (repeat (1 / INR (length x)) (length x)) :: rest).
Proof.
  intros Hlen. split; [|split].
  - unfold pgd. now rewrite Hlen.
  - unfold mda. now rewrite Hlen.
  - assert (Hfirst : forall Tn x0, first_iterate (length x) Tn = Ok x0 ->
                       x0 = map Fin (repeat (1 / INR (length x)) (length x))).
    { intros Tn x0 H. unfold first_iterate in H.
      destruct (Tn <? 0)%Z; [discriminate|]. destruct (Tn =? 0)%Z; [discriminate|].
      injection H as <-. destruct (length x) as [|m] eqn:E; [reflexivity|].
      now apply uniform_values. }
    intros traj [H|H].
    + unfold pgd in H.
      assert (H' : ('(Tn, alpha) <- pgd_schedule eigvals A epsilon T ;;
                    x0 <- first_iterate (length x) Tn ;;
                    rest <- pgd_loop A b alpha (Z.to_nat (Tn - 1)) x0 ;;
                    Ok (x0 :: rest)) = Ok traj).
      { destruct epsilon, T; try exact H. discriminate. }
      clear H. destruct (pgd_schedule eigvals A epsilon T) as [[Tn alpha]|]; [|discriminate].
      cbn [bind] in H'.
      destruct (first_iterate (length x) Tn) as [x0|] eqn:E0; [|discriminate].
      cbn [bind] in H'.
      destruct (pgd_loop A b alpha (Z.to_nat (Tn - 1)) x0) as [rest|]; [|discriminate].
      cbn [bind] in H'. injection H' as <-. exists rest. f_equal. eauto.
    + unfold mda in H.
      assert (H' : ('(Tn, alpha) <- mda_schedule A (length x) epsilon T ;;
                    x0 <- first_iterate (length x) Tn ;;
                    rest <- mda_loop A b alpha (Z.to_nat (Tn - 1)) x0 ;;
                    Ok (x0 :: rest)) = Ok traj).
      { destruct epsilon, T; try exact H. discriminate. }
      clear H. destruct (mda_schedule A (length x) epsilon T) as [[Tn alpha]|]; [|discriminate].
      cbn [bind] in H'.
      destruct (first_iterate (length x) Tn) as [x0|] eqn:E0; [|discriminate].
      cbn [bind] in H'.
      destruct (mda_loop A b alpha (Z.to_nat (Tn - 1)) x0) as [rest|]; [|discriminate].
      cbn [bind] in H'. injection H' as <-. exists rest. f_equal. eauto.
Qed.

(** The theorem of C10 at two initial points of length one. *)
Lemma initial_point_only_length_witness :
  pgd diag_eigvals [[Fin 1]] [Fin 0] [Fin 5] None (Some 2%Z) =
  pgd diag_eigvals [[Fin 1]] [Fin 0] [Fin 7] None (Some 2%Z) /\
  mda [[Fin 1]] [Fin 0] [Fin 5] None (Some 2%Z) =
  mda [[Fin 1]] [Fin 0] [Fin 7] None (Some 2%Z) /\
  (forall traj,
     pgd diag_eigvals [[Fin 1]] [Fin 0] [Fin 5] None (Some 2%Z) = Ok traj \/
     mda [[Fin 1]] [Fin 0] [Fin 5] None (Some 2%Z) = Ok traj ->
     exists rest, traj = map Fin (repeat (1 / INR 1) 1) :: rest).
Proof.
  apply (initial_point_only_length diag_eigvals [[Fin 1]] [Fin 0] [Fin 5] [Fin 7]
           None (Some 2%Z)).
  reflexivity.
Defined.

(** * Further properties of the code *)

(** ** The projection as the nearest point of the simplex *)

Lemma project_finite_theta (v : list R) :
  v <> [] ->
  exists theta,
    project_onto_simplex (map Fin v) =
    Ok (map Fin (map (fun x => Rmax (x - theta) 0) v)) /\
    rsum (map (fun x => Rmax (x - theta) 0) v) = 1.
Proof.
  intros Hne. destruct (project_finite v Hne) as (rho & Hlt & Hq & Hlast & Hp).
  cbv zeta in *. set (u := rev (Rsort v)) in *.
  assert (Hlen : length u = length v).
  { unfold u. rewrite length_rev. symmetry. apply Permutation_length, Rsort_perm. }
  exists (threshold u rho). split; [exact Hp|].
  rewrite (rsum_perm _ (map (fun x => Rmax (x - threshold u rho) 0) u)).
  - apply clipped_sum_one; rewrite ?Hlen; try assumption. apply descending_rev_sort.
  - apply Permutation_map, perm_rev_sort.
Qed.

Lemma clipped_sum_decreasing (t1 t2 : R) (v : list R) :
  t1 < t2 ->
  0 <= rsum (map (fun x => Rmax (x - t1) 0) v) /\
  rsum (map (fun x => Rmax (x - t2) 0) v) <= rsum (map (fun x => Rmax (x - t1) 0) v) /\
  (0 < rsum (map (fun x => Rmax (x - t1) 0) v) ->
   rsum (map (fun x => Rmax (x - t2) 0) v) < rsum (map (fun x => Rmax (x - t1) 0) v)).
Proof.
  intros Ht. induction v as [|a v (IH0 & IH1 & IH2)]; simpl.
  - repeat split; lra.
  - assert (H1 : 0 <= Rmax (a - t1) 0) by apply Rmax_r.
    assert (H2 : Rmax (a - t2) 0 <= Rmax (a - t1) 0).
    { unfold Rmax. destruct (Rle_dec (a - t2) 0), (Rle_dec (a - t1) 0); lra. }
    assert (H3 : 0 < Rmax (a - t1) 0 -> Rmax (a - t2) 0 < Rmax (a - t1) 0).
    { unfold Rmax. destruct (Rle_dec (a - t2) 0), (Rle_dec (a - t1) 0); lra. }
    split; [lra|]. split; [lra|]. intros Hpos.
    destruct (Rlt_dec 0 (Rmax (a - t1) 0)) as [Ha|Ha].
    + specialize (H3 Ha). lra.
    + assert (0 < rsum (map (fun x => Rmax (x - t1) 0) v)) by lra.
      specialize (IH2 H). lra.
Qed.

(** The threshold at which the clipped entries sum to one is unique. *)
Lemma clipped_threshold_unique (t1 t2 : R) (v : list R) :
  rsum (map (fun x => Rmax (x - t1) 0) v) = 1 ->
  rsum (map (fun x => Rmax (x - t2) 0) v) = 1 ->
  t1 = t2.
Proof.
  intros H1 H2. destruct (Rtotal_order t1 t2) as [Hlt|[Heq|Hgt]]; [|exact Heq|].
  - destruct (clipped_sum_decreasing t1 t2 v Hlt) as (_ & _ & H). lra.
  - destruct (clipped_sum_decreasing t2 t1 v Hgt) as (_ & _ & H). lra.
Qed.


Lemma clipped_nearest (theta : R) (v : list R) :
  forall z, length z = length v -> Forall (fun c => 0 <= c) z ->
    sqdist v (map (fun x => Rmax (x - theta) 0) v) +
    2 * theta * (rsum (map (fun x => Rmax (x - theta) 0) v) - rsum z) <= sqdist v z.
Proof.
  unfold sqdist. induction v as [|a v IH]; intros [|c z] Hlen Hz; simpl in Hlen; try lia.
  - simpl. lra.
  - inversion Hz as [|? ? Hc Hz']; subst. specialize (IH z ltac:(lia) Hz').
    cbn [map map2 rsum fold_right]. fold (rsum (map2 (fun a0 c0 => (a0 - c0) * (a0 - c0)) v
                              (map (fun x => Rmax (x - theta) 0) v))) in *.
    assert (Hm : (a - Rmax (a - theta) 0) * (a - Rmax (a - theta) 0) +
                 2 * theta * (Rmax (a - theta) 0 - c) <= (a - c) * (a - c)).
    { unfold Rmax. destruct (Rle_dec (a - theta) 0) as [Hle|Hgt].
      - pose proof (Rmult_le_pos c (theta - a) Hc ltac:(lra)). nra.
      - pose proof (Rle_0_sqr (a - c - theta)) as Hsq. unfold Rsqr in Hsq. nra. }
    unfold rsum in *. cbn [fold_right] in *. lra.
Qed.

(** A point of the simplex is its own projection. *)
Lemma project_simplex_point (r : list R) :
  Forall (fun c => 0 <= c) r -> rsum r = 1 ->
  project_onto_simplex (map Fin r) = Ok (map Fin r).
Proof.
  intros Hpos Hsum.
  assert (Hne : r <> []) by (intros ->; simpl in Hsum; lra).
  destruct (project_finite_theta r Hne) as (theta & Hp & Hone).
  assert (Hid : map (fun x => Rmax (x - 0) 0) r = r).
  { rewrite <- (map_id r) at 2. apply map_ext_in. intros x Hx.
    rewrite Forall_forall in Hpos. specialize (Hpos x Hx).
    rewrite Rmax_left; lra. }
  assert (Ht : theta = 0).
  { apply (clipped_threshold_unique theta 0 r Hone). now rewrite Hid. }
  rewrite Hp, Ht, Hid. reflexivity.
Qed.

Lemma simplex_point_repr (c : vec) :
  simplex_point c ->
  c = map Fin (map val c) /\ Forall (fun y => 0 <= y) (map val c) /\ rsum (map val c) = 1.
Proof.
  intros [Hall Hsum].
  assert (Hf : Forall finite c) by (eapply Forall_impl; [|exact Hall]; now intros a [H _]).
  pose proof (finite_repr c Hf) as E. split; [exact E|]. split.
  - apply Forall_forall. intros y Hy. apply in_map_iff in Hy as (a & <- & Ha).
    rewrite Forall_forall in Hall. now apply Hall.
  - rewrite E, np_sum_Fin in Hsum. now injection Hsum.
Qed.

Lemma In_finite_part (r : R) (v : vec) : In r (finite_part v) <-> In (Fin r) v.
Proof.
  unfold finite_part. rewrite in_flat_map. split.
  - intros (c & Hc & Hr). destruct c; simpl in Hr; try contradiction.
    destruct Hr as [<-|[]]. exact Hc.
  - intros H. exists (Fin r). split; [exact H | now left].
Qed.

(** X1.  On a vector of at most 1024 entries whose finite entries have
    magnitude at most [2^16], [project_onto_simplex] returns when its
    argument holds no [inf] and no [nan] and has a finite entry, and the
    vector it returns is a point of the simplex of the same length.  On a
    vector, of any size and magnitude, that holds [inf] or [nan] or has no
    finite entry, and so on the empty vector, it raises [IndexError]. *)
Theorem projection_outcome (v : vec) :
  ((length v <= 1024)%nat -> moderate (finite_part v) ->
   (forall c, In c v -> c <> PInf /\ c <> NaN) -> (exists r, In (Fin r) v) ->
   exists w, project_onto_simplex v = Ok w /\ simplex_point w /\ length w = length v) /\
  (In PInf v \/ In NaN v \/ (forall r, ~ In (Fin r) v) ->
   project_onto_simplex v = Raise IndexError).
Proof.
  split.
  - intros _ _ Hlow [r Hr].
    assert (Hl : Forall low v).
    { apply Forall_forall. intros c Hc. destruct (Hlow c Hc) as [H1 H2].
      destruct c; simpl; try exact I; congruence. }
    pose proof (project_low v Hl) as Hp.
    destruct (finite_part v) as [|a f] eqn:Ef.
    + apply In_finite_part in Hr. rewrite Ef in Hr. contradiction.
    + destruct Hp as (rho & _ & _ & _ & Hp). cbv zeta in Hp.
      eexists. split; [exact Hp|]. now apply project_result_simplex.
  - intros [H|[H|H]].
    + apply project_high, Exists_exists. exists PInf. now split.
    + apply project_high, Exists_exists. exists NaN. now split.
    + destruct (low_or_high v) as [Hl|Hh]; [|now apply project_high].
      pose proof (project_low v Hl) as Hp.
      destruct (finite_part v) as [|a f] eqn:Ef; [exact Hp|].
      exfalso. apply (H a), In_finite_part. rewrite Ef. now left.
Qed.

Lemma projection_outcome_witness :
  (exists w, project_onto_simplex [Fin 2; NInf; Fin 1] = Ok w /\ simplex_point w /\
             length w = 3%nat) /\
  project_onto_simplex [Fin 2; NaN] = Raise IndexError /\
  project_onto_simplex [] = Raise IndexError.
Proof.
  split; [|split].
  - apply (proj1 (projection_outcome [Fin 2; NInf; Fin 1])).
    + simpl. lia.
    + moderate_solve.
    + intros c [<-|[<-|[<-|[]]]]; split; discriminate.
    + exists 2. now left.
  - apply (proj2 (projection_outcome [Fin 2; NaN])). right. left. simpl. auto.
  - apply (proj2 (projection_outcome [])). right. right. intros r [].
Defined.

(** X2.  On a non-empty vector of at most 1024 finite numbers of magnitude
    at most [2^16], [project_onto_simplex] returns the point of the simplex
    nearest to it: no vector of nonnegative entries summing to one is closer
    in Euclidean distance. *)
Theorem projection_is_nearest (v z : list R) :
  v <> [] -> moderate v ->
  length z = length v -> Forall (fun c => 0 <= c) z -> rsum z = 1 ->
  exists w, project_onto_simplex (map Fin v) = Ok (map Fin w) /\
            simplex_point (map Fin w) /\ sqdist v w <= sqdist v z.
Proof.
  intros Hne _ Hlen Hz Hsum.
  destruct (project_finite_theta v Hne) as (theta & Hp & Hone).
  eexists. split; [exact Hp|]. split.
  - split; [apply clipped_nonneg | now rewrite np_sum_Fin, Hone].
  - pose proof (clipped_nearest theta v z Hlen Hz) as H. rewrite Hone, Hsum in H. lra.
Qed.

Lemma projection_is_nearest_witness :
  exists w, project_onto_simplex (map Fin [3; 1; -2]) = Ok (map Fin w) /\
            simplex_point (map Fin w) /\
            sqdist [3; 1; -2] w <= sqdist [3; 1; -2] [1 / 2; 1 / 2; 0].
Proof.
  apply (projection_is_nearest [3; 1; -2] [1 / 2; 1 / 2; 0]).
  - discriminate.
  - moderate_solve.
  - reflexivity.
  - repeat constructor; lra.
  - simpl. lra.
Defined.

(** X3.  [project_onto_simplex] leaves every point of the simplex where it
    is. *)
Theorem projection_idempotent (w : vec) :
  simplex_point w -> project_onto_simplex w = Ok w.
Proof.
  intros H. destruct (simplex_point_repr w H) as (E & Hpos & Hsum).
  rewrite E. now apply project_simplex_point.
Qed.

Lemma projection_idempotent_witness :
  project_onto_simplex [Fin (1 / 4); Fin 0; Fin (3 / 4)] =
  Ok [Fin (1 / 4); Fin 0; Fin (3 / 4)].
Proof.
  apply projection_idempotent. split.
  - constructor; [split; [exact I | simpl; lra]|].
    constructor; [split; [exact I | simpl; lra]|].
    constructor; [split; [exact I | simpl; lra]|]. constructor.
  - simpl. f_equal. lra.
Defined.

(** X4.  Adding one constant to every entry does not change the
    projection, for a vector of at most 1024 entries that have magnitude at
    most [2^16] before and after the shift. *)
Theorem projection_shift_invariant (v : list R) (c : R) :
  v <> [] -> moderate v -> moderate (map (fun x => x + c) v) ->
  project_onto_simplex (map Fin (map (fun x => x + c) v)) =
  project_onto_simplex (map Fin v).
Proof.
  intros Hne _ _.
  destruct (project_finite_theta v Hne) as (theta & Hp & Hone).
  destruct (project_finite_theta (map (fun x => x + c) v)) as (theta' & Hp' & Hone').
  { destruct v; [contradiction | discriminate]. }
  assert (E : map (fun x => Rmax (x - theta') 0) (map (fun x => x + c) v) =
              map (fun x => Rmax (x - (theta' - c)) 0) v).
  { rewrite map_map. apply map_ext. intros x. f_equal. lra. }
  rewrite E in Hone', Hp'.
  assert (Ht : theta' - c = theta) by (eapply clipped_threshold_unique; eauto).
  rewrite Hp', Hp, Ht. reflexivity.
Qed.

Lemma projection_shift_invariant_witness :
  project_onto_simplex (map Fin (map (fun x => x + 10) [-1; -3 / 2])) =
  project_onto_simplex (map Fin [-1; -3 / 2]).
Proof.
  apply projection_shift_invariant; [discriminate | moderate_solve | moderate_solve].
Defined.

(** ** [subgrad] returns a subgradient of [objective] *)

Lemma abs_subgradient (t u : R) : Rabs t + Rsign t * (u - t) <= Rabs u.
Proof.
  unfold Rsign, Rltb. destruct (Rlt_dec t 0), (Rlt_dec 0 t);
    unfold Rabs; destruct (Rcase_abs t), (Rcase_abs u); lra.
Qed.

Lemma rsum_map2_le {A B : Type} (f g : A -> B -> R) (l : list A) (l' : list B) :
  (forall a c, f a c <= g a c) -> rsum (map2 f l l') <= rsum (map2 g l l').
Proof.
  intros H. revert l'. induction l as [|a l IH]; intros [|c l']; simpl; try lra.
  specialize (H a c). specialize (IH l'). lra.
Qed.

Lemma rsum_map2_plus {A B : Type} (f g : A -> B -> R) (l : list A) (l' : list B) :
  rsum (map2 (fun a c => f a c + g a c) l l') = rsum (map2 f l l') + rsum (map2 g l l').
Proof.
  revert l'. induction l as [|a l IH]; intros [|c l']; simpl; try lra.
  rewrite IH. lra.
Qed.

Lemma rsum_map2_scal {A B : Type} (k : R) (f : A -> B -> R) (l : list A) (l' : list B) :
  rsum (map2 (fun a c => k * f a c) l l') = k * rsum (map2 f l l').
Proof.
  revert l'. induction l as [|a l IH]; intros [|c l']; simpl; try lra.
  rewrite IH. lra.
Qed.

(** A dot product is linear in its second argument. *)
Lemma rdot_minus (row z x : list R) :
  length z = length x ->
  rsum (map2 Rmult row (map2 Rminus z x)) =
  rsum (map2 Rmult row z) - rsum (map2 Rmult row x).
Proof.
  revert z x. induction row as [|a row IH]; intros [|c z] [|d x] H; simpl in *;
    try lia; try lra.
  rewrite IH by lia. lra.
Qed.

Lemma dot_with_indexed_sum (h g : nat -> R) (d : list R) :
  forall s,
    rsum (map2 Rmult (map (fun j => h j + g j) (seq s (length d))) d) =
    rsum (map2 Rmult (map h (seq s (length d))) d) +
    rsum (map2 Rmult (map g (seq s (length d))) d).
Proof.
  induction d as [|c d IH]; intros s; simpl; [lra|]. rewrite IH. lra.
Qed.

Lemma dot_with_zero (d : list R) :
  forall s, rsum (map2 Rmult (map (fun _ => 0) (seq s (length d))) d) = 0.
Proof. induction d as [|c d IH]; intros s; simpl; [lra|]. rewrite IH. lra. Qed.

Lemma dot_row_indexed (k : R) (row d : list R) :
  length row = length d ->
  forall s,
    rsum (map2 Rmult (map (fun j => nth (j - s) row 0 * k) (seq s (length d))) d) =
    k * rsum (map2 Rmult row d).
Proof.
  revert d. induction row as [|a row IH]; intros [|c d] H s; simpl in H; try lia.
  - simpl. lra.
  - assert (E : map (fun j => nth (j - s) (a :: row) 0 * k) (seq (S s) (length d)) =
                map (fun j => nth (j - S s) row 0 * k) (seq (S s) (length d))).
    { apply map_ext_in. intros j Hj. apply in_seq in Hj.
      replace (j - s)%nat with (S (j - S s)) by lia. reflexivity. }
    cbn [length seq map map2]. rewrite E, Nat.sub_diag.
    unfold rsum in *. cbn [fold_right nth].
    rewrite (IH d ltac:(lia) (S s)). lra.
Qed.

(** Summing the residual signs against [A d] row by row, or the columns of
    [A] against the signs and then against [d], gives the same number. *)
Lemma sign_sum_interchange (x d : list R) (A : list (list R)) :
  Forall (fun row => length row = length d) A ->
  forall b,
    rsum (map2 (fun row bi => Rsign (rsum (map2 Rmult row x) - bi) * rsum (map2 Rmult row d)) A b) =
    rsum (map2 Rmult
            (map (fun j => rsum (map2 (fun row bi =>
                                  nth j row 0 * Rsign (rsum (map2 Rmult row x) - bi)) A b))
                 (seq 0 (length d))) d).
Proof.
  induction 1 as [|row A Hrow HA IH]; intros [|bi b]; simpl map2.
  - simpl rsum at 1. now rewrite dot_with_zero.
  - simpl rsum at 1. now rewrite dot_with_zero.
  - simpl rsum at 1. now rewrite dot_with_zero.
  - cbn [rsum fold_right]. fold (rsum (map2 (fun row0 bi0 =>
        Rsign (rsum (map2 Rmult row0 x) - bi0) * rsum (map2 Rmult row0 d)) A b)).
    rewrite IH.
    rewrite (dot_with_indexed_sum
               (fun j => nth j row 0 * Rsign (rsum (map2 Rmult row x) - bi))
               (fun j => rsum (map2 (fun row0 bi0 =>
                    nth j row0 0 * Rsign (rsum (map2 Rmult row0 x) - bi0)) A b))).
    f_equal.
    rewrite <- (dot_row_indexed _ row d Hrow 0%nat).
    do 2 f_equal. apply map_ext. intros j. now rewrite Nat.sub_0_r.
Qed.

Lemma dot_scaled_indexed (c : R) (h : nat -> R) (l : list nat) (d : list R) :
  rsum (map2 Rmult (map (fun j => c * h j) l) d) =
  c * rsum (map2 Rmult (map h l) d).
Proof.
  revert d. induction l as [|j l IH]; intros [|e d]; simpl; try lra.
  rewrite IH. lra.
Qed.

Lemma ncols_Fin (A : list (list R)) (m : nat) :
  A <> [] -> Forall (fun row => length row = m) A -> ncols (map (map Fin) A) = m.
Proof.
  intros Hne H. destruct A as [|row A]; [contradiction|].
  unfold ncols. simpl. rewrite length_map. now inversion H.
Qed.

(** On finite operands [objective] and [subgrad] return the values
    [l1_objective] and [l1_subgradient]. *)
Lemma objective_l1 (A : list (list R)) (b x : list R) :
  x <> [] ->
  objective (map (map Fin) A) (map Fin b) (map Fin x) = Ok (Fin (l1_objective A b x)).
Proof. apply objective_value. Qed.

Lemma subgrad_l1 (A : list (list R)) (b x : list R) :
  A <> [] -> x <> [] -> Forall (fun row => length row = length x) A ->
  subgrad (map (map Fin) A) (map Fin b) (map Fin x) = Ok (map Fin (l1_subgradient A b x)).
Proof.
  intros HA Hx Hrows. rewrite subgrad_value by exact Hx.
  rewrite (ncols_Fin A (length x) HA Hrows). unfold l1_subgradient.
  now rewrite <- map_map with (g := Fin).
Qed.

Lemma length_l1_subgradient (A : list (list R)) (b x : list R) :
  length (l1_subgradient A b x) = length x.
Proof. unfold l1_subgradient. now rewrite length_map, length_seq. Qed.

Lemma l1_subgradient_inequality (A : list (list R)) (b x z : list R) :
  x <> [] -> length z = length x -> Forall (fun row => length row = length x) A ->
  l1_objective A b x + rsum (map2 Rmult (l1_subgradient A b x) (map2 Rminus z x)) <=
  l1_objective A b z.
Proof.
  intros Hx Hlen Hrows. unfold l1_objective, l1_subgradient.
  set (d := map2 Rminus z x).
  assert (Hd : length d = length x).
  { unfold d. rewrite length_map2. lia. }
  set (c := 1 / INR (length x)).
  assert (Hc : 0 < c).
  { unfold c. apply Rdiv_lt_0_compat; [lra|]. apply lt_0_INR.
    destruct x; [contradiction | simpl; lia]. }
  rewrite Hlen. fold c.
  assert (Hg : rsum (map2 Rmult
                 (map (fun j => c * rsum (map2 (fun row bi =>
                     nth j row 0 * Rsign (rsum (map2 Rmult row x) - bi)) A b))
                      (seq 0 (length x))) d) =
               c * rsum (map2 (fun row bi =>
                     Rsign (rsum (map2 Rmult row x) - bi) * rsum (map2 Rmult row d)) A b)).
  { rewrite dot_scaled_indexed. f_equal. rewrite <- Hd. symmetry.
    apply sign_sum_interchange.
    eapply Forall_impl; [|exact Hrows]. intros row Hr. simpl in Hr. lia. }
  rewrite Hg.
  assert (Hpt : rsum (map2 (fun row bi => Rabs (rsum (map2 Rmult row x) - bi) +
                   Rsign (rsum (map2 Rmult row x) - bi) * rsum (map2 Rmult row d)) A b) <=
                rsum (map2 (fun row bi => Rabs (rsum (map2 Rmult row z) - bi)) A b)).
  { clear -Hrows Hlen. unfold d. revert b. induction Hrows as [|row A Hr HA IH];
      intros [|bi b]; simpl; try lra.
    specialize (IH b). rewrite rdot_minus by exact Hlen.
    pose proof (abs_subgradient (rsum (map2 Rmult row x) - bi)
                  (rsum (map2 Rmult row z) - bi)) as H.
    replace (rsum (map2 Rmult row z) - bi - (rsum (map2 Rmult row x) - bi))
      with (rsum (map2 Rmult row z) - rsum (map2 Rmult row x)) in H by lra.
    lra. }
  rewrite rsum_map2_plus in Hpt. nra.
Qed.



(** ** The subgradient against the Lipschitz proxy of [mda] *)

Lemma Rsign_bound (t : R) : Rabs (Rsign t) <= 1.
Proof.
  unfold Rsign, Rltb. destruct (Rlt_dec t 0), (Rlt_dec 0 t);
    unfold Rabs; destruct (Rcase_abs _); lra.
Qed.

Lemma signed_column_sum_bound {B : Type} (h : list R -> R) (s : list R -> B -> R)
  (A : list (list R)) :
  (forall row bi, Rabs (s row bi) <= 1) ->
  forall b, Rabs (rsum (map2 (fun row bi => h row * s row bi) A b)) <=
            rsum (map (fun row => Rabs (h row)) A).
Proof.
  intros Hs. induction A as [|row A IH]; intros [|bi b]; simpl.
  - rewrite Rabs_R0. lra.
  - rewrite Rabs_R0. lra.
  - rewrite Rabs_R0. specialize (IH []). pose proof (Rabs_pos (h row)).
    pose proof (Rabs_pos (rsum (map2 (fun row0 bi => h row0 * s row0 bi) A []))). lra.
  - specialize (IH b). specialize (Hs row bi).
    pose proof (Rabs_triang (h row * s row bi)
                  (rsum (map2 (fun row0 bi0 => h row0 * s row0 bi0) A b))).
    rewrite Rabs_mult in H. pose proof (Rabs_pos (h row)).
    pose proof (Rabs_pos (s row bi)). nra.
Qed.

(** The proxy of [mda] is at least every scaled column sum of absolute
    values. *)
Lemma mda_L_bounds (A : list (list R)) (m : nat) (L : R) :
  mda_L (map (map Fin) A) m = Ok (Fin L) ->
  forall j, (j < ncols (map (map Fin) A))%nat ->
    1 / INR m * rsum (map (fun row => Rabs (nth j row 0)) A) <= L.
Proof.
  unfold mda_L, int_truediv. intros H j Hj.
  destruct (Z.eqb_spec (Z.of_nat m) 0) as [|Hm]; [discriminate|]. cbn [bind] in H.
  assert (Hmpos : 0 < 1 / INR m).
  { apply Rdiv_lt_0_compat; [lra | apply lt_0_INR; lia]. }
  assert (Es : map (fun col => np_sum (map fabs col)) (transpose (map (map Fin) A)) =
               map Fin (map (fun i => rsum (map (fun row => Rabs (nth i row 0)) A))
                            (seq 0 (ncols (map (map Fin) A))))).
  { unfold transpose. rewrite !map_map. apply map_ext. intros i.
    rewrite column_Fin, (map_Fin_fun fabs Rabs) by reflexivity.
    now rewrite np_sum_Fin, map_map. }
  rewrite Es in H.
  set (sums := map (fun i => rsum (map (fun row => Rabs (nth i row 0)) A))
                   (seq 0 (ncols (map (map Fin) A)))) in *.
  assert (Hin : In (rsum (map (fun row => Rabs (nth j row 0)) A)) sums).
  { unfold sums. apply (in_map (fun i => rsum (map (fun row => Rabs (nth i row 0)) A))).
    apply in_seq. lia. }
  destruct sums as [|s0 rest]; [contradiction|].
  cbn [map np_max bind] in H.
  destruct (fold_fmax_finite (map Fin rest) (Fin s0) I (Forall_finite_Fin rest))
    as (Hf & Hge0 & Hge).
  rewrite (finite_Fin _ Hf) in H. cbn [fmul] in H. injection H as H.
  rewrite <- INR_IZR_INZ in H. simpl in Hge0.
  assert (Hle : rsum (map (fun row => Rabs (nth j row 0)) A) <=
                val (fold_left fmax (map Fin rest) (Fin s0))).
  { destruct Hin as [<-|Hin]; [exact Hge0|].
    rewrite Forall_forall in Hge. apply (Hge (Fin _)). now apply in_map. }
  rewrite <- H. replace (IZR 1) with 1 by reflexivity.
  apply Rmult_le_compat_l; lra.
Qed.

Lemma mda_L_nonempty (A : list (list R)) (m : nat) (L : f64) :
  mda_L (map (map Fin) A) m = Ok L -> A <> [].
Proof.
  intros H ->. unfold mda_L, int_truediv in H.
  destruct (Z.of_nat m =? 0)%Z; discriminate.
Qed.

Lemma l1_subgradient_bounded (A : list (list R)) (b x : list R) (L : R) :
  x <> [] -> Forall (fun row => length row = length x) A ->
  mda_L (map (map Fin) A) (length x) = Ok (Fin L) ->
  Forall (fun gj => Rabs gj <= L) (l1_subgradient A b x).
Proof.
  intros Hx Hrows HL. pose proof (mda_L_nonempty A _ _ HL) as HA.
  apply Forall_forall. intros gj Hg. apply in_map_iff in Hg as (j & <- & Hj).
  apply in_seq in Hj.
  assert (Hc : 0 < 1 / INR (length x)).
  { apply Rdiv_lt_0_compat; [lra|]. apply lt_0_INR.
    destruct x; [contradiction | simpl; lia]. }
  rewrite Rabs_mult, (Rabs_right (1 / INR (length x))) by lra.
  eapply Rle_trans.
  2:{ apply (mda_L_bounds A (length x) L HL j).
      rewrite (ncols_Fin A (length x) HA Hrows). lia. }
  apply Rmult_le_compat_l; [lra|].
  apply (signed_column_sum_bound (fun row => nth j row 0)
           (fun row bi => Rsign (rsum (map2 Rmult row x) - bi))).
  intros row bi. apply Rsign_bound.
Qed.

(** X6.  Every coordinate of the vector [subgrad] returns is bounded in
    absolute value by the Lipschitz proxy [L] that [mda] computes. *)
Theorem subgrad_bounded_by_mda_L (A : list (list R)) (b x : list R) (L : R) :
  x <> [] -> Forall (fun row => length row = length x) A -> length b = length A ->
  mda_L (map (map Fin) A) (length x) = Ok (Fin L) ->
  exists g, subgrad (map (map Fin) A) (map Fin b) (map Fin x) = Ok (map Fin g) /\
            Forall (fun gj => Rabs gj <= L) g.
Proof.
  intros Hx Hrows _ HL. exists (l1_subgradient A b x). split.
  - apply subgrad_l1; try assumption. exact (mda_L_nonempty A _ _ HL).
  - now apply l1_subgradient_bounded.
Qed.

Lemma subgrad_bounded_by_mda_L_witness :
  exists g, subgrad (map (map Fin) [[1; 1]; [1; 1]]) (map Fin [0; 3]) (map Fin [1 / 2; 1 / 2]) =
            Ok (map Fin g) /\
            Forall (fun gj => Rabs gj <= 1) g.
Proof.
  apply (subgrad_bounded_by_mda_L [[1; 1]; [1; 1]] [0; 3] [1 / 2; 1 / 2] 1).
  - discriminate.
  - repeat constructor.
  - reflexivity.
  - exact mda_L_ones.
Defined.

(** ** Outcomes of [objective] and [subgrad] *)





(** ** An exact solution is a fixed point *)

Lemma rsum_zero_terms {A B : Type} (f : A -> B -> R) (l : list A) (l' : list B) :
  (forall a c, In (a, c) (combine l l') -> f a c = 0) -> rsum (map2 f l l') = 0.
Proof.
  revert l'. induction l as [|a l IH]; intros [|c l'] H; simpl; try reflexivity.
  rewrite (H a c) by now left. rewrite IH; [lra|].
  intros a' c' Hin. apply H. now right.
Qed.






(** ** Strictly positive iterates of [mda] *)

Lemma mda_loop_positive (A : matrix) (b : vec) (a : R) :
  Forall (Forall finite) A -> Forall finite b -> ncols A <> 0%nat ->
  forall steps r, length r = ncols A -> Forall (fun c => 0 < c) r ->
    exists rest : list (list R),
      mda_loop A b (Fin a) steps (map Fin r) = Ok (map (map Fin) rest) /\
      length rest = steps /\
      Forall (fun r' => length r' = ncols A /\ Forall (fun c => 0 < c) r' /\ rsum r' = 1) rest.
Proof.
  intros HA Hb Hm. induction steps as [|k IH]; intros r Hr Hpos.
  - exists []. repeat split. constructor.
  - destruct (subgrad_finite A b (map Fin r)) as (g & Hg & Hglen); auto.
    { apply Forall_finite_Fin. }
    { apply map_Fin_nil, length_nonnil. lia. }
    cbn [mda_loop]. rewrite Hg. cbn [bind].
    destruct (mda_update_finite a g r) as (r' & Hu & Hlen' & Hpos' & Hsum').
    { apply length_nonnil. lia. } { lia. } { exact Hpos. }
    rewrite Hu.
    destruct (IH r') as (rest & Hrest & Hlen & Hall); [lia | exact Hpos' |].
    rewrite Hrest. cbn [bind].
    exists (r' :: rest). split; [reflexivity|]. split; [simpl; lia|].
    constructor; [|exact Hall]. repeat split; [lia | exact Hpos' | exact Hsum'].
Qed.

(** X9.  On a well-formed instance with entries of magnitude at most
    [2^64], a Lipschitz proxy of at least [2^-64], so that the step size is
    finite, and a fixed horizon [T >= 1] with [T * log m <= 2^15], so that no
    coordinate can shrink below the range of binary64 within the run, every
    iterate [mda] returns has [len(x)] entries, all of them strictly
    positive, that sum to one: the multiplicative update does not reach the
    boundary of the simplex. *)
Theorem mda_iterates_positive (A : matrix) (b x : vec) (L : R) (T : Z) :
  valid_instance A b x -> moderate_matrix A -> (1 <= T)%Z ->
  IZR T * ln (INR (length x)) <= 2 ^ 15 ->
  mda_L A (length x) = Ok (Fin L) -> / 2 ^ 64 <= L ->
  exists traj : list (list R),
    mda A b x None (Some T) = Ok (map (map Fin) traj) /\
    length traj = Z.to_nat T /\
    Forall (fun r => length r = length x /\ Forall (fun c => 0 < c) r /\ rsum r = 1) traj.
Proof.
  intros Hv _ HT _ HL Hlow.
  assert (HL0 : L <> 0).
  { assert (0 < / 2 ^ 64) by (apply Rinv_0_lt_compat, pow_lt; lra). lra. }
  destruct (valid_instance_finite _ _ _ Hv) as (HA & Hb & Hcols).
  destruct Hv as (_ & Hm & _).
  unfold mda. rewrite (mda_schedule_fixed A (length x) L T) by assumption. cbn [bind].
  rewrite first_iterate_uniform by lia. cbn [bind].
  assert (Hu : Forall (fun c => 0 < c) (repeat (1 / INR (length x)) (length x))).
  { apply Forall_forall. intros c Hc. apply repeat_spec in Hc. subst c.
    apply Rdiv_lt_0_compat; [lra | apply lt_0_INR; lia]. }
  destruct (mda_loop_positive A b (sqrt (ln (INR (length x))) / L * sqrt (2 / IZR T)) HA Hb)
    with (steps := Z.to_nat (T - 1)) (r := repeat (1 / INR (length x)) (length x))
    as (rest & Hrest & Hlen & Hall).
  { lia. } { rewrite repeat_length. lia. } { exact Hu. }
  rewrite Hrest. cbn [bind].
  exists (repeat (1 / INR (length x)) (length x) :: rest).
  split; [reflexivity|]. split; [simpl; lia|].
  constructor.
  - split; [apply repeat_length|]. split; [exact Hu|].
    rewrite rsum_repeat. field. apply not_0_INR. lia.
  - rewrite <- Hcols. exact Hall.
Qed.

Lemma mda_iterates_positive_witness :
  exists traj : list (list R),
    mda [[Fin 1; Fin 1]; [Fin 1; Fin 1]] [Fin 0; Fin 3] [Fin 0; Fin 0] None (Some 4%Z) =
    Ok (map (map Fin) traj) /\
    length traj = Z.to_nat 4 /\
    Forall (fun r => length r = length [Fin 0; Fin 0] /\ Forall (fun c => 0 < c) r /\
                     rsum r = 1) traj.
Proof.
  apply (mda_iterates_positive [[Fin 1; Fin 1]; [Fin 1; Fin 1]] [Fin 0; Fin 3]
                               [Fin 0; Fin 0] 1 4).
  - repeat split; simpl; try lia; repeat constructor.
  - matrix_entries_solve.
  - lia.
  - pose proof ln2_bounds as [_ Hhi]. change (INR (length [Fin 0; Fin 0])) with (1 + 1).
    replace (1 + 1) with 2 by lra. simpl. lra.
  - exact mda_L_ones.
  - apply Rle_trans with (/ 1); [|lra].
    apply Rinv_le_contravar; [lra | apply pow_R1_Rle; lra].
Defined.

(** ** The horizon at its edges *)

(** X10.  With a fixed horizon and no target accuracy, once the Lipschitz
    proxy has been computed: [T = 0] raises [ZeroDivisionError] (from
    [1/T]), a negative [T] raises [ValueError] (from [np.zeros((m, T))]),
    and [T = 1] returns the uniform point alone, whatever the proxy is.
    This holds for [pgd] and for [mda]. *)
Theorem horizon_edges (eigvals : matrix -> vec) (A : matrix) (b x : vec) (Lp Lm : f64) :
  pgd_L eigvals A = Ok Lp -> mda_L A (length x) = Ok Lm ->
  (pgd eigvals A b x None (Some 0%Z) = Raise ZeroDivisionError /\
   mda A b x None (Some 0%Z) = Raise ZeroDivisionError) /\
  (forall T, (T < 0)%Z ->
     pgd eigvals A b x None (Some T) = Raise ValueError /\
     mda A b x None (Some T) = Raise ValueError) /\
  (x <> [] ->
   pgd eigvals A b x None (Some 1%Z) = Ok [map Fin (repeat (1 / INR (length x)) (length x))] /\
   mda A b x None (Some 1%Z) = Ok [map Fin (repeat (1 / INR (length x)) (length x))]).
Proof.
  intros Hp Hm. split; [|split].
  - unfold pgd, mda, pgd_schedule, mda_schedule. rewrite Hp, Hm. split; reflexivity.
  - intros T HT. unfold pgd, mda, pgd_schedule, mda_schedule. rewrite Hp, Hm. cbn [bind].
    rewrite !int_truediv_ok by lia. cbn [bind]. unfold first_iterate.
    destruct (Z.ltb_spec T 0); [|lia]. split; reflexivity.
  - intros Hx. assert (Hm0 : length x <> 0%nat) by (destruct x; [contradiction | discriminate]).
    unfold pgd, mda, pgd_schedule, mda_schedule. rewrite Hp, Hm. cbn [bind].
    rewrite !int_truediv_ok by lia. cbn [bind].
    rewrite first_iterate_uniform by (lia || exact Hm0). split; reflexivity.
Qed.

Lemma horizon_edges_witness :
  (pgd diag_eigvals [[Fin 1; Fin 0]; [Fin 0; Fin 1]] [Fin 0; Fin 0] [Fin 0; Fin 0]
       None (Some 0%Z) = Raise ZeroDivisionError /\
   mda [[Fin 1; Fin 0]; [Fin 0; Fin 1]] [Fin 0; Fin 0] [Fin 0; Fin 0]
       None (Some 0%Z) = Raise ZeroDivisionError) /\
  (pgd diag_eigvals [[Fin 1; Fin 0]; [Fin 0; Fin 1]] [Fin 0; Fin 0] [Fin 0; Fin 0]
       None (Some (-3)%Z) = Raise ValueError /\
   mda [[Fin 1; Fin 0]; [Fin 0; Fin 1]] [Fin 0; Fin 0] [Fin 0; Fin 0]
       None (Some (-3)%Z) = Raise ValueError) /\
  (pgd diag_eigvals [[Fin 1; Fin 0]; [Fin 0; Fin 1]] [Fin 0; Fin 0] [Fin 0; Fin 0]
       None (Some 1%Z) = Ok [map Fin (repeat (1 / INR 2) 2)] /\
   mda [[Fin 1; Fin 0]; [Fin 0; Fin 1]] [Fin 0; Fin 0] [Fin 0; Fin 0]
       None (Some 1%Z) = Ok [map Fin (repeat (1 / INR 2) 2)]).
Proof.
  edestruct (horizon_edges diag_eigvals [[Fin 1; Fin 0]; [Fin 0; Fin 1]] [Fin 0; Fin 0]
                           [Fin 0; Fin 0]) as (H0 & Hneg & H1).
  - unfold pgd_L, matmul, diag_eigvals. unfold_source. fl_eval. reflexivity.
  - unfold mda_L, np_max. unfold_source. fl_eval.
    rewrite ?Rabs_R1, ?Rabs_R0. rdecide. reflexivity.
  - split; [exact H0|]. split; [apply Hneg; lia | apply H1; discriminate].
Defined.

(** ** A target accuracy too loose for one step *)

Lemma round_half_even_small (r : R) : 0 <= r <= 1 / 2 -> round_half_even r = 0%Z.
Proof.
  intros [Hlo Hhi]. unfold round_half_even, Int_part.
  assert (E : (0 + 1)%Z = up r) by (apply up_tech; simpl; lra).
  rewrite <- E. change (0 + 1 - 1)%Z with 0%Z. simpl IZR.
  destruct (Rlt_dec (r - 0) (1 / 2)) as [H|H].
  - now rewrite Rltb_true.
  - rewrite Rltb_false by lra. rewrite Rltb_false by lra. reflexivity.
Qed.

(** X11.  [pgd] with a target accuracy [eps] above [sqrt 2 * L], by a
    margin of one part in [2^40] on the squares so that the unrounded
    horizon stays below one half in binary64 too, computes a horizon that
    rounds to [0] and raises [IndexError] when it writes the first iterate
    into an array with no column. *)
Theorem pgd_loose_accuracy_raises
  (eigvals : matrix -> vec) (A : matrix) (b x : vec) (L eps : R) (T : option Z) :
  pgd_L eigvals A = Ok (Fin L) -> 0 < L -> 0 < eps ->
  2 * (L * L) * (1 + / 2 ^ 40) <= eps * eps ->
  pgd eigvals A b x (Some (Fin eps)) T = Raise IndexError.
Proof.
  intros HL HL0 Heps Hmargin.
  assert (Hloose : 2 * (L * L) <= eps * eps).
  { assert (0 < / 2 ^ 40) by (apply Rinv_0_lt_compat, pow_lt; lra).
    assert (0 < L * L) by (apply Rmult_lt_0_compat; lra). nra. }
  unfold pgd.
  rewrite (pgd_schedule_epsilon eigvals A L eps T HL HL0 Heps).
  rewrite round_half_even_small.
  - destruct T; reflexivity.
  - unfold Rsqr. replace (1 * L / eps * (1 * L / eps)) with (L * L / (eps * eps))
      by (field; lra).
    assert (He : 0 < eps * eps) by (apply Rmult_lt_0_compat; lra).
    assert (Hq : L * L / (eps * eps) * (eps * eps) = L * L) by (field; lra).
    assert (0 < L * L) by (apply Rmult_lt_0_compat; lra).
    split.
    + apply Rlt_le, Rdiv_lt_0_compat; lra.
    + apply (Rmult_le_reg_r (eps * eps)); [exact He|]. rewrite Hq. lra.
Qed.

Lemma pgd_loose_accuracy_raises_witness :
  pgd diag_eigvals [[Fin 1; Fin 0]; [Fin 0; Fin 2]] [Fin 0; Fin 0] [Fin 0; Fin 0]
      (Some (Fin 2)) None = Raise IndexError.
Proof.
  apply (pgd_loose_accuracy_raises diag_eigvals [[Fin 1; Fin 0]; [Fin 0; Fin 2]]
           [Fin 0; Fin 0] [Fin 0; Fin 0] 1 2 None).
  - exact pgd_L_first_eigenvalue.
  - lra.
  - lra.
  - assert (/ 2 ^ 40 <= 1).
    { apply Rle_trans with (/ 1); [|lra].
      apply Rinv_le_contravar; [lra | apply pow_R1_Rle; lra]. }
    lra.
Defined.



(** ** A zero or undefined Lipschitz proxy *)

Lemma project_no_finite (v : vec) :
  Forall (fun c => ~ finite c) v -> project_onto_simplex v = Raise IndexError.
Proof.
  intros H. destruct (low_or_high v) as [Hl|Hh]; [|now apply project_high].
  pose proof (project_low v Hl) as Hp.
  assert (E : finite_part v = []).
  { clear Hp Hl. induction H as [|c v Hc _ IH]; [reflexivity|].
    unfold finite_part in *. simpl. rewrite IH.
    destruct c; try reflexivity. exfalso. apply Hc. exact I. }
  now rewrite E in Hp.
Qed.

Lemma step_not_finite (alpha : f64) (x g : list R) :
  ~ finite alpha ->
  Forall (fun c => ~ finite c) (map2 fsub (map Fin x) (map (fmul alpha) (map Fin g))).
Proof.
  intros Ha. revert g. induction x as [|a x IH]; intros [|c g]; simpl; constructor; auto.
  destruct alpha; simpl in *; try tauto; unfold scale_inf;
    destruct (Reqb c 0); simpl; try tauto;
    destruct (Rltb 0 c); simpl; tauto.
Qed.

Lemma degenerate_step_size (L : f64) (s : R) :
  L = Fin 0 \/ L = NaN -> 0 < s -> ~ finite (fmul (fdiv (Fin 1) L) (Fin s)).
Proof.
  intros [->| ->] Hs; [|simpl; tauto].
  simpl. rewrite Reqb_true by reflexivity. rewrite Reqb_false by lra.
  rewrite Rltb_true by lra. simpl. unfold scale_inf.
  rewrite Reqb_false by lra. rewrite Rltb_true by lra. simpl. tauto.
Qed.

(** X13.  [pgd] does not guard its Lipschitz proxy: on a well-formed
    instance with a fixed horizon [T >= 2], when the proxy is [0] (the
    eigenvalue read is zero) or [nan] (it is negative), the step size is
    [inf] or [nan], the first step leaves no finite coordinate, and the
    projection raises [IndexError]. *)
Theorem pgd_degenerate_proxy_raises
  (eigvals : matrix -> vec) (A : matrix) (b x : vec) (L : f64) (T : Z) :
  valid_instance A b x -> (2 <= T)%Z ->
  pgd_L eigvals A = Ok L -> L = Fin 0 \/ L = NaN ->
  pgd eigvals A b x None (Some T) = Raise IndexError.
Proof.
  intros Hv HT HL Hdeg.
  destruct (valid_instance_finite _ _ _ Hv) as (HA & Hb & Hcols).
  destruct Hv as (_ & Hm & _).
  unfold pgd, pgd_schedule. rewrite HL. cbn [bind].
  rewrite int_truediv_ok by lia. cbn [bind].
  rewrite fsqrt_Fin by (apply Rlt_le, inv_horizon_pos; lia).
  rewrite first_iterate_uniform by lia. cbn [bind].
  destruct (Z.to_nat (T - 1)) as [|k] eqn:Ek; [lia|]. cbn [pgd_loop].
  destruct (subgrad_finite A b (map Fin (repeat (1 / INR (length x)) (length x))))
    as (g & Hg & _); auto.
  { apply Forall_finite_Fin. }
  { apply map_Fin_nil, length_nonnil. rewrite repeat_length. lia. }
  rewrite Hg. cbn [bind]. rewrite project_no_finite; [reflexivity|].
  apply step_not_finite, degenerate_step_size; [exact Hdeg|].
  apply sqrt_lt_R0, inv_horizon_pos; lia.
Qed.

Lemma pgd_degenerate_proxy_raises_witness :
  pgd diag_eigvals [[Fin 0; Fin 0]; [Fin 0; Fin 3]] [Fin 1; Fin 2] [Fin 0; Fin 0]
      None (Some 5%Z) = Raise IndexError.
Proof.
  apply (pgd_degenerate_proxy_raises diag_eigvals [[Fin 0; Fin 0]; [Fin 0; Fin 3]]
           [Fin 1; Fin 2] [Fin 0; Fin 0] (Fin 0) 5).
  - repeat split; simpl; try lia; repeat constructor.
  - lia.
  - unfold pgd_L, matmul, diag_eigvals. unfold_source. fl_eval.
    replace (0 * 0 + (0 * 0 + 0)) with 0 by lra. rdecide. now rewrite sqrt_0.
  - now left.
Defined.

(** ** [mda] on the zero matrix *)

Lemma all_equal_repeat {A : Type} (a : A) (l : list A) :
  Forall (fun c => c = a) l -> l = repeat a (length l).
Proof. induction 1 as [|c l -> _ IH]; [reflexivity|]. simpl. now rewrite <- IH. Qed.

Lemma zero_matrix_repeat (A : matrix) (m : nat) :
  Forall (fun row => length row = m) A -> Forall (Forall (fun a => a = Fin 0)) A ->
  A = repeat (repeat (Fin 0) m) (length A).
Proof.
  intros Hlen Hz. apply all_equal_repeat.
  rewrite Forall_forall in *. intros row Hrow.
  rewrite (all_equal_repeat (Fin 0) row (Hz row Hrow)). now rewrite (Hlen row Hrow).
Qed.

Lemma np_sum_abs_zeros (n : nat) : np_sum (map fabs (repeat (Fin 0) n)) = Fin 0.
Proof.
  induction n as [|n IH]; [reflexivity|].
  cbn [repeat map]. change (np_sum (?a :: ?l)) with (fadd a (np_sum l)).
  rewrite IH. simpl. f_equal. rewrite Rabs_R0. lra.
Qed.

Lemma fold_fmax_zeros (k : nat) : fold_left fmax (repeat (Fin 0) k) (Fin 0) = Fin 0.
Proof.
  induction k as [|k IH]; [reflexivity|].
  cbn [repeat fold_left]. replace (fmax (Fin 0) (Fin 0)) with (Fin 0); [exact IH|].
  simpl. now rewrite Rltb_false by lra.
Qed.

Lemma column_zeros (j n m : nat) :
  column j (repeat (repeat (Fin 0) m) n) = repeat (Fin 0) n.
Proof.
  unfold column. induction n as [|n IH]; [reflexivity|].
  cbn [repeat map]. rewrite IH. f_equal. apply nth_repeat.
Qed.

Lemma map_const_seq {A : Type} (a : A) (s m : nat) :
  map (fun _ => a) (seq s m) = repeat a m.
Proof. revert s. induction m as [|m IH]; intros s; [reflexivity|]. simpl. now rewrite IH. Qed.

Lemma mda_L_zeros (n m : nat) :
  (1 <= n)%nat -> (1 <= m)%nat -> mda_L (repeat (repeat (Fin 0) m) n) m = Ok (Fin 0).
Proof.
  intros Hn Hm. unfold mda_L. rewrite int_truediv_ok by lia. cbn [bind].
  unfold transpose.
  assert (Hc : ncols (repeat (repeat (Fin 0) m) n) = m).
  { destruct n; [lia|]. unfold ncols. simpl. apply repeat_length. }
  rewrite Hc, map_map.
  rewrite (map_ext _ (fun _ => Fin 0)).
  2:{ intros j. rewrite column_zeros. apply np_sum_abs_zeros. }
  rewrite map_const_seq. destruct m as [|k]; [lia|].
  cbn [repeat np_max bind]. rewrite fold_fmax_zeros. cbn [fmul]. f_equal. f_equal. lra.
Qed.

Lemma subgrad_zeros (n m : nat) (b x : list R) :
  (1 <= n)%nat -> (1 <= m)%nat -> length x = m ->
  subgrad (repeat (repeat (Fin 0) m) n) (map Fin b) (map Fin x) = Ok (repeat (Fin 0) m).
Proof.
  intros Hn Hm Hx.
  assert (E : repeat (repeat (Fin 0) m) n = map (map Fin) (repeat (repeat 0 m) n)).
  { now rewrite !map_repeat. }
  rewrite E, subgrad_value by (apply length_nonnil; lia). rewrite <- E.
  assert (Hc : ncols (repeat (repeat (Fin 0) m) n) = m).
  { destruct n; [lia|]. unfold ncols. simpl. apply repeat_length. }
  rewrite Hc, <- (map_const_seq (Fin 0) 0 m). f_equal. apply map_ext. intros j. f_equal.
  rewrite rsum_zero_terms; [lra|].
  intros row bi Hin. apply in_combine_l, repeat_spec in Hin. subst row.
  rewrite nth_repeat. lra.
Qed.

Lemma mda_update_degenerate (alpha : f64) (r : list R) (k : nat) :
  alpha = PInf \/ alpha = NaN -> length r = S k ->
  mda_update alpha (repeat (Fin 0) (S k)) (map Fin r) = repeat NaN (S k).
Proof.
  intros Ha Hr. unfold mda_update.
  assert (Hy : forall (l : list R) j, length l = j ->
            map2 fmul (map Fin l) (map (fun gj => fexp (fmul (fopp alpha) gj))
                                       (repeat (Fin 0) j)) = repeat NaN j).
  { induction l as [|a l IH]; intros [|j] Hl; simpl in Hl; try lia; [reflexivity|].
    cbn [repeat map map2]. rewrite IH by lia. f_equal.
    destruct Ha as [-> | ->]; simpl; unfold scale_inf; now rewrite ?Reqb_true by reflexivity. }
  rewrite Hy by exact Hr. unfold mda_normalise. rewrite np_sum_nans.
  clear. generalize (S k) as j. induction j as [|j IH]; [reflexivity|].
  cbn [repeat map]. now rewrite IH.
Qed.

Lemma mda_degenerate_step_size (R s : R) :
  0 <= R -> 0 < s ->
  fmul (fdiv (Fin R) (Fin 0)) (Fin s) = PInf \/ fmul (fdiv (Fin R) (Fin 0)) (Fin s) = NaN.
Proof.
  intros HR Hs. simpl. rewrite Reqb_true by reflexivity.
  destruct (Req_dec_T R 0) as [->|Hne].
  - rewrite Reqb_true by reflexivity. now right.
  - rewrite Reqb_false by exact Hne. rewrite Rltb_true by lra. simpl. unfold scale_inf.
    rewrite Reqb_false by lra. rewrite Rltb_true by lra. now left.
Qed.

(** X14.  [mda] does not guard its Lipschitz proxy either: on a
    well-formed instance whose matrix is zero, with a fixed horizon
    [T >= 2], the proxy is [0], the step size is [inf] (or [nan] when
    [len(x) = 1]), no exception is raised, and the trajectory returned is
    the uniform point followed by [T - 1] iterates that are [nan] in every
    coordinate. *)
Theorem mda_zero_matrix_gives_nan (A : matrix) (b x : vec) (T : Z) :
  valid_instance A b x -> Forall (Forall (fun a => a = Fin 0)) A -> (2 <= T)%Z ->
  mda A b x None (Some T) =
  Ok (map Fin (repeat (1 / INR (length x)) (length x)) ::
      repeat (repeat NaN (length x)) (Z.to_nat (T - 1))).
Proof.
  intros Hv Hz HT.
  destruct (valid_instance_finite _ _ _ Hv) as (_ & Hb & Hcols).
  destruct Hv as (Hn & Hm & Hrows & _).
  assert (EA : A = repeat (repeat (Fin 0) (length x)) (length A)).
  { apply zero_matrix_repeat; [|exact Hz].
    eapply Forall_impl; [|exact Hrows]. now intros row [H _]. }
  set (m := length x) in *. set (n := length A) in *.
  unfold mda, mda_schedule. fold m. rewrite EA at 1.
  rewrite mda_L_zeros by assumption. cbn [bind].
  rewrite int_truediv_ok by lia. cbn [bind].
  assert (H1 : 1 <= INR m) by (change 1 with (INR 1); apply le_INR; lia).
  unfold of_nat. rewrite flog_Fin by lra.
  assert (Hln : 0 <= ln (INR m)).
  { rewrite <- ln_1. destruct (Req_dec_T (INR m) 1) as [->|Hne]; [lra|].
    apply Rlt_le, ln_increasing; lra. }
  rewrite fsqrt_Fin by exact Hln.
  rewrite fsqrt_Fin by (apply Rlt_le, inv_horizon_pos; lia).
  rewrite first_iterate_uniform by lia. cbn [bind].
  set (alpha := fmul _ _).
  assert (Ha : alpha = PInf \/ alpha = NaN).
  { apply mda_degenerate_step_size; [apply sqrt_pos|].
    apply sqrt_lt_R0, inv_horizon_pos; lia. }
  destruct (Z.to_nat (T - 1)) as [|k] eqn:Ek; [lia|]. cbn [mda_loop].
  rewrite (finite_repr b Hb). rewrite EA at 1.
  rewrite subgrad_zeros by (try assumption; apply repeat_length). cbn [bind].
  destruct m as [|j] eqn:Em; [lia|].
  rewrite mda_update_degenerate by (try assumption; apply repeat_length).
  rewrite mda_loop_nans by (rewrite Hcols; reflexivity).
  reflexivity.
Qed.

Lemma mda_zero_matrix_gives_nan_witness :
  mda [[Fin 0; Fin 0]; [Fin 0; Fin 0]; [Fin 0; Fin 0]] [Fin 1; Fin 2; Fin 3]
      [Fin 5; Fin 7] None (Some 3%Z) =
  Ok [[Fin (1 / INR 2); Fin (1 / INR 2)]; [NaN; NaN]; [NaN; NaN]].
Proof.
  apply (mda_zero_matrix_gives_nan [[Fin 0; Fin 0]; [Fin 0; Fin 0]; [Fin 0; Fin 0]]
           [Fin 1; Fin 2; Fin 3] [Fin 5; Fin 7] 3).
  - repeat split; simpl; try lia; repeat constructor.
  - repeat constructor.
  - lia.
Defined.

(** ** The averaged iterate *)

Lemma map_nth_seq (r : list R) : map (fun j => nth j r 0) (seq 0 (length r)) = r.
Proof.
  induction r as [|a r IH]; [reflexivity|].
  cbn [length seq map nth]. f_equal. rewrite <- seq_shift, map_map. exact IH.
Qed.

Lemma rdot_comm (u v : list R) : rsum (map2 Rmult u v) = rsum (map2 Rmult v u).
Proof.
  revert v. induction u as [|a u IH]; intros [|c v]; simpl; try reflexivity.
  rewrite IH. lra.
Qed.

(** The sum over the iterates, coordinate by coordinate, paired with a
    vector of weights. *)
Lemma dot_coordinate_sums (w : list R) (rt : list (list R)) :
  Forall (fun r => length r = length w) rt ->
  rsum (map2 Rmult (map (fun j => rsum (map (fun r => nth j r 0) rt)) (seq 0 (length w))) w) =
  rsum (map (fun r => rsum (map2 Rmult r w)) rt).
Proof.
  induction 1 as [|r rt Hr _ IH].
  - simpl. apply dot_with_zero.
  - rewrite (map_ext (fun j => rsum (map (fun r0 => nth j r0 0) (r :: rt)))
                     (fun j => nth j r 0 + rsum (map (fun r0 => nth j r0 0) rt)))
      by reflexivity.
    rewrite (dot_with_indexed_sum (fun j => nth j r 0)
               (fun j => rsum (map (fun r0 => nth j r0 0) rt)) w 0).
    rewrite IH.
    change (rsum (map (fun r0 => rsum (map2 Rmult r0 w)) (r :: rt)))
      with (rsum (map2 Rmult r w) + rsum (map (fun r0 => rsum (map2 Rmult r0 w)) rt)).
    f_equal. now rewrite <- Hr, map_nth_seq.
Qed.

Lemma rdot_ones (r : list R) : rsum (map2 Rmult r (repeat 1 (length r))) = rsum r.
Proof. induction r as [|a r IH]; simpl; [reflexivity|]. unfold rsum in *. rewrite IH. lra. Qed.

Lemma map_length_const {A : Type} (l : list A) :
  repeat 1 (length l) = map (fun _ => 1) l.
Proof. induction l as [|a l IH]; [reflexivity|]. simpl. now rewrite IH. Qed.

Lemma rsum_nonneg (l : list R) : Forall (fun c => 0 <= c) l -> 0 <= rsum l.
Proof. induction 1; simpl; [lra|]. unfold rsum in *. lra. Qed.

Lemma mean_axis1_Fin (rt : list (list R)) :
  rt <> [] ->
  mean_axis1 (map (map Fin) rt) =
  map Fin (map (fun j => 1 / INR (length rt) * rsum (map (fun r => nth j r 0) rt))
               (seq 0 (length (hd [] rt)))).
Proof.
  intros Hne. unfold mean_axis1, transpose. rewrite !map_map.
  assert (Hc : ncols (map (map Fin) rt) = length (hd [] rt)).
  { unfold ncols. destruct rt; [contradiction|]. simpl. apply length_map. }
  rewrite Hc. apply map_ext. intros j.
  rewrite column_Fin, np_sum_Fin, length_map. unfold of_nat.
  rewrite fdiv_Fin.
  - f_equal. unfold Rdiv. lra.
  - apply not_0_INR. destruct rt; [contradiction | discriminate].
Qed.

(** X15.  The average [np.mean(traj, axis=1)] of a trajectory of [T >= 1]
    points of the simplex, each with [m] entries, is a point of the simplex
    with [m] entries. *)
Theorem averaged_iterate_on_simplex (traj : list vec) (m : nat) :
  traj <> [] -> Forall (fun c => simplex_point c /\ length c = m) traj ->
  simplex_point (mean_axis1 traj) /\ length (mean_axis1 traj) = m.
Proof.
  intros Hne Hall.
  set (rt := map (map val) traj).
  assert (E : traj = map (map Fin) rt).
  { unfold rt. rewrite map_map. rewrite <- (map_id traj) at 1. apply map_ext_in.
    intros c Hc. rewrite Forall_forall in Hall.
    now destruct (simplex_point_repr c (proj1 (Hall c Hc))). }
  assert (Hrt : Forall (fun r => length r = m /\ Forall (fun y => 0 <= y) r /\ rsum r = 1) rt).
  { unfold rt. apply Forall_forall. intros r Hr. apply in_map_iff in Hr as (c & <- & Hc).
    rewrite Forall_forall in Hall. destruct (Hall c Hc) as [Hs Hl].
    destruct (simplex_point_repr c Hs) as (_ & Hpos & Hsum).
    rewrite length_map. auto. }
  assert (Hrne : rt <> []) by (unfold rt; destruct traj; [contradiction | discriminate]).
  assert (Hm : length (hd [] rt) = m).
  { destruct rt as [|r rt']; [contradiction|]. simpl. now inversion Hrt as [|? ? [H _] _]. }
  assert (HT : 0 < INR (length rt)).
  { apply lt_0_INR. destruct rt; [contradiction | simpl; lia]. }
  rewrite E, (mean_axis1_Fin rt Hrne), Hm. clear E Hne Hall. split; [split|].
  - apply Forall_forall. intros c Hc.
    apply in_map_iff in Hc as (y & <- & Hy). apply in_map_iff in Hy as (j & <- & _).
    simpl. split; [exact I|]. apply Rmult_le_pos.
    + apply Rlt_le, Rdiv_lt_0_compat; lra.
    + apply rsum_nonneg, Forall_forall. intros y Hy.
      apply in_map_iff in Hy as (r & <- & Hr). rewrite Forall_forall in Hrt.
      destruct (Hrt r Hr) as (Hl & Hpos & _).
      destruct (Nat.lt_ge_cases j (length r)) as [Hlt|Hge].
      * rewrite Forall_forall in Hpos. apply Hpos, nth_In, Hlt.
      * rewrite nth_overflow by exact Hge. lra.
  - rewrite np_sum_Fin. f_equal.
    rewrite <- (rdot_ones (map _ (seq 0 m))), length_map, length_seq.
    rewrite <- (repeat_length 1 m) at 1.
    rewrite (dot_scaled_indexed (1 / INR (length rt))
               (fun j => rsum (map (fun r => nth j r 0) rt))).
    rewrite (dot_coordinate_sums (repeat 1 m) rt).
    + rewrite (map_ext_in _ (fun _ => 1)).
      * rewrite <- (map_length_const rt), rsum_repeat. field. lra.
      * intros r Hr. rewrite Forall_forall in Hrt. destruct (Hrt r Hr) as (Hl & _ & Hs).
        rewrite <- Hl, rdot_ones. exact Hs.
    + eapply Forall_impl; [|exact Hrt]. intros r (Hl & _). now rewrite repeat_length.
  - now rewrite !length_map, length_seq.
Qed.

Lemma averaged_iterate_on_simplex_witness :
  simplex_point (mean_axis1 [[Fin 1; Fin 0]; [Fin 0; Fin 1]; [Fin 0; Fin 1]]) /\
  length (mean_axis1 [[Fin 1; Fin 0]; [Fin 0; Fin 1]; [Fin 0; Fin 1]]) = 2%nat.
Proof.
  apply (averaged_iterate_on_simplex [[Fin 1; Fin 0]; [Fin 0; Fin 1]; [Fin 0; Fin 1]] 2).
  - discriminate.
  - repeat constructor; simpl; try lra; f_equal; lra.
Defined.

(** ** The objective at the averaged iterate *)

Lemma rsum_abs_triangle (l : list R) : Rabs (rsum l) <= rsum (map Rabs l).
Proof.
  induction l as [|a l IH]; simpl; [rewrite Rabs_R0; lra|].
  unfold rsum in *. pose proof (Rabs_triang a (fold_right Rplus 0 l)). lra.
Qed.

Lemma rsum_map_scal (k : R) {A : Type} (f : A -> R) (l : list A) :
  rsum (map (fun a => k * f a) l) = k * rsum (map f l).
Proof. induction l as [|a l IH]; simpl; [lra|]. unfold rsum in *. rewrite IH. lra. Qed.

Lemma abs_mean_le (c : R) (l : list R) :
  l <> [] ->
  Rabs (1 / INR (length l) * rsum l - c) <=
  1 / INR (length l) * rsum (map (fun d => Rabs (d - c)) l).
Proof.
  intros Hne.
  assert (HT : 0 < INR (length l)).
  { apply lt_0_INR. destruct l; [contradiction | simpl; lia]. }
  replace (1 / INR (length l) * rsum l - c)
    with (1 / INR (length l) * rsum (map (fun x => x - c) l))
    by (rewrite rsum_map_minus_const; field; lra).
  rewrite Rabs_mult, Rabs_right by (apply Rle_ge, Rlt_le, Rdiv_lt_0_compat; lra).
  apply Rmult_le_compat_l; [apply Rlt_le, Rdiv_lt_0_compat; lra|].
  rewrite <- (map_map (fun x => x - c) Rabs). apply rsum_abs_triangle.
Qed.

Lemma rsum_interchange {A B C : Type} (g : A -> B -> C -> R)
  (l : list A) (l' : list B) (rt : list C) :
  rsum (map2 (fun a c => rsum (map (fun r => g a c r) rt)) l l') =
  rsum (map (fun r => rsum (map2 (fun a c => g a c r) l l')) rt).
Proof.
  induction rt as [|r rt IH].
  - simpl. now apply rsum_zero_terms.
  - change (rsum (map (fun r0 => rsum (map2 (fun a c => g a c r0) l l')) (r :: rt)))
      with (rsum (map2 (fun a c => g a c r) l l') +
            rsum (map (fun r0 => rsum (map2 (fun a c => g a c r0) l l')) rt)).
    rewrite <- IH, <- rsum_map2_plus. reflexivity.
Qed.

Lemma rsum_map2_le_in {A B : Type} (f g : A -> B -> R) (l : list A) (l' : list B) :
  (forall a c, In a l -> f a c <= g a c) -> rsum (map2 f l l') <= rsum (map2 g l l').
Proof.
  revert l'. induction l as [|a l IH]; intros [|c l'] H; simpl; try lra.
  assert (f a c <= g a c) by (apply H; now left).
  assert (rsum (map2 f l l') <= rsum (map2 g l l')) by (apply IH; intros; apply H; now right).
  unfold rsum in *. lra.
Qed.

(** The inner product of a row with the averaged iterate is the average of
    its inner products with the iterates. *)
Lemma dot_averaged (row : list R) (rt : list (list R)) :
  Forall (fun r => length r = length row) rt ->
  rsum (map2 Rmult row
          (map (fun j => 1 / INR (length rt) * rsum (map (fun r => nth j r 0) rt))
               (seq 0 (length row)))) =
  1 / INR (length rt) * rsum (map (fun r => rsum (map2 Rmult row r)) rt).
Proof.
  intros Hrt. rewrite rdot_comm.
  rewrite (dot_scaled_indexed (1 / INR (length rt))
             (fun j => rsum (map (fun r => nth j r 0) rt))).
  rewrite (dot_coordinate_sums row rt Hrt). f_equal. f_equal.
  apply map_ext. intros r. apply rdot_comm.
Qed.

(** X16.  The value of [objective] at the averaged iterate, as the
    experiment computes it with [objective(A, b, np.mean(traj, axis=1))], is
    at most the average of its values at the iterates. *)
Theorem averaged_objective_below_average
  (A : list (list R)) (b : list R) (rt : list (list R)) (m : nat) :
  rt <> [] -> (1 <= m)%nat -> Forall (fun r => length r = m) rt ->
  Forall (fun row => length row = m) A -> length b = length A ->
  exists f fs,
    objective (map (map Fin) A) (map Fin b) (mean_axis1 (map (map Fin) rt)) = Ok (Fin f) /\
    map (fun r => objective (map (map Fin) A) (map Fin b) (map Fin r)) rt =
    map (fun v => Ok (Fin v)) fs /\
    f <= rsum fs / INR (length rt).
Proof.
  intros Hne Hm Hrt HA _.
  assert (Hhd : length (hd [] rt) = m).
  { destruct rt as [|r rt']; [contradiction|]. simpl. now inversion Hrt. }
  assert (HT : 0 < INR (length rt)).
  { apply lt_0_INR. destruct rt; [contradiction | simpl; lia]. }
  assert (HM : 0 < INR m) by (apply lt_0_INR; lia).
  rewrite (mean_axis1_Fin rt Hne), Hhd.
  set (mu := map (fun j => 1 / INR (length rt) * rsum (map (fun r => nth j r 0) rt)) (seq 0 m)).
  assert (Hmu : length mu = m) by (unfold mu; now rewrite length_map, length_seq).
  rewrite objective_value by (apply length_nonnil; lia). rewrite Hmu.
  set (res := fun (r : list R) =>
                rsum (map2 (fun row bi => Rabs (rsum (map2 Rmult row r) - bi)) A b)).
  exists (1 / INR m * res mu), (map (fun r => 1 / INR m * res r) rt).
  split; [reflexivity|]. split.
  - rewrite map_map. apply map_ext_in. intros r Hr.
    rewrite Forall_forall in Hrt. specialize (Hrt r Hr).
    rewrite objective_value by (apply length_nonnil; lia). now rewrite Hrt.
  - rewrite rsum_map_scal.
    replace (1 / INR m * rsum (map res rt) / INR (length rt))
      with (1 / INR m * (1 / INR (length rt) * rsum (map res rt))) by (field; lra).
    apply Rmult_le_compat_l; [apply Rlt_le, Rdiv_lt_0_compat; lra|].
    unfold res at 2. rewrite <- rsum_interchange, <- rsum_map2_scal.
    unfold res. apply rsum_map2_le_in. intros row bi Hrow.
    rewrite Forall_forall in HA. specialize (HA row Hrow).
    unfold mu. rewrite <- HA, dot_averaged by (now rewrite HA).
    pose proof (abs_mean_le bi (map (fun r => rsum (map2 Rmult row r)) rt)) as H.
    rewrite length_map, map_map in H. apply H.
    destruct rt; [contradiction | discriminate].
Qed.

Lemma averaged_objective_below_average_witness :
  exists f fs,
    objective (map (map Fin) [[1; -1]; [2; 0]]) (map Fin [0; 1])
              (mean_axis1 (map (map Fin) [[1; 0]; [0; 1]])) = Ok (Fin f) /\
    map (fun r => objective (map (map Fin) [[1; -1]; [2; 0]]) (map Fin [0; 1]) (map Fin r))
        [[1; 0]; [0; 1]] = map (fun v => Ok (Fin v)) fs /\
    f <= rsum fs / INR (length [[1; 0]; [0; 1]]).
Proof.
  apply (averaged_objective_below_average [[1; -1]; [2; 0]] [0; 1] [[1; 0]; [0; 1]] 2).
  - discriminate.
  - lia.
  - repeat constructor.
  - repeat constructor.
  - reflexivity.
Defined.

(** ** The generated instance *)

Lemma gen_data_value (m : nat) (draws : list (list R)) (noise : list R) :
  (2 <= m)%nat ->
  gen_data m (map (map Fin) draws) (map Fin noise) =
  Ok (map (map Fin) draws,
      map Fin (map2 (fun row e => (nth 0 row 0 + nth 1 row 0) / 2 + e) draws noise),
      map Fin (repeat (1 / INR m) m)).
Proof.
  intros Hm. unfold gen_data, take_column.
  destruct (Nat.ltb_spec 0 m); [|lia]. destruct (Nat.ltb_spec 1 m); [|lia]. cbn [bind].
  rewrite !column_Fin, (map2_Fin fadd Rplus) by reflexivity.
  rewrite (map_Fin_fun _ (fun s => s / 2)) by (intros s; apply fdiv_Fin; simpl; lra).
  rewrite (map2_Fin fadd Rplus) by reflexivity.
  rewrite uniform_values by lia. do 3 f_equal.
  revert noise. induction draws as [|row draws IH]; intros [|e noise]; simpl; auto.
  now rewrite <- IH.
Qed.

Lemma dot_planted (row : list R) (k : nat) :
  rsum (map2 Rmult row (1 / 2 :: 1 / 2 :: repeat 0 k)) = (nth 0 row 0 + nth 1 row 0) / 2.
Proof.
  destruct row as [|a0 [|a1 rest]]; simpl; try lra.
  assert (E : forall (l : list R) j, rsum (map2 Rmult l (repeat 0 j)) = 0).
  { induction l as [|c l IH]; intros [|j]; simpl; try reflexivity.
    unfold rsum in *. rewrite IH. lra. }
  unfold rsum in *. rewrite E. lra.
Qed.

Lemma rsum_map2_snd {A : Type} (f : R -> R) (l : list A) (l' : list R) :
  length l' = length l -> rsum (map2 (fun _ e => f e) l l') = rsum (map f l').
Proof.
  revert l'. induction l as [|a l IH]; intros [|e l'] H; simpl in *; try lia; [reflexivity|].
  unfold rsum in *. rewrite IH by lia. reflexivity.
Qed.

Lemma planted_residuals (k : nat) (draws : list (list R)) (noise : list R) :
  length noise = length draws ->
  rsum (map2 (fun row bi => Rabs (rsum (map2 Rmult row (1 / 2 :: 1 / 2 :: repeat 0 k)) - bi))
             draws
             (map2 (fun row e => (nth 0 row 0 + nth 1 row 0) / 2 + e) draws noise)) =
  rsum (map Rabs noise).
Proof.
  revert noise. induction draws as [|row draws IH]; intros [|e noise] H; simpl in H;
    try lia; [reflexivity|].
  cbn [map2 map]. change (rsum (?a :: ?l)) with (a + rsum l).
  rewrite IH by lia. f_equal. rewrite dot_planted.
  replace ((nth 0 row 0 + nth 1 row 0) / 2 - ((nth 0 row 0 + nth 1 row 0) / 2 + e))
    with (- e) by lra.
  apply Rabs_Ropp.
Qed.

(** X17.  [gen_data] raises [IndexError] for fewer than two columns, where
    [A[:,0]] or [A[:,1]] does not exist.  Otherwise, from [n >= 1] rows of
    [m] finite draws and [n] finite noise terms, it returns a well-formed
    instance whose initial point is the uniform point of the simplex. *)
Theorem gen_data_outcome (m : nat) (draws : list (list R)) (noise : list R) :
  ((m < 2)%nat -> gen_data m (map (map Fin) draws) (map Fin noise) = Raise IndexError) /\
  ((2 <= m)%nat -> draws <> [] -> Forall (fun row => length row = m) draws ->
   length noise = length draws ->
   exists b x0,
     gen_data m (map (map Fin) draws) (map Fin noise) = Ok (map (map Fin) draws, b, x0) /\
     valid_instance (map (map Fin) draws) b x0 /\
     x0 = map Fin (repeat (1 / INR m) m) /\ simplex_point x0).
Proof.
  split.
  - intros Hm. unfold gen_data, take_column.
    destruct (Nat.ltb_spec 0 m); [|reflexivity]. cbn [bind].
    destruct (Nat.ltb_spec 1 m); [lia | reflexivity].
  - intros Hm Hne Hrows Hlen. rewrite gen_data_value by exact Hm.
    eexists. eexists. split; [reflexivity|]. split; [|split; [reflexivity|]].
    + unfold valid_instance. rewrite !length_map, repeat_length, length_map2.
      split; [destruct draws; [contradiction | simpl; lia]|].
      split; [lia|]. split; [|split; [lia | apply Forall_finite_Fin]].
      apply Forall_forall. intros row Hrow. apply in_map_iff in Hrow as (r & <- & Hr).
      rewrite Forall_forall in Hrows. rewrite length_map.
      split; [now apply Hrows | apply Forall_finite_Fin].
    + apply uniform_simplex_point. lia.
Qed.

Lemma gen_data_outcome_witness :
  gen_data 1 (map (map Fin) [[3]; [4]]) (map Fin [0; 0]) = Raise IndexError /\
  exists b x0,
    gen_data 2 (map (map Fin) [[1; 3]; [-2; 4]]) (map Fin [1 / 4; 0]) =
    Ok (map (map Fin) [[1; 3]; [-2; 4]], b, x0) /\
    valid_instance (map (map Fin) [[1; 3]; [-2; 4]]) b x0 /\
    x0 = map Fin (repeat (1 / INR 2) 2) /\ simplex_point x0.
Proof.
  split.
  - apply (proj1 (gen_data_outcome 1 [[3]; [4]] [0; 0])). lia.
  - apply (proj2 (gen_data_outcome 2 [[1; 3]; [-2; 4]] [1 / 4; 0])).
    + lia.
    + discriminate.
    + repeat constructor.
    + reflexivity.
Defined.

(** X18.  The instance [gen_data] returns has a planted solution: at the
    point [(1/2, 1/2, 0, ..., 0)] of the simplex every residual is the noise
    term of its row, so [objective] returns [(1/m)] times the sum of the
    absolute noise terms. *)
Theorem gen_data_plants_solution (m : nat) (draws : list (list R)) (noise : list R) :
  (2 <= m)%nat -> Forall (fun row => length row = m) draws ->
  length noise = length draws ->
  exists b x0,
    gen_data m (map (map Fin) draws) (map Fin noise) = Ok (map (map Fin) draws, b, x0) /\
    simplex_point (map Fin (1 / 2 :: 1 / 2 :: repeat 0 (m - 2))) /\
    length (1 / 2 :: 1 / 2 :: repeat 0 (m - 2)) = length x0 /\
    objective (map (map Fin) draws) b (map Fin (1 / 2 :: 1 / 2 :: repeat 0 (m - 2))) =
    Ok (Fin (1 / INR m * rsum (map Rabs noise))).
Proof.
  intros Hm _ Hlen. rewrite gen_data_value by exact Hm.
  eexists. eexists. split; [reflexivity|]. split; [|split].
  - split.
    + repeat constructor; simpl; try lra.
      apply Forall_forall. intros c Hc. apply in_map_iff in Hc as (y & <- & Hy).
      apply repeat_spec in Hy. subst y. simpl. split; [exact I | lra].
    + rewrite np_sum_Fin. f_equal. simpl. unfold rsum in *.
      pose proof (rsum_repeat 0 (m - 2)) as E. unfold rsum in E. rewrite E. lra.
  - rewrite length_map, repeat_length. simpl. rewrite repeat_length. lia.
  - rewrite objective_value by discriminate.
    assert (El : length (1 / 2 :: 1 / 2 :: repeat 0 (m - 2)) = m).
    { simpl. rewrite repeat_length. lia. }
    rewrite El. do 3 f_equal.
    apply planted_residuals, Hlen.
Qed.

Lemma gen_data_plants_solution_witness :
  exists b x0,
    gen_data 3 (map (map Fin) [[1; 3; 5]; [-2; 4; 0]]) (map Fin [1 / 4; -1]) =
    Ok (map (map Fin) [[1; 3; 5]; [-2; 4; 0]], b, x0) /\
    simplex_point (map Fin (1 / 2 :: 1 / 2 :: repeat 0 (3 - 2))) /\
    length (1 / 2 :: 1 / 2 :: repeat 0 (3 - 2)) = length x0 /\
    objective (map (map Fin) [[1; 3; 5]; [-2; 4; 0]]) b
              (map Fin (1 / 2 :: 1 / 2 :: repeat 0 (3 - 2))) =
    Ok (Fin (1 / INR 3 * rsum (map Rabs [1 / 4; -1]))).
Proof.
  apply (gen_data_plants_solution 3 [[1; 3; 5]; [-2; 4; 0]] [1 / 4; -1]).
  - lia.
  - repeat constructor.
  - reflexivity.
Defined.

(** ** Progress of a projected subgradient step *)

(** Clipping at a threshold moves a vector towards every vector of
    nonnegative entries. *)
Lemma clipped_toward (theta : R) (v : list R) :
  forall z, length z = length v -> Forall (fun c => 0 <= c) z ->
    sqdist (map (fun x => Rmax (x - theta) 0) v) z +
    2 * theta * (rsum (map (fun x => Rmax (x - theta) 0) v) - rsum z) <= sqdist v z.
Proof.
  unfold sqdist. induction v as [|a v IH]; intros [|c z] Hlen Hz; simpl in Hlen; try lia.
  - simpl. lra.
  - inversion Hz as [|? ? Hc Hz']; subst. specialize (IH z ltac:(lia) Hz').
    assert (Hm : (Rmax (a - theta) 0 - c) * (Rmax (a - theta) 0 - c) +
                 2 * theta * (Rmax (a - theta) 0 - c) <= (a - c) * (a - c)).
    { unfold Rmax. destruct (Rle_dec (a - theta) 0) as [Hle|Hgt].
      - pose proof (Rmult_le_pos c (theta - a) Hc ltac:(lra)).
        pose proof (Rle_0_sqr a) as Hsq. unfold Rsqr in Hsq. nra.
      - pose proof (Rle_0_sqr theta) as Hsq. unfold Rsqr in Hsq. nra. }
    cbn [map map2]. unfold rsum in *. cbn [fold_right]. lra.
Qed.

Lemma step_expand (alpha : R) (x g z : list R) :
  length g = length x -> length z = length x ->
  sqdist (map2 (fun xi d => xi + - d) x (map (Rmult alpha) g)) z =
  sqdist x z + 2 * alpha * rsum (map2 Rmult g (map2 Rminus z x)) +
  alpha * alpha * rsum (map (fun c => c * c) g).
Proof.
  unfold sqdist. revert g z. induction x as [|a x IH]; intros [|c g] [|e z] Hg Hz;
    simpl in Hg, Hz; try lia.
  - simpl. lra.
  - specialize (IH g z ltac:(lia) ltac:(lia)).
    cbn [map map2]. unfold rsum in *. cbn [fold_right]. rewrite IH. ring.
Qed.

Lemma rsum_squares_bound (L : R) (g : list R) :
  Forall (fun gj => Rabs gj <= L) g ->
  rsum (map (fun c => c * c) g) <= INR (length g) * (L * L).
Proof.
  induction 1 as [|c g Hc _ IH]; [simpl; lra|].
  cbn [map length]. rewrite S_INR. unfold rsum in *. cbn [fold_right].
  assert (c * c <= L * L).
  { unfold Rabs in Hc. destruct (Rcase_abs c); nra. }
  lra.
Qed.

(** One step of [pgd] from a finite iterate, against a point [z] of the
    simplex. *)
Lemma pgd_step_towards (A : list (list R)) (b x z : list R) (alpha : R) :
  A <> [] -> x <> [] -> Forall (fun row => length row = length x) A ->
  length z = length x -> Forall (fun c => 0 <= c) z -> rsum z = 1 -> 0 <= alpha ->
  exists x',
    project_onto_simplex
      (map2 fsub (map Fin x) (map (fmul (Fin alpha)) (map Fin (l1_subgradient A b x)))) =
    Ok (map Fin x') /\
    length x' = length x /\
    sqdist x' z <=
    sqdist x z - 2 * alpha * (l1_objective A b x - l1_objective A b z) +
    alpha * alpha * rsum (map (fun c => c * c) (l1_subgradient A b x)).
Proof.
  intros HA Hx Hrows Hz Hpos Hsum Ha.
  set (g := l1_subgradient A b x).
  assert (Hg : length g = length x) by apply length_l1_subgradient.
  rewrite (map_Fin_fun (fmul (Fin alpha)) (Rmult alpha)) by reflexivity.
  rewrite (map2_Fin fsub (fun xi d => xi + - d)) by reflexivity.
  set (y := map2 (fun xi d => xi + - d) x (map (Rmult alpha) g)).
  assert (Hy : length y = length x).
  { unfold y. rewrite length_map2, length_map. lia. }
  assert (Hyne : y <> []) by (apply length_nonnil; destruct x; [contradiction | simpl in *; lia]).
  destruct (project_finite_theta y Hyne) as (theta & Hp & Hone).
  eexists. split; [exact Hp|]. split; [now rewrite length_map|].
  pose proof (clipped_toward theta y z ltac:(lia) Hpos) as Hc.
  rewrite Hone, Hsum in Hc.
  unfold y in Hc at 2. rewrite (step_expand alpha x g z Hg Hz) in Hc.
  pose proof (l1_subgradient_inequality A b x z Hx Hz Hrows) as Hs. fold g in Hs.
  nra.
Qed.

(** X19.  One step of [pgd] with step size [alpha >= 0] from an iterate
    [x] to [x'] obeys, against every point [z] of the simplex,
    [|x' - z|^2 <= |x - z|^2 - 2 alpha (objective(x) - objective(z))
    + alpha^2 |g|^2] with [g = subgrad(A, b, x)].  It is stated where the
    step stays in the range in which binary64 resolves the simplex: [A] and
    [b] have entries of magnitude at most [2^64], [x] has at most 1024
    entries of magnitude at most [2^15], and [alpha * L <= 2^15] for the
    bound [L] on the coordinates of [g] (the proxy [mda] computes). *)
Theorem pgd_step_progress (A : list (list R)) (b x z : list R) (alpha L : R) :
  A <> [] -> x <> [] -> Forall (fun row => length row = length x) A ->
  length b = length A ->
  Forall (Forall (fun a => Rabs a <= 2 ^ 64)) A -> Forall (fun c => Rabs c <= 2 ^ 64) b ->
  (length x <= 1024)%nat -> Forall (fun c => Rabs c <= 2 ^ 15) x ->
  mda_L (map (map Fin) A) (length x) = Ok (Fin L) -> alpha * L <= 2 ^ 15 ->
  length z = length x -> Forall (fun c => 0 <= c) z -> rsum z = 1 -> 0 <= alpha ->
  exists fx fz g x',
    objective (map (map Fin) A) (map Fin b) (map Fin x) = Ok (Fin fx) /\
    objective (map (map Fin) A) (map Fin b) (map Fin z) = Ok (Fin fz) /\
    subgrad (map (map Fin) A) (map Fin b) (map Fin x) = Ok (map Fin g) /\
    pgd_loop (map (map Fin) A) (map Fin b) (Fin alpha) 1 (map Fin x) = Ok [map Fin x'] /\
    sqdist x' z <=
    sqdist x z - 2 * alpha * (fx - fz) + alpha * alpha * rsum (map (fun c => c * c) g).
Proof.
  intros HA Hx Hrows _ _ _ _ _ _ _ Hz Hpos Hsum Ha.
  assert (Hzne : z <> []) by (intros ->; simpl in Hsum; lra).
  destruct (pgd_step_towards A b x z alpha HA Hx Hrows Hz Hpos Hsum Ha)
    as (x' & Hp & _ & Hle).
  exists (l1_objective A b x), (l1_objective A b z), (l1_subgradient A b x), x'.
  split; [apply objective_l1, Hx|]. split; [apply objective_l1, Hzne|].
  split; [now apply subgrad_l1|]. split; [|exact Hle].
  cbn [pgd_loop]. rewrite subgrad_l1 by assumption. cbn [bind].
  rewrite Hp. reflexivity.
Qed.

Lemma pgd_step_progress_witness :
  exists fx fz g x',
    objective (map (map Fin) [[1; 2]; [0; -1]]) (map Fin [1; 0]) (map Fin [1 / 2; 1 / 2]) =
    Ok (Fin fx) /\
    objective (map (map Fin) [[1; 2]; [0; -1]]) (map Fin [1; 0]) (map Fin [1; 0]) =
    Ok (Fin fz) /\
    subgrad (map (map Fin) [[1; 2]; [0; -1]]) (map Fin [1; 0]) (map Fin [1 / 2; 1 / 2]) =
    Ok (map Fin g) /\
    pgd_loop (map (map Fin) [[1; 2]; [0; -1]]) (map Fin [1; 0]) (Fin (1 / 4)) 1
             (map Fin [1 / 2; 1 / 2]) = Ok [map Fin x'] /\
    sqdist x' [1; 0] <=
    sqdist [1 / 2; 1 / 2] [1; 0] - 2 * (1 / 4) * (fx - fz) +
    1 / 4 * (1 / 4) * rsum (map (fun c => c * c) g).
Proof.
  apply (pgd_step_progress [[1; 2]; [0; -1]] [1; 0] [1 / 2; 1 / 2] [1; 0] (1 / 4)
                            (3 / 2)).
  - discriminate.
  - discriminate.
  - repeat constructor.
  - reflexivity.
  - matrix_entries_solve.
  - entries_solve.
  - simpl. lia.
  - entries_solve.
  - unfold mda_L, np_max. unfold_source. fl_eval.
    rewrite Rabs_R0, Rabs_R1, (Rabs_right 2), (Rabs_left (-1)) by lra. rdecide. fl_close.
  - simpl. lra.
  - reflexivity.
  - repeat constructor; lra.
  - simpl. lra.
  - lra.
Defined.

(** ** The sum of the objective values along a run of [pgd] *)

Lemma pgd_loop_regret (A : list (list R)) (b z : list R) (alpha L : R) (m : nat) :
  A <> [] -> Forall (fun row => length row = m) A ->
  mda_L (map (map Fin) A) m = Ok (Fin L) ->
  length z = m -> Forall (fun c => 0 <= c) z -> rsum z = 1 -> 0 <= alpha ->
  forall steps x, length x = m ->
    exists rest : list (list R),
      pgd_loop (map (map Fin) A) (map Fin b) (Fin alpha) steps (map Fin x) =
      Ok (map (map Fin) rest) /\
      length rest = steps /\ Forall (fun r => length r = m) rest /\
      2 * alpha * (rsum (map (l1_objective A b) (firstn steps (x :: rest))) -
                   INR steps * l1_objective A b z) <=
      sqdist x z + INR steps * (alpha * alpha * (INR m * (L * L))).
Proof.
  intros HA Hrows HL Hz Hpos Hsum Ha.
  assert (Hm : m <> 0%nat) by (intros ->; destruct z; [simpl in Hsum; lra | discriminate]).
  induction steps as [|k IH]; intros x Hx.
  - exists []. split; [reflexivity|]. split; [reflexivity|]. split; [constructor|].
    simpl. assert (0 <= sqdist x z).
    { unfold sqdist. apply rsum_nonneg. clear. revert z.
      induction x as [|a x IH]; intros [|c z]; simpl; constructor; auto.
      pose proof (Rle_0_sqr (a - c)) as H. exact H. }
    lra.
  - assert (Hxne : x <> []) by (apply length_nonnil; lia).
    assert (Hrows' : Forall (fun row => length row = length x) A).
    { eapply Forall_impl; [|exact Hrows]. intros row Hr. simpl in Hr. lia. }
    destruct (pgd_step_towards A b x z alpha HA Hxne Hrows' ltac:(lia) Hpos Hsum Ha)
      as (x' & Hp & Hlen' & Hle).
    destruct (IH x' ltac:(lia)) as (rest & Hrest & Hlen & Hlens & Hreg).
    exists (x' :: rest). cbn [pgd_loop].
    rewrite subgrad_l1 by assumption. cbn [bind]. rewrite Hp. cbn [bind].
    rewrite Hrest. cbn [bind]. split; [reflexivity|]. split; [simpl; lia|].
    split; [constructor; [lia | exact Hlens]|].
    pose proof (l1_subgradient_bounded A b x L Hxne Hrows' ltac:(now rewrite Hx)) as Hb.
    apply rsum_squares_bound in Hb. rewrite length_l1_subgradient, Hx in Hb.
    change (firstn (S k) (x :: x' :: rest)) with (x :: firstn k (x' :: rest)).
    cbn [map]. change (rsum (?a :: ?l)) with (a + rsum l).
    rewrite S_INR.
    assert (Haa : 0 <= alpha * alpha) by (apply Rmult_le_pos; lra).
    pose proof (Rmult_le_compat_l (alpha * alpha) _ _ Haa Hb) as Hb'.
    lra.
Qed.

Lemma In_firstn {A : Type} (a : A) (n : nat) (l : list A) :
  In a (firstn n l) -> In a l.
Proof.
  revert n. induction l as [|c l IH]; intros [|n] H; simpl in *; try contradiction.
  destruct H as [H|H]; [now left | right; eauto].
Qed.

(** X20.  Along a run of [pgd] with step size [alpha >= 0] from an iterate
    [x_0], against every point [z] of the simplex, the objective values at
    the iterates the steps start from satisfy
    [2 alpha sum_t (objective(x_t) - objective(z)) <=
     |x_0 - z|^2 + steps alpha^2 m L^2], where [L] bounds the coordinates of
    every subgradient (the proxy [mda] computes).  It is stated where every
    step stays in the range in which binary64 resolves the simplex: [A] and
    [b] have entries of magnitude at most [2^64], [x_0] has at most 1024
    entries of magnitude at most [2^15], and [alpha * L <= 2^15]. *)
Theorem pgd_regret_bound (A : list (list R)) (b x z : list R) (alpha L : R) (steps : nat) :
  Forall (fun row => length row = length x) A -> length b = length A ->
  Forall (Forall (fun a => Rabs a <= 2 ^ 64)) A -> Forall (fun c => Rabs c <= 2 ^ 64) b ->
  (length x <= 1024)%nat -> Forall (fun c => Rabs c <= 2 ^ 15) x ->
  mda_L (map (map Fin) A) (length x) = Ok (Fin L) -> alpha * L <= 2 ^ 15 ->
  length z = length x -> Forall (fun c => 0 <= c) z -> rsum z = 1 -> 0 <= alpha ->
  exists (rest : list (list R)) (fs : list R) (fz : R),
    pgd_loop (map (map Fin) A) (map Fin b) (Fin alpha) steps (map Fin x) =
    Ok (map (map Fin) rest) /\
    objective (map (map Fin) A) (map Fin b) (map Fin z) = Ok (Fin fz) /\
    map (fun r => objective (map (map Fin) A) (map Fin b) (map Fin r))
        (firstn steps (x :: rest)) = map (fun v => Ok (Fin v)) fs /\
    2 * alpha * (rsum fs - INR steps * fz) <=
    sqdist x z + INR steps * (alpha * alpha * (INR (length x) * (L * L))).
Proof.
  intros Hrows _ _ _ _ _ HL _ Hz Hpos Hsum Ha.
  pose proof (mda_L_nonempty A _ _ HL) as HA.
  assert (Hzne : z <> []) by (intros ->; simpl in Hsum; lra).
  destruct (pgd_loop_regret A b z alpha L (length x) HA Hrows HL Hz Hpos Hsum Ha steps x
              eq_refl) as (rest & Hrest & Hlen & Hlens & Hreg).
  exists rest, (map (l1_objective A b) (firstn steps (x :: rest))), (l1_objective A b z).
  split; [exact Hrest|]. split; [apply objective_l1, Hzne|]. split; [|exact Hreg].
  rewrite map_map. apply map_ext_in. intros r Hr. apply objective_l1.
  apply In_firstn in Hr. apply length_nonnil.
  assert (Hl : length r = length x).
  { destruct Hr as [<-|Hr]; [reflexivity|].
    rewrite Forall_forall in Hlens. now apply Hlens. }
  rewrite Hl, <- Hz. destruct z; [contradiction | discriminate].
Qed.

Lemma pgd_regret_bound_witness :
  exists (rest : list (list R)) (fs : list R) (fz : R),
    pgd_loop (map (map Fin) [[1; 1]; [1; 1]]) (map Fin [0; 3]) (Fin (1 / 4)) 3
             (map Fin [1 / 2; 1 / 2]) = Ok (map (map Fin) rest) /\
    objective (map (map Fin) [[1; 1]; [1; 1]]) (map Fin [0; 3]) (map Fin [1; 0]) =
    Ok (Fin fz) /\
    map (fun r => objective (map (map Fin) [[1; 1]; [1; 1]]) (map Fin [0; 3]) (map Fin r))
        (firstn 3 ([1 / 2; 1 / 2] :: rest)) = map (fun v => Ok (Fin v)) fs /\
    2 * (1 / 4) * (rsum fs - INR 3 * fz) <=
    sqdist [1 / 2; 1 / 2] [1; 0] +
    INR 3 * (1 / 4 * (1 / 4) * (INR (length [1 / 2; 1 / 2]) * (1 * 1))).
Proof.
  apply (pgd_regret_bound [[1; 1]; [1; 1]] [0; 3] [1 / 2; 1 / 2] [1; 0] (1 / 4) 1 3).
  - repeat constructor.
  - reflexivity.
  - matrix_entries_solve.
  - entries_solve.
  - simpl. lia.
  - entries_solve.
  - exact mda_L_ones.
  - simpl. lra.
  - reflexivity.
  - repeat constructor; lra.
  - simpl. lra.
  - lra.
Defined.

(** ** The [mda] update and a shifted subgradient *)



